(** * multi-media-player: subtitle store, text cleaner and player arithmetic

    A shallow embedding of [subtitle.cpp] / [subtitle.h] (the subtitle
    track: timecode parsing, text cleaning, the SRT and ASS loaders, live
    insertion and the active-text lookup) and of the parts of [media.h] /
    [media.cpp] that touch it ([MediaPlayer::get_progress], the seek
    servicing of [VideoPlayer::decode_loop], [ImagePlayer::seek_frames]).

    Conventions.
    - [double] is IEEE binary64, i.e. Rocq's primitive [float]; C++ [<],
      [<=], [+], [*], [/] on doubles are [PrimFloat.ltb], [leb], [add],
      [mul], [div].
    - [std::string] is a list of 8-bit characters ([list ascii]);
      [std::string::npos] is [None].
    - [int] is a [Z] kept in the 32-bit two's complement range by [wrap].
    - A text file is the character sequence the stream delivers. *)

From Stdlib Require Import String Ascii ZArith List Bool Lia Arith Sorted Permutation.
From Stdlib Require Import Floats.
From Equations Require Import Equations.
Import ListNotations.

(** ** IEEE binary64 comparisons *)

Module Double.

Local Open Scope float_scope.

(** A double that is not NaN compares equal to itself. *)
Definition is_number (x : float) : Prop := (x =? x) = true.

(** Conversion of a signed integer to [double]: exact for an [int], since
    every 32-bit integer is a binary64 value; rounded to nearest for a
    64-bit count of [2^53] or more. *)
Definition of_int (i : Z) : float :=
  if (i <? 0)%Z then - of_uint63 (Uint63.of_Z (- i)) else of_uint63 (Uint63.of_Z i).


(** [static_cast<float>(x)]: rounding to the nearest binary32 value (ties
    to even, overflow to infinity).  A [float] is represented by the
    double that has the same value, so [static_cast<double>] of a [float]
    is the identity and [0.0f] is [0]. *)
Definition static_cast_float (x : float) : float :=
  match Prim2SF x with
  | S754_finite s m e => SF2Prim (binary_round 24 128 s m e)
  | _ => x
  end.

(** [static_cast<int>(x)]: truncation towards zero.  For a value outside
    [int], an infinity or NaN the conversion is undefined in C++; the model
    yields [INT_MIN], as the x86 conversion instruction does. *)
Definition to_int (x : float) : Z :=
  match Prim2SF x with
  | S754_zero _ => 0%Z
  | S754_finite s m e =>
      let v := (if 0 <=? e then Zpos m * 2 ^ e
                else Z.quot (Zpos m) (2 ^ (- e)))%Z in
      let v := (if s then - v else v)%Z in
      if ((- 2 ^ 31 <=? v) && (v <=? 2 ^ 31 - 1))%Z then v else (- 2 ^ 31)%Z
  | _ => (- 2 ^ 31)%Z
  end.

End Double.

(** ** [std::string] operations used by the subtitle code *)

Module Str.

Local Open Scope char_scope.

Definition str (s : string) : list ascii := list_ascii_of_string s.

Definition LF : ascii := "010".
Definition CR : ascii := "013".
Definition TAB : ascii := "009".

(** Membership of a character in a character set (the [const char*]
    argument of [find_first_not_of] and friends). *)
Fixpoint char_in (c : ascii) (set : list ascii) : bool :=
  match set with
  | [] => false
  | d :: set' => Ascii.eqb c d || char_in c set'
  end.

(** [s.find_first_not_of(set)]. *)
Fixpoint find_first_not_of (set s : list ascii) : option nat :=
  match s with
  | [] => None
  | c :: r => if char_in c set then option_map S (find_first_not_of set r)
              else Some 0
  end.

(** [s.find_last_not_of(set)]. *)
Fixpoint find_last_not_of (set s : list ascii) : option nat :=
  match s with
  | [] => None
  | c :: r => match find_last_not_of set r with
              | Some i => Some (S i)
              | None => if char_in c set then None else Some 0
              end
  end.

(** [s.find_first_of(set)] and [s.find_first_of(set, pos)]; a start
    position of [npos] finds nothing. *)
Fixpoint find_first_of (set s : list ascii) : option nat :=
  match s with
  | [] => None
  | c :: r => if char_in c set then Some 0
              else option_map S (find_first_of set r)
  end.

Definition find_first_of_from (set s : list ascii) (pos : option nat) : option nat :=
  match pos with
  | None => None
  | Some p => option_map (Nat.add p) (find_first_of set (skipn p s))
  end.

(** [s.substr(pos, n)] and [s.substr(pos)], for [pos <= s.size()]. *)
Definition substr (s : list ascii) (pos n : nat) : list ascii :=
  firstn n (skipn pos s).

Definition substr_from (s : list ascii) (pos : nat) : list ascii :=
  skipn pos s.

(** [s.rfind(p, 0) == 0]: [p] is a prefix of [s]. *)
Fixpoint starts_with (p s : list ascii) : bool :=
  match p, s with
  | [], _ => true
  | _ :: _, [] => false
  | a :: p', b :: s' => Ascii.eqb a b && starts_with p' s'
  end.

(** [s.find(p)] for a non-empty pattern, and [s.find(c, pos)]. *)
Fixpoint find (p s : list ascii) : option nat :=
  if starts_with p s then Some 0
  else match s with
       | [] => None
       | _ :: r => option_map S (find p r)
       end.

Fixpoint find_char (c : ascii) (s : list ascii) : option nat :=
  match s with
  | [] => None
  | d :: r => if Ascii.eqb d c then Some 0 else option_map S (find_char c r)
  end.

Definition find_char_from (c : ascii) (s : list ascii) (pos : nat) : option nat :=
  option_map (Nat.add pos) (find_char c (skipn pos s)).

(** The [trim_cr] lambdas: drop one trailing carriage return. *)
Definition trim_cr (line : list ascii) : list ascii :=
  match rev line with
  | c :: r => if Ascii.eqb c CR then rev r else line
  | [] => line
  end.

(** The [trim_str] / [trim_f] lambdas and the tail of [clean_text]:
    [f == npos ? "" : s.substr(f, l - f + 1)].  When [f] is found so is
    [l]; the unreachable [l == npos] case takes the rest of the string, as
    the wrapped count would. *)
Definition trim (set s : list ascii) : list ascii :=
  match find_first_not_of set s with
  | None => []
  | Some f => match find_last_not_of set s with
              | Some l => substr s f (l - f + 1)
              | None => substr_from s f
              end
  end.

(** [::isdigit] on a character. *)
Definition isdigit (c : ascii) : bool :=
  let n := nat_of_ascii c in (48 <=? n)%nat && (n <=? 57)%nat.

(** [isspace] in the C locale. *)
Definition isspace (c : ascii) : bool :=
  let n := nat_of_ascii c in Nat.eqb n 32 || ((9 <=? n)%nat && (n <=? 13)%nat).

(** The lines [std::getline] yields on a stream holding [s]: the text
    between line feeds; a final line without line feed is still yielded,
    an empty remainder at end of file is not. *)
Fixpoint getlines_from (cur : list ascii) (s : list ascii) : list (list ascii) :=
  match s with
  | [] => match cur with [] => [] | _ => [rev cur] end
  | c :: r => if Ascii.eqb c LF then rev cur :: getlines_from [] r
              else getlines_from (c :: cur) r
  end.

Definition getlines (s : list ascii) : list (list ascii) := getlines_from [] s.

(** [std::getline(ss, field, ',')] on an [istringstream]: the same with a
    comma as delimiter. *)
Fixpoint getfields_from (cur : list ascii) (s : list ascii) : list (list ascii) :=
  match s with
  | [] => match cur with [] => [] | _ => [rev cur] end
  | c :: r => if Ascii.eqb c "," then rev cur :: getfields_from [] r
              else getfields_from (c :: cur) r
  end.

Definition getfields (s : list ascii) : list (list ascii) := getfields_from [] s.

(** The text of a file made of the given lines, each ended by a line
    feed. *)
Definition unlines (ls : list (list ascii)) : list ascii :=
  concat (map (fun l => l ++ [LF]) ls).

(** What trimming amounts to: dropping the leading and the trailing
    characters that belong to the set. *)
Fixpoint drop_leading (set s : list ascii) : list ascii :=
  match s with
  | [] => []
  | c :: r => if char_in c set then drop_leading set r else s
  end.

Fixpoint drop_trailing (set s : list ascii) : list ascii :=
  match s with
  | [] => []
  | c :: r => match drop_trailing set r with
              | [] => if char_in c set then [] else [c]
              | r' => c :: r'
              end
  end.

(** The UTF-8 byte order mark. *)
Definition bom : list ascii := ["239"; "187"; "191"].

(** The fields of a line put together again, a comma between two fields. *)
Fixpoint join_commas (fields : list (list ascii)) : list ascii :=
  match fields with
  | [] => []
  | [f] => f
  | f :: rest => f ++ "," :: join_commas rest
  end.

(** A string without line feed. *)
Definition no_LF (l : list ascii) : Prop :=
  Forall (fun c => Ascii.eqb c LF = false) l.

(** The last character of a string is a carriage return. *)
Definition ends_with_cr (line : list ascii) : bool :=
  match rev line with
  | c :: _ => Ascii.eqb c CR
  | [] => false
  end.

End Str.

(** ** 32-bit [int] *)

Module Int.

Local Open Scope Z_scope.

Definition INT_MIN : Z := - 2 ^ 31.
Definition INT_MAX : Z := 2 ^ 31 - 1.

(** Reduction of a mathematical integer to the two's complement range. *)
Definition wrap (z : Z) : Z := (z + 2 ^ 31) mod 2 ^ 32 - 2 ^ 31.

Definition in_range (z : Z) : Prop := INT_MIN <= z <= INT_MAX.

Definition add (a b : Z) : Z := wrap (a + b).

(** C++ [%] on [int]: the remainder of the division truncated towards
    zero ([Z.rem]); the divisor is non-zero at every use. *)
Definition rem (a b : Z) : Z := wrap (Z.rem a b).

End Int.

(** ** Binary searches and insertion of [<algorithm>] / [<vector>] *)

Module Algo.

(** The loop shared by [std::lower_bound] and [std::upper_bound]: the range
    [[first, first + len)] is halved until it is empty; [p] tells whether
    the searched position lies after the probed element. *)
Equations? partition_point {A : Type} (p : A -> bool) (v : list A)
  (first len : nat) : nat by wf len lt :=
partition_point p v first 0 := first;
partition_point p v first (S n) with nth_error v (first + S n / 2) := {
  | Some x with p x := {
    | true := partition_point p v (S (first + S n / 2)) (S n - S n / 2 - 1);
    | false := partition_point p v first (S n / 2) };
  | None := first }.
Proof.
  all: change (fst (Nat.divmod n 1 0 0)) with (S n / 2);
    pose proof (Nat.div_lt (S n) 2 ltac:(lia) ltac:(lia));
    destruct (S n / 2); lia.
Qed.

(** [std::lower_bound(v.begin(), v.end(), value, comp) - v.begin()]. *)
Definition lower_bound {A : Type} (v : list A) (value : A)
  (comp : A -> A -> bool) : nat :=
  partition_point (fun x => comp x value) v 0 (length v).

(** [std::upper_bound(v.begin(), v.end(), value, comp) - v.begin()]. *)
Definition upper_bound {A B : Type} (v : list A) (value : B)
  (comp : B -> A -> bool) : nat :=
  partition_point (fun x => negb (comp value x)) v 0 (length v).

(** [v.insert(v.begin() + it, x)]. *)
Definition insert_at {A : Type} (v : list A) (it : nat) (x : A) : list A :=
  firstn it v ++ x :: skipn it v.

(** The length of the longest prefix whose elements all satisfy [p], and
    the ranges a binary search is meant for: no element after that prefix
    satisfies [p]. *)
Fixpoint prefix_len {A : Type} (p : A -> bool) (l : list A) : nat :=
  match l with
  | [] => 0
  | x :: r => if p x then S (prefix_len p r) else 0
  end.

Definition partitioned {A : Type} (p : A -> bool) (l : list A) : Prop :=
  Forall (fun x => p x = false) (skipn (prefix_len p l) l).

End Algo.

(** ** The subtitle track ([subtitle.h], [subtitle.cpp]) *)

Module Subtitle.

Import Str.
Local Open Scope char_scope.

(** *** Text cleaning *)

Section Brackets.

(** The bracket pair: ['{'] / ['}'] or ['<'] / ['>']. *)
Variables opening closing : ascii.

(** The loop of [strip_ass_tags] / [strip_html_tags], started at nesting
    depth [depth]; [result += c] becomes a cons.  The [int] counter is
    kept as an unbounded integer: it grows by one per opening bracket
    read, so it cannot leave the [int] range on a string of fewer than
    [2^31] characters ([depth_after_bounds]). *)
Fixpoint strip_loop (depth : Z) (s : list ascii) : list ascii :=
  match s with
  | [] => []
  | c :: r =>
      if Ascii.eqb c opening then strip_loop (depth + 1) r
      else if Ascii.eqb c closing then
             strip_loop (if (0 <? depth)%Z then depth - 1 else depth)%Z r
      else if (depth =? 0)%Z then c :: strip_loop depth r
      else strip_loop depth r
  end.

(** The value of [depth] when the loop ends. *)
Fixpoint depth_after (depth : Z) (s : list ascii) : Z :=
  match s with
  | [] => depth
  | c :: r =>
      if Ascii.eqb c opening then depth_after (depth + 1) r
      else if Ascii.eqb c closing then
             depth_after (if (0 <? depth)%Z then depth - 1 else depth)%Z r
      else depth_after depth r
  end.

Definition strip_tags (s : list ascii) : list ascii := strip_loop 0 s.

End Brackets.

Definition strip_ass_tags : list ascii -> list ascii := strip_tags "{" "}".
Definition strip_html_tags : list ascii -> list ascii := strip_tags "<" ">".

(** The escape loop of [clean_text]: a backslash followed by [N] or [n]
    becomes a line feed and both characters are consumed. *)
Fixpoint unescape (r : list ascii) : list ascii :=
  match r with
  | [] => []
  | c :: r' =>
      match r' with
      | d :: r'' =>
          if Ascii.eqb c "\" && (Ascii.eqb d "N" || Ascii.eqb d "n")
          then LF :: unescape r''
          else c :: unescape r'
      | [] => [c]
      end
  end.

(** A string in which no backslash is followed by [N] or [n]. *)
Fixpoint no_escape (r : list ascii) : bool :=
  match r with
  | [] => true
  | c :: r' =>
      match r' with
      | d :: _ => negb (Ascii.eqb c "\" && (Ascii.eqb d "N" || Ascii.eqb d "n"))
                  && no_escape r'
      | [] => true
      end
  end.

(** The whitespace set [" \t\r\n"]. *)
Definition blanks : list ascii := [" "; TAB; CR; LF].

Definition clean_text (s : list ascii) : list ascii :=
  let r := strip_ass_tags (strip_html_tags s) in
  let out := unescape r in
  trim blanks out.

(** *** Timecodes *)

(** A [%d] conversion of [sscanf]: leading white space, an optional sign,
    then at least one digit.  A value outside [int] is undefined in C; the
    model reduces it to the [int] range. *)
Fixpoint skip_space (s : list ascii) : list ascii :=
  match s with
  | c :: r => if isspace c then skip_space r else s
  | [] => []
  end.

Fixpoint scan_digits (acc : Z) (s : list ascii) : Z * list ascii :=
  match s with
  | c :: r => if isdigit c
              then scan_digits (10 * acc + (Z.of_nat (nat_of_ascii c) - 48)) r
              else (acc, s)
  | [] => (acc, [])
  end.

Definition scan_int (s : list ascii) : option (Z * list ascii) :=
  let s1 := skip_space s in
  let '(neg, s2) := match s1 with
                    | c :: r => if Ascii.eqb c "-" then (true, r)
                                else if Ascii.eqb c "+" then (false, r)
                                else (false, s1)
                    | [] => (false, s1)
                    end in
  match s2 with
  | c :: _ => if isdigit c
              then let '(v, rest) := scan_digits 0 s2 in
                   Some (Int.wrap (if neg then - v else v), rest)
              else None
  | [] => None
  end.

(** A literal character of the format: it must be the next input
    character. *)
Definition scan_lit (c : ascii) (s : list ascii) : option (list ascii) :=
  match s with
  | d :: r => if Ascii.eqb d c then Some r else None
  | [] => None
  end.

(** [sscanf(ts, "%d<a>%d<b>%d<c>%d", &x1, &x2, &x3, &x4)] with all four
    variables initialised to [0]: conversion stops at the first mismatch
    and the variables not reached keep [0]. *)
Definition sscanf4 (a b c : ascii) (ts : list ascii) : Z * Z * Z * Z :=
  match scan_int ts with
  | None => (0, 0, 0, 0)
  | Some (x1, s) =>
    match scan_lit a s with
    | None => (x1, 0, 0, 0)
    | Some s =>
      match scan_int s with
      | None => (x1, 0, 0, 0)
      | Some (x2, s) =>
        match scan_lit b s with
        | None => (x1, x2, 0, 0)
        | Some s =>
          match scan_int s with
          | None => (x1, x2, 0, 0)
          | Some (x3, s) =>
            match scan_lit c s with
            | None => (x1, x2, x3, 0)
            | Some s =>
              match scan_int s with
              | None => (x1, x2, x3, 0)
              | Some (x4, _) => (x1, x2, x3, x4)
              end
            end
          end
        end
      end
    end
  end%Z.

Local Open Scope float_scope.

(** ["01:23:45,678"] to seconds. *)
Definition parse_srt_time (ts : list ascii) : float :=
  let '(h, m, s, ms) := sscanf4 ":" ":" "," ts in
  Double.of_int h * 3600 + Double.of_int m * 60 + Double.of_int s
  + Double.of_int ms / 1000.

(** ["1:23:45.67"] to seconds (centiseconds). *)
Definition parse_ass_time (ts : list ascii) : float :=
  let '(h, m, s, cs) := sscanf4 ":" ":" "." ts in
  Double.of_int h * 3600 + Double.of_int m * 60 + Double.of_int s
  + Double.of_int cs / 100.


(** *** Entries and the track *)

Record SubtitleEntry : Type := mkEntry {
  start : float;       (* display start, seconds *)
  end_ : float;        (* display end, seconds ([end] in the source) *)
  text : list ascii    (* cleaned text *)
}.

(** [SubtitleEntry{}]: value-initialised. *)
Definition entry0 : SubtitleEntry := mkEntry 0 0 [].

Record SubtitleTrack : Type := mkTrack {
  entries_ : list SubtitleEntry
}.

(** The [empty_str_] member, never assigned. *)
Definition empty_str_ : list ascii := [].

Definition track0 : SubtitleTrack := mkTrack [].

Definition is_loaded (t : SubtitleTrack) : bool :=
  match entries_ t with [] => false | _ => true end.

Definition size (t : SubtitleTrack) : nat := length (entries_ t).

Definition clear (t : SubtitleTrack) : SubtitleTrack := mkTrack [].

Definition is_empty {A : Type} (l : list A) : bool :=
  match l with [] => true | _ => false end.

(** The comparator of both searches and of the sort. *)
Definition start_lt (a b : SubtitleEntry) : bool := start a <? start b.

(** *** The SRT loader *)

Record SrtState : Type := mkSrt {
  srt_entries : list SubtitleEntry;
  cur : SubtitleEntry;
  text_buf : list ascii;
  in_entry : bool
}.

Definition srt_init : SrtState := mkSrt [] entry0 [] false.

(** The [flush] lambda. *)
Definition flush (st : SrtState) : SrtState :=
  let st1 :=
    if in_entry st && negb (is_empty (text_buf st)) then
      let cur' := mkEntry (start (cur st)) (end_ (cur st)) (clean_text (text_buf st)) in
      mkSrt (if negb (is_empty (text cur')) then srt_entries st ++ [cur']
             else srt_entries st)
            cur' (text_buf st) (in_entry st)
    else st in
  mkSrt (srt_entries st1) (cur st1) [] false.

(** Removal of a UTF-8 byte order mark at the head of a line. *)
Definition strip_bom (line : list ascii) : list ascii :=
  match line with
  | a :: b :: c :: r =>
      if Ascii.eqb a "239" && Ascii.eqb b "187" && Ascii.eqb c "191" then r
      else line
  | _ => line
  end.

(** The body of the [while (std::getline(ifs, line))] loop. *)
Definition srt_line (st : SrtState) (line0 : list ascii) : SrtState :=
  let line := trim_cr (strip_bom line0) in
  if is_empty line then flush st
  else if forallb isdigit line then
    let st' := flush st in
    mkSrt (srt_entries st') entry0 (text_buf st') true
  else
    match find (str "-->") line with
    | Some arrow =>
        let s_str := substr line 0 arrow in
        let e_str := substr_from line (arrow + 3) in
        let eol := find_first_of_from blanks e_str
                     (find_first_not_of [" "; TAB] e_str) in
        let e_str := match eol with
                     | Some n => substr e_str 0 n
                     | None => e_str
                     end in
        let s_str := trim [" "; TAB] s_str in
        let e_str := trim [" "; TAB] e_str in
        mkSrt (srt_entries st)
              (mkEntry (parse_srt_time s_str) (parse_srt_time e_str) (text (cur st)))
              (text_buf st) (in_entry st)
    | None =>
        if in_entry st then
          mkSrt (srt_entries st) (cur st)
                ((if negb (is_empty (text_buf st)) then text_buf st ++ [LF]
                  else text_buf st) ++ line)
                (in_entry st)
        else st
    end.

(** The entries accepted from a stream: the loop over the lines, then the
    final [flush], starting from the cleared vector. *)
Definition srt_parse (content : list ascii) : list SubtitleEntry :=
  srt_entries (flush (fold_left srt_line (getlines content) srt_init)).

(** [load_srt]; the file is [None] when the stream cannot be opened. *)
Definition load_srt (file : option (list ascii)) (t : SubtitleTrack)
  : bool * SubtitleTrack :=
  match file with
  | None => (false, t)
  | Some content =>
      let es := srt_parse content in
      (negb (is_empty es), mkTrack es)
  end.

(** *** The ASS / SSA loader *)

Record AssState : Type := mkAss {
  ass_entries : list SubtitleEntry;
  in_events : bool;
  text_col_idx : nat   (* an [int] that only counts fields from zero *)
}.

Definition ass_init : AssState := mkAss [] false 9.

Definition is_some {A : Type} (o : option A) : bool :=
  match o with Some _ => true | None => false end.

Fixpoint string_eqb (a b : list ascii) : bool :=
  match a, b with
  | [], [] => true
  | x :: a', y :: b' => Ascii.eqb x y && string_eqb a' b'
  | _, _ => false
  end.

(** The field trimming of the [Format:] loop: a field of blanks only is
    left as it is. *)
Definition trim_field (field : list ascii) : list ascii :=
  match find_first_not_of [" "; TAB] field with
  | Some _ => trim [" "; TAB] field
  | None => field
  end.

(** The [Format:] loop: the index of the first field named [Text], the
    default [9] when there is none. *)
Fixpoint find_text_col (idx : nat) (fields : list (list ascii)) : nat :=
  match fields with
  | [] => 9
  | field :: rest =>
      if string_eqb (trim_field field) (str "Text") then idx
      else find_text_col (S idx) rest
  end.

(** The column splitting loop; [k] is [text_col_idx - i], the number of
    columns still to split off before the text column. *)
Fixpoint split_fields (data : list ascii) (k pos : nat) : list (list ascii) :=
  match k with
  | 0 => [substr_from data pos]
  | S k' =>
      match find_char_from "," data pos with
      | None => [substr_from data pos]
      | Some comma => substr data pos (comma - pos)
                      :: split_fields data k' (comma + 1)
      end
  end.

(** The part of the loop body that handles a [Dialogue:] line. *)
Definition ass_dialogue (st : AssState) (line : list ascii) : AssState :=
  let data := substr_from line 9 in
  let fields := split_fields data (text_col_idx st) 0 in
  if (length fields <? text_col_idx st + 1)%nat then st
  else if (length fields <? 3)%nat then st
  else
    let f1 := trim [" "; TAB] (nth 1 fields []) in
    let f2 := trim [" "; TAB] (nth 2 fields []) in
    let fields' := firstn 1 fields ++ [f1; f2] ++ skipn 3 fields in
    let start := parse_ass_time f1 in
    let end_ := parse_ass_time f2 in
    let text := clean_text (nth (text_col_idx st) fields' []) in
    if negb (is_empty text)
    then mkAss (ass_entries st ++ [mkEntry start end_ text])
               (in_events st) (text_col_idx st)
    else st.

(** The body of the loop over the lines. *)
Definition ass_line (st : AssState) (line0 : list ascii) : AssState :=
  let line := trim_cr line0 in
  match line with
  | [] => st
  | c0 :: _ =>
      if Ascii.eqb c0 ";" || Ascii.eqb c0 "!" then st
      else if Ascii.eqb c0 "[" then
        mkAss (ass_entries st) (is_some (find (str "[Events]") line))
              (text_col_idx st)
      else if negb (in_events st) then st
      else if starts_with (str "Format:") line then
        mkAss (ass_entries st) (in_events st)
              (find_text_col 0 (getfields (substr_from line 7)))
      else if negb (starts_with (str "Dialogue:") line) then st
      else ass_dialogue st line
  end.

(** [std::sort] with the comparator on [start]: the model is an
    insertion sort; the standard leaves the order of entries with equal
    [start] open. *)
Fixpoint insert_by_start (e : SubtitleEntry) (l : list SubtitleEntry)
  : list SubtitleEntry :=
  match l with
  | [] => [e]
  | x :: r => if start_lt e x then e :: l else x :: insert_by_start e r
  end.

Definition sort_by_start (l : list SubtitleEntry) : list SubtitleEntry :=
  fold_right insert_by_start [] l.

Definition sort_entries (t : SubtitleTrack) : SubtitleTrack :=
  mkTrack (sort_by_start (entries_ t)).

(** The entries of the vector before the final sort. *)
Definition ass_scan (content : list ascii) : list SubtitleEntry :=
  ass_entries (fold_left ass_line (getlines content) ass_init).

Definition ass_parse (content : list ascii) : list SubtitleEntry :=
  sort_by_start (ass_scan content).

Definition load_ass (file : option (list ascii)) (t : SubtitleTrack)
  : bool * SubtitleTrack :=
  match file with
  | None => (false, t)
  | Some content =>
      let es := ass_parse content in
      (negb (is_empty es), mkTrack es)
  end.

(** *** Discovery of the external file *)

Inductive Ext : Type := ext_srt | ext_ass | ext_ssa.

(** The siblings of the media file: [None] when the path does not exist,
    otherwise what opening it gives. *)
Definition Siblings : Type := Ext -> option (option (list ascii)).

Fixpoint load_file_from (exts : list Ext) (fs : Siblings) (t : SubtitleTrack)
  : bool * SubtitleTrack :=
  match exts with
  | [] => (false, t)
  | ext :: rest =>
      match fs ext with
      | None => load_file_from rest fs t
      | Some file =>
          let '(ok, t') := match ext with
                           | ext_srt => load_srt file t
                           | _ => load_ass file t
                           end in
          if ok then (true, t') else load_file_from rest fs t'
      end
  end.

Definition load_file (fs : Siblings) (t : SubtitleTrack) : bool * SubtitleTrack :=
  load_file_from [ext_srt; ext_ass; ext_ssa] fs t.

(** *** Live insertion and lookup *)

Definition add_ffmpeg_entry (start end_ : float) (raw_text : list ascii)
  (t : SubtitleTrack) : SubtitleTrack :=
  let text := clean_text raw_text in
  if is_empty text then t
  else
    let entry := mkEntry start end_ text in
    let it := Algo.lower_bound (entries_ t) entry start_lt in
    mkTrack (Algo.insert_at (entries_ t) it entry).

Definition get_active (t : SubtitleTrack) (time_sec : float) : list ascii :=
  if is_empty (entries_ t) then empty_str_
  else
    let it := Algo.upper_bound (entries_ t) time_sec
                (fun t e => t <? start e) in
    if negb (Nat.eqb it 0) then
      match nth_error (entries_ t) (it - 1) with
      | Some e => if (start e <=? time_sec) && (time_sec <? end_ e)
                  then text e else empty_str_
      | None => empty_str_
      end
    else empty_str_.

(** *** Notions used to state the properties *)

(** A vector sorted by [start] ascending: every start is a number and is
    at most every later start. *)
Fixpoint sorted_by_start (l : list SubtitleEntry) : bool :=
  match l with
  | [] => true
  | a :: r => (start a =? start a)
              && forallb (fun b => start a <=? start b) r
              && sorted_by_start r
  end.

(** An entry that carries text. *)
Definition has_text (e : SubtitleEntry) : Prop := text e <> [].

(** Every entry is displayed for a non-empty interval. *)
Definition valid_entries (l : list SubtitleEntry) : bool :=
  forallb (fun e => start e <? end_ e) l.

(** The last entry, in vector order, whose start is at most [t]. *)
Fixpoint last_started (t : float) (l : list SubtitleEntry) : option SubtitleEntry :=
  match l with
  | [] => None
  | e :: r => match last_started t r with
              | Some e' => Some e'
              | None => if start e <=? t then Some e else None
              end
  end.

Section BracketSpec.

Variables opening closing : ascii.

(** The rest of the string after the block that an opening bracket just
    read starts, [d] further blocks being open inside it; [None] when the
    block is never closed. *)
Fixpoint skip_block (d : nat) (s : list ascii) : option (list ascii) :=
  match s with
  | [] => None
  | c :: r =>
      if Ascii.eqb c opening then skip_block (S d) r
      else if Ascii.eqb c closing then
             match d with
             | 0 => Some r
             | S d' => skip_block d' r
             end
      else skip_block d r
  end.

(** Removal of the bracketed blocks, [n] bounding the number of steps:
    outside a block a character is kept and a closing bracket is
    ignored; an opening bracket drops its whole block, or the rest of the
    string when the block is never closed. *)
Fixpoint strip_blocks (n : nat) (s : list ascii) : list ascii :=
  match n with
  | 0 => []
  | S n' =>
      match s with
      | [] => []
      | c :: r =>
          if Ascii.eqb c opening then
            match skip_block 0 r with
            | Some rest => strip_blocks n' rest
            | None => []
            end
          else if Ascii.eqb c closing then strip_blocks n' r
          else c :: strip_blocks n' r
      end
  end.

Definition strip_bracket_codes (s : list ascii) : list ascii :=
  strip_blocks (length s) s.

End BracketSpec.

(** A line that the SRT loop takes for a sequence number: not empty and
    made of digits only, once the byte order mark and the carriage return
    are removed. *)
Definition is_sequence_line (line0 : list ascii) : bool :=
  let line := trim_cr (strip_bom line0) in
  negb (is_empty line) && forallb isdigit line.

(** The number a digit sequence denotes, most significant digit first. *)
Fixpoint decimal (ds : list ascii) : Z :=
  match ds with
  | [] => 0
  | d :: ds' => (Z.of_nat (nat_of_ascii d) - 48) * 10 ^ Z.of_nat (length ds')
                + decimal ds'
  end%Z.

(** A field of a timecode: a non-empty digit sequence whose value fits an
    [int]. *)
Definition is_time_field (ds : list ascii) : bool :=
  negb (is_empty ds) && forallb isdigit ds && (decimal ds <=? Int.INT_MAX)%Z.

(** A text that does not go on with a digit. *)
Definition no_digit_ahead (s : list ascii) : bool :=
  match s with
  | [] => true
  | c :: _ => negb (isdigit c)
  end.

(** The entries stored so far plus the one in progress, in the SRT loop. *)
Definition srt_pending (st : SrtState) : nat :=
  length (srt_entries st) + (if in_entry st then 1 else 0).

(** A line that the ASS loop can take for a dialogue line. *)
Definition is_dialogue_line (line0 : list ascii) : bool :=
  starts_with (str "Dialogue:") (trim_cr line0).

(** A line that can switch the ASS loop into the events section. *)
Definition is_events_header (line0 : list ascii) : bool :=
  is_some (find (str "[Events]") (trim_cr line0)).

End Subtitle.

(** ** The players ([media.h], [media.cpp]) *)

Module Media.

Import Subtitle.
Local Open Scope float_scope.

(** A reading of [std::chrono::steady_clock], in nanoseconds. *)
Definition time_point : Type := Z.

(** The part of the abstract base class that [get_progress] calls. *)
Class MediaPlayer (P : Type) : Type := {
  get_position : time_point -> P -> float;   (* may read the clock *)
  get_length : P -> float
}.

(** [MediaPlayer::get_progress]; the result is a [float]. *)
Definition get_progress {P : Type} `{MediaPlayer P} (now : time_point) (p : P)
  : float :=
  let len := get_length p in
  if 0 <? len then Double.static_cast_float (get_position now p / len) else 0.

(** *** VideoPlayer *)

Record VideoPlayer : Type := mkVideo {
  subtitle_ctx_ : bool;            (* the codec context is not null *)
  subtitle_stream_idx_ : Z;
  subtitle_track_ : SubtitleTrack;
  use_embedded_sub_ : bool;
  running_ : bool;
  paused_ : bool;
  ended_ : bool;
  seek_target_ : float;
  cur_pts_ : float;
  raw_duration_ : float
}.

(** The member initialisers of the class. *)
Definition video0 : VideoPlayer :=
  mkVideo false (-1) track0 false false false false (-1) 0 0.

Definition AV_TIME_BASE : float := 1000000.

Definition video_get_length (p : VideoPlayer) : float :=
  raw_duration_ p / AV_TIME_BASE.

#[export] Instance VideoPlayer_MediaPlayer : MediaPlayer VideoPlayer := {|
  get_position := fun _ p => cur_pts_ p;
  get_length := video_get_length
|}.

Definition set_track (p : VideoPlayer) (t : SubtitleTrack) : VideoPlayer :=
  mkVideo (subtitle_ctx_ p) (subtitle_stream_idx_ p) t (use_embedded_sub_ p)
          (running_ p) (paused_ p) (ended_ p) (seek_target_ p) (cur_pts_ p)
          (raw_duration_ p).

(** The subtitle block of the constructor.  [best_stream] is the result of
    [av_find_best_stream] for the subtitle type, negative when the
    container has none; the codec context is allocated (the allocation is
    taken to succeed) when it is found. *)
Definition open_subtitles (fs : Siblings) (best_stream : Z) (p : VideoPlayer)
  : VideoPlayer :=
  let '(external_loaded, t) := load_file fs (subtitle_track_ p) in
  if external_loaded then
    mkVideo (subtitle_ctx_ p) (subtitle_stream_idx_ p) t false
            (running_ p) (paused_ p) (ended_ p) (seek_target_ p) (cur_pts_ p)
            (raw_duration_ p)
  else
    mkVideo (if (best_stream <? 0)%Z then subtitle_ctx_ p else true)
            best_stream t
            (if (0 <=? best_stream)%Z then true else use_embedded_sub_ p)
            (running_ p) (paused_ p) (ended_ p) (seek_target_ p) (cur_pts_ p)
            (raw_duration_ p).

(** [VideoPlayer::seek]: [std::max(0.0, secs)] is [secs] when [0.0 < secs]
    and [0.0] otherwise. *)
Definition seek (secs : float) (p : VideoPlayer) : VideoPlayer :=
  mkVideo (subtitle_ctx_ p) (subtitle_stream_idx_ p) (subtitle_track_ p)
          (use_embedded_sub_ p) (running_ p) (paused_ p) false
          (if 0 <? secs then secs else 0) (cur_pts_ p) (raw_duration_ p).

Definition get_subtitle_text (p : VideoPlayer) : list ascii :=
  get_active (subtitle_track_ p) (cur_pts_ p).

(** The seek block at the top of an iteration of [decode_loop], as far as
    the player's own fields go: the demuxer seek, the codec flushes, the
    audio stream and the pacing clock [start_ns] are outside the model. *)
Definition service_seek (p : VideoPlayer) : VideoPlayer :=
  let seek_val := seek_target_ p in
  if 0 <=? seek_val then
    mkVideo (subtitle_ctx_ p) (subtitle_stream_idx_ p)
            (if use_embedded_sub_ p then clear (subtitle_track_ p)
             else subtitle_track_ p)
            (use_embedded_sub_ p) (running_ p) (paused_ p) (ended_ p)
            (-1) seek_val (raw_duration_ p)
  else p.

(** The embedded subtitle branch of [decode_loop] for a decoded packet of
    the subtitle stream: one live insertion per rectangle with text. *)
Definition on_subtitle_packet (start end_ : float) (rects : list (list ascii))
  (p : VideoPlayer) : VideoPlayer :=
  if use_embedded_sub_ p && subtitle_ctx_ p then
    set_track p
      (fold_left (fun t raw_text =>
                    if negb (is_empty raw_text)
                    then add_ffmpeg_entry start end_ raw_text t else t)
                 rects (subtitle_track_ p))
  else p.

(** *** ImagePlayer *)

Definition SDL_Texture : Type := nat.   (* a texture handle *)

Record ImagePlayer : Type := mkImage {
  current_anim_ : option (list Z);      (* the [delays] array, when not null *)
  anim_frames_ : list SDL_Texture;
  is_animated_ : bool;
  img_paused_ : bool;
  img_ended_ : bool;
  anim_frame_idx_ : Z;
  anim_elapsed_ms_ : Z;
  anim_total_ms_ : Z;
  display_sec_ : float;                 (* a [float] *)
  start_time_ : time_point;
  last_frame_time_ : time_point
}.

(** [duration_cast<duration<double>>(now - start_time_).count()]. *)
Definition image_get_position (now : time_point) (p : ImagePlayer) : float :=
  Double.of_int (now - start_time_ p) / 1000000000.

#[export] Instance ImagePlayer_MediaPlayer : MediaPlayer ImagePlayer := {|
  get_position := image_get_position;
  get_length := display_sec_
|}.

(** The delay of frame [i]: [100] when the animation is null or the stored
    delay is not positive. *)
Definition frame_delay (p : ImagePlayer) (i : nat) : Z :=
  match current_anim_ p with
  | Some delays => let d := nth i delays 0%Z in
                   if (0 <? d)%Z then d else 100%Z
  | None => 100%Z
  end.

(** The accumulation loop [for (i = 0; i < anim_frame_idx_; ++i) acc += d]. *)
Fixpoint sum_delays (p : ImagePlayer) (i n : nat) (acc : Z) : Z :=
  match n with
  | 0 => acc
  | S n' => sum_delays p (S i) n' (Int.add acc (frame_delay p i))
  end.

(** [ImagePlayer::seek_frames], with the clock reading it stores. *)
Definition seek_frames (now : time_point) (delta : Z) (p : ImagePlayer)
  : ImagePlayer :=
  if negb (is_animated_ p) || is_empty (anim_frames_ p) then p
  else
    let count := Int.wrap (Z.of_nat (length (anim_frames_ p))) in
    let idx := Int.rem (Int.add (Int.rem (Int.add (anim_frame_idx_ p) delta) count)
                                count) count in
    let acc := sum_delays p 0 (Z.to_nat idx) 0 in
    mkImage (current_anim_ p) (anim_frames_ p) (is_animated_ p) (img_paused_ p)
            (img_ended_ p) idx acc (anim_total_ms_ p) (display_sec_ p)
            (start_time_ p) now.

(** [ImagePlayer::play]. *)
Definition image_play (now : time_point) (p : ImagePlayer) : ImagePlayer :=
  mkImage (current_anim_ p) (anim_frames_ p) (is_animated_ p) false false
          0 0 (anim_total_ms_ p) (display_sec_ p) now now.

(** [static_cast<int>(anim_frames_.size())]. *)
Definition frame_count (p : ImagePlayer) : Z :=
  Int.wrap (Z.of_nat (length (anim_frames_ p))).

(** What [ImagePlayer::get_texture] reads: a frame of the animation, the
    still image (the [image_texture_] member, outside the model), or, when
    the index is not a position of [anim_frames_], nothing defined. *)
Inductive TextureRead : Type :=
| Frame (t : SDL_Texture)
| StillImage
| OutOfBounds.

Definition get_texture (p : ImagePlayer) : TextureRead :=
  if is_animated_ p && negb (is_empty (anim_frames_ p)) then
    if (anim_frame_idx_ p <? 0)%Z then OutOfBounds
    else match nth_error (anim_frames_ p) (Z.to_nat (anim_frame_idx_ p)) with
         | Some t => Frame t
         | None => OutOfBounds
         end
  else StillImage.

(** [ImagePlayer::update]: the result and the new state.  The function
    reads the clock twice, [now] for the display time and [now'] for the
    frame timer.  [duration_cast<milliseconds>] divides the nanosecond
    count by [10^6], truncating. *)
Definition image_update (now now' : time_point) (p : ImagePlayer)
  : bool * ImagePlayer :=
  if img_ended_ p then (false, p)
  else
    let elapsed := image_get_position now p in
    if display_sec_ p <=? elapsed then
      (false,
       mkImage (current_anim_ p) (anim_frames_ p) (is_animated_ p)
               (img_paused_ p) true (anim_frame_idx_ p) (anim_elapsed_ms_ p)
               (anim_total_ms_ p) (display_sec_ p) (start_time_ p)
               (last_frame_time_ p))
    else if img_paused_ p then (true, p)
    else if is_animated_ p && negb (is_empty (anim_frames_ p)) then
      let elapsed_ms :=
        Int.wrap (Z.quot (now' - last_frame_time_ p) 1000000) in
      let cur_delay := frame_delay p (Z.to_nat (anim_frame_idx_ p)) in
      if (cur_delay <=? elapsed_ms)%Z then
        (true,
         mkImage (current_anim_ p) (anim_frames_ p) (is_animated_ p)
                 (img_paused_ p) (img_ended_ p)
                 (Int.rem (Int.add (anim_frame_idx_ p) 1) (frame_count p))
                 (anim_elapsed_ms_ p) (anim_total_ms_ p) (display_sec_ p)
                 (start_time_ p) now')
      else (true, p)
    else (true, p).

(** The loop of [ImagePlayer::seek]: the first frame [i] whose cumulated
    delay exceeds [target_ms], or the last frame; [n] iterations remain. *)
Fixpoint seek_scan (p : ImagePlayer) (target_ms : Z) (i n : nat) (acc : Z)
  : option nat :=
  match n with
  | 0 => None
  | S n' =>
      let d := frame_delay p i in
      if (target_ms <? Int.add acc d)%Z
         || (Z.of_nat i =? Int.add (frame_count p) (-1))%Z
      then Some i
      else seek_scan p target_ms (S i) n' (Int.add acc d)
  end.

(** [ImagePlayer::seek], with the clock reading it stores. *)
Definition image_seek (now : time_point) (secs : float) (p : ImagePlayer)
  : ImagePlayer :=
  if negb (is_animated_ p) || (anim_total_ms_ p <=? 0)%Z then p
  else
    let target_ms := Int.rem (Double.to_int (secs * 1000)) (anim_total_ms_ p) in
    let target_ms := if (target_ms <? 0)%Z then 0%Z else target_ms in
    match seek_scan p target_ms 0 (Z.to_nat (frame_count p)) 0 with
    | Some i =>
        mkImage (current_anim_ p) (anim_frames_ p) (is_animated_ p)
                (img_paused_ p) (img_ended_ p) (Z.of_nat i) target_ms
                (anim_total_ms_ p) (display_sec_ p) (start_time_ p) now
    | None => p
    end.

(** The frame index is a position of the frame list. *)
Definition frame_index_ok (p : ImagePlayer) : Prop :=
  (0 <= anim_frame_idx_ p < Z.of_nat (length (anim_frames_ p)))%Z.

(** [ImagePlayer::stop]. *)
Definition image_stop (p : ImagePlayer) : ImagePlayer :=
  mkImage (current_anim_ p) (anim_frames_ p) (is_animated_ p) (img_paused_ p)
          true (anim_frame_idx_ p) (anim_elapsed_ms_ p) (anim_total_ms_ p)
          (display_sec_ p) (start_time_ p) (last_frame_time_ p).

(** [ImagePlayer::toggle_pause]. *)
Definition image_toggle_pause (p : ImagePlayer) : ImagePlayer :=
  mkImage (current_anim_ p) (anim_frames_ p) (is_animated_ p)
          (negb (img_paused_ p)) (img_ended_ p) (anim_frame_idx_ p)
          (anim_elapsed_ms_ p) (anim_total_ms_ p) (display_sec_ p)
          (start_time_ p) (last_frame_time_ p).

(** A call of a member of [ImagePlayer] that writes to the object, with the
    clock readings the call makes. *)
Inductive ImageCall : Type :=
| CallPlay (now : time_point)
| CallStop
| CallUpdate (now now' : time_point)
| CallTogglePause
| CallSeek (now : time_point) (secs : float)
| CallSeekFrames (now : time_point) (delta : Z).

Definition image_call (c : ImageCall) (p : ImagePlayer) : ImagePlayer :=
  match c with
  | CallPlay now => image_play now p
  | CallStop => image_stop p
  | CallUpdate now now' => snd (image_update now now' p)
  | CallTogglePause => image_toggle_pause p
  | CallSeek now secs => image_seek now secs p
  | CallSeekFrames now delta => seek_frames now delta p
  end.

(** A sequence of calls on one object, first call first. *)
Definition image_calls (cs : list ImageCall) (p : ImagePlayer) : ImagePlayer :=
  fold_left (fun q c => image_call c q) cs p.

(** What every call keeps: the frame list, the animation flag, the delays
    and the total duration, and a frame index within the frame list. *)
Definition keeps (p q : ImagePlayer) : Prop :=
  anim_frames_ q = anim_frames_ p
  /\ is_animated_ q = is_animated_ p
  /\ current_anim_ q = current_anim_ p
  /\ anim_total_ms_ q = anim_total_ms_ p
  /\ (is_animated_ q = true -> anim_frames_ q <> [] -> frame_index_ok q).

End Media.

(** ** The playlist position of the main loop ([mp.cpp]) *)

Module Playlist.

Local Open Scope Z_scope.

(** Reduction to the range of a 64-bit [size_t]. *)
Definition size_t (z : Z) : Z := z mod 2 ^ 64.

(** [static_cast<size_t>((static_cast<long long>(current_idx) + n +
    advance) % n)] with [n] the [size_t] playlist size: the sum is formed
    in [size_t], the [int] [advance] being converted to it. *)
Definition step_index (current_idx n advance : Z) : Z :=
  size_t (size_t (current_idx + n) + size_t advance) mod n.

(** [(current_idx + 1) % playlist.size()] of the automatic advance. *)
Definition next_index (current_idx n : Z) : Z :=
  size_t (current_idx + 1) mod n.

End Playlist.

(** * Properties *)

(** ** Order facts on doubles *)

Module DoubleFacts.

Import Double.
Local Open Scope float_scope.

(** Case analysis over the specification-level comparison. *)
Ltac sf_cases :=
  repeat match goal with
  | s : bool |- _ => destruct s
  | |- context [Z.compare ?a ?b] => destruct (Z.compare_spec a b); subst
  | H : context [Z.compare ?a ?b] |- _ => destruct (Z.compare_spec a b); subst
  | |- context [Pos.compare_cont Eq ?a ?b] =>
      change (Pos.compare_cont Eq a b) with (Pos.compare a b);
      destruct (Pos.compare_spec a b); subst
  | H : context [Pos.compare_cont Eq ?a ?b] |- _ =>
      change (Pos.compare_cont Eq a b) with (Pos.compare a b) in H;
      destruct (Pos.compare_spec a b); subst
  end; simpl in *; try reflexivity; try discriminate; try lia.

Ltac sf_destruct3 a b c :=
  destruct a as [?|?| |? ? ?], b as [?|?| |? ? ?], c as [?|?| |? ? ?];
  simpl; intros; try discriminate; try reflexivity; sf_cases.

Ltac sf_destruct2 a b :=
  destruct a as [?|?| |? ? ?], b as [?|?| |? ? ?];
  simpl; intros; try discriminate; try reflexivity; sf_cases.

Lemma SF_lt_le_trans a b c :
  SFltb a b = true -> SFleb b c = true -> SFltb a c = true.
Proof. unfold SFltb, SFleb. sf_destruct3 a b c. Qed.

Lemma SF_le_lt_trans a b c :
  SFleb a b = true -> SFltb b c = true -> SFltb a c = true.
Proof. unfold SFltb, SFleb. sf_destruct3 a b c. Qed.

Lemma SF_le_trans a b c :
  SFleb a b = true -> SFleb b c = true -> SFleb a c = true.
Proof. unfold SFleb. sf_destruct3 a b c. Qed.

Lemma SF_lt_le a b : SFltb a b = true -> SFleb a b = true.
Proof. unfold SFltb, SFleb. sf_destruct2 a b. Qed.

Lemma SF_lt_not_ge a b : SFltb a b = true -> SFleb b a = false.
Proof. unfold SFltb, SFleb. sf_destruct2 a b. Qed.

Lemma SF_le_not_gt a b : SFleb a b = true -> SFltb b a = false.
Proof. unfold SFltb, SFleb. sf_destruct2 a b. Qed.

Lemma SF_total a b :
  SFeqb a a = true -> SFeqb b b = true -> SFltb a b = false -> SFleb b a = true.
Proof. unfold SFltb, SFleb, SFeqb. sf_destruct2 a b. Qed.

Lemma SF_le_total a b :
  SFeqb a a = true -> SFeqb b b = true -> SFleb a b = false -> SFltb b a = true.
Proof. unfold SFltb, SFleb, SFeqb. sf_destruct2 a b. Qed.

Lemma SF_le_number a b :
  SFleb a b = true -> SFeqb a a = true /\ SFeqb b b = true.
Proof. unfold SFleb, SFeqb. sf_destruct2 a b; split; sf_cases. Qed.

Lemma SF_le_refl a : SFeqb a a = true -> SFleb a a = true.
Proof. unfold SFleb, SFeqb. destruct a; simpl; intros; sf_cases. Qed.

(** The same facts on primitive floats, through the specification of the
    primitive comparisons. *)

Lemma lt_le_trans x y z :
  (x <? y) = true -> (y <=? z) = true -> (x <? z) = true.
Proof. rewrite !ltb_spec, leb_spec. apply SF_lt_le_trans. Qed.

Lemma le_lt_trans x y z :
  (x <=? y) = true -> (y <? z) = true -> (x <? z) = true.
Proof. rewrite !ltb_spec, leb_spec. apply SF_le_lt_trans. Qed.

Lemma le_trans x y z :
  (x <=? y) = true -> (y <=? z) = true -> (x <=? z) = true.
Proof. rewrite !leb_spec. apply SF_le_trans. Qed.

Lemma lt_le x y : (x <? y) = true -> (x <=? y) = true.
Proof. rewrite ltb_spec, leb_spec. apply SF_lt_le. Qed.

Lemma lt_not_ge x y : (x <? y) = true -> (y <=? x) = false.
Proof. rewrite ltb_spec, leb_spec. apply SF_lt_not_ge. Qed.

Lemma le_not_gt x y : (x <=? y) = true -> (y <? x) = false.
Proof. rewrite ltb_spec, leb_spec. apply SF_le_not_gt. Qed.

Lemma not_lt_ge x y :
  is_number x -> is_number y -> (x <? y) = false -> (y <=? x) = true.
Proof. unfold is_number. rewrite !eqb_spec, ltb_spec, leb_spec. apply SF_total. Qed.

Lemma not_le_gt x y :
  is_number x -> is_number y -> (x <=? y) = false -> (y <? x) = true.
Proof. unfold is_number. rewrite !eqb_spec, ltb_spec, leb_spec. apply SF_le_total. Qed.

Lemma le_number x y : (x <=? y) = true -> is_number x /\ is_number y.
Proof. unfold is_number. rewrite !eqb_spec, leb_spec. apply SF_le_number. Qed.

Lemma lt_number x y : (x <? y) = true -> is_number x /\ is_number y.
Proof. intros H. apply le_number, lt_le, H. Qed.

Lemma le_refl x : is_number x -> (x <=? x) = true.
Proof. unfold is_number. rewrite eqb_spec, leb_spec. apply SF_le_refl. Qed.

End DoubleFacts.

(** ** Facts on [int] arithmetic *)

Module IntFacts.

Import Int.
Local Open Scope Z_scope.

Lemma wrap_range z : in_range (wrap z).
Proof.
  unfold in_range, wrap, INT_MIN, INT_MAX.
  pose proof (Z.mod_pos_bound (z + 2 ^ 31) (2 ^ 32) ltac:(lia)). lia.
Qed.

Lemma wrap_small z : in_range z -> wrap z = z.
Proof.
  unfold in_range, wrap, INT_MIN, INT_MAX. intros H.
  rewrite Z.mod_small; lia.
Qed.

End IntFacts.

(** ** The binary search *)

Module AlgoFacts.
Import Algo.

Lemma partition_point_unfold {A : Type} (p : A -> bool) v first n :
  partition_point p v first (S n) =
  match nth_error v (first + S n / 2) with
  | Some x => if p x
              then partition_point p v (S (first + S n / 2)) (S n - S n / 2 - 1)
              else partition_point p v first (S n / 2)
  | None => first
  end.
Proof.
  simp partition_point.
  destruct (nth_error v (first + S n / 2)) as [x|]; simpl; [|reflexivity].
  destruct (p x); reflexivity.
Qed.

Lemma partition_point_split {A : Type} (p : A -> bool) len :
  forall pre a b post,
    length a + length b = len ->
    Forall (fun x => p x = true) a ->
    Forall (fun x => p x = false) b ->
    partition_point p (pre ++ a ++ b ++ post) (length pre) len
    = length pre + length a.
Proof.
  induction len as [len IH] using lt_wf_ind.
  intros pre a b post Hlen Ha Hb.
  destruct len as [|n].
  - simp partition_point. destruct a; simpl in *; [lia | discriminate].
  - rewrite partition_point_unfold.
    set (h := S n / 2).
    assert (Hh : h < S n) by (apply Nat.div_lt; lia).
    destruct (Nat.lt_ge_cases h (length a)) as [Hlt | Hge].
    + (* the probed element lies in [a] *)
      destruct (nth_error a h) as [x|] eqn:Hx;
        [| apply nth_error_None in Hx; lia].
      assert (Hv : nth_error (pre ++ a ++ b ++ post) (length pre + h) = Some x).
      { rewrite nth_error_app2 by lia.
        replace (length pre + h - length pre) with h by lia.
        rewrite nth_error_app1 by lia. exact Hx. }
      rewrite Hv.
      assert (Hpx : p x = true).
      { rewrite Forall_forall in Ha. apply Ha. eapply nth_error_In; eauto. }
      rewrite Hpx.
      pose proof (firstn_skipn (S h) a) as Hsplit.
      assert (Hl1 : length (firstn (S h) a) = S h) by (rewrite length_firstn; lia).
      assert (Hl2 : length (skipn (S h) a) = length a - S h) by apply length_skipn.
      replace (pre ++ a ++ b ++ post)
        with ((pre ++ firstn (S h) a) ++ skipn (S h) a ++ b ++ post)
        by (rewrite <- app_assoc, (app_assoc (firstn _ _)), Hsplit; reflexivity).
      replace (S (length pre + h)) with (length (pre ++ firstn (S h) a))
        by (rewrite length_app; lia).
      rewrite IH; try lia.
      * rewrite length_app. lia.
      * rewrite <- Hsplit in Ha. apply Forall_app in Ha. apply Ha.
      * exact Hb.
    + (* the probed element lies in [b] *)
      destruct (nth_error b (h - length a)) as [x|] eqn:Hx;
        [| apply nth_error_None in Hx; lia].
      assert (Hv : nth_error (pre ++ a ++ b ++ post) (length pre + h) = Some x).
      { rewrite nth_error_app2 by lia.
        replace (length pre + h - length pre) with h by lia.
        rewrite nth_error_app2 by lia.
        rewrite nth_error_app1 by (apply nth_error_Some; congruence). exact Hx. }
      rewrite Hv.
      assert (Hpx : p x = false).
      { rewrite Forall_forall in Hb. apply Hb. eapply nth_error_In; eauto. }
      rewrite Hpx.
      assert (Hk : h - length a < length b) by (apply nth_error_Some; congruence).
      pose proof (firstn_skipn (h - length a) b) as Hsplit.
      replace (pre ++ a ++ b ++ post)
        with (pre ++ a ++ firstn (h - length a) b
                  ++ (skipn (h - length a) b ++ post))
        by (rewrite (app_assoc (firstn _ _)), Hsplit; reflexivity).
      apply IH; try lia.
      * rewrite length_firstn. lia.
      * exact Ha.
      * rewrite <- Hsplit in Hb. apply Forall_app in Hb. apply Hb.
Qed.

Lemma prefix_len_split {A : Type} (p : A -> bool) l :
  Forall (fun x => p x = true) (firstn (prefix_len p l) l)
  /\ prefix_len p l <= length l.
Proof.
  induction l as [|x r [IH1 IH2]]; simpl.
  - split; [constructor | lia].
  - destruct (p x) eqn:Hp; simpl.
    + split; [constructor; assumption | lia].
    + split; [constructor | lia].
Qed.

(** On a partitioned vector the binary search returns the length of the
    prefix that satisfies [p]. *)
Lemma partition_point_prefix_len {A : Type} (p : A -> bool) l :
  partitioned p l -> partition_point p l 0 (length l) = prefix_len p l.
Proof.
  intros Hpart.
  destruct (prefix_len_split p l) as [Ha Hle].
  pose proof (@partition_point_split A p _ [] (firstn (prefix_len p l) l)
                (skipn (prefix_len p l) l) [] eq_refl Ha Hpart) as H.
  simpl in H. rewrite app_nil_r, firstn_skipn in H.
  rewrite length_firstn, length_skipn in H.
  replace (Nat.min (prefix_len p l) (length l) + (length l - prefix_len p l))
    with (length l) in H by lia.
  rewrite H. lia.
Qed.

End AlgoFacts.

(** ** Lookup and live insertion on a sorted track *)

Module TrackFacts.

Import Str Algo Subtitle Double DoubleFacts AlgoFacts.
Local Open Scope float_scope.

Lemma sorted_cons a r :
  sorted_by_start (a :: r) = true <->
  is_number (start a)
  /\ (forall x, In x r -> (start a <=? start x) = true)
  /\ sorted_by_start r = true.
Proof.
  simpl. rewrite !andb_true_iff, forallb_forall. unfold is_number. tauto.
Qed.

Lemma sorted_numbers l x :
  sorted_by_start l = true -> In x l -> is_number (start x).
Proof.
  induction l as [|a r IH]; [contradiction|].
  rewrite sorted_cons. intros (Ha & _ & Hr) [<- | Hin]; auto.
Qed.

(** The predicate of [upper_bound] in [get_active] is partitioned on a
    sorted vector, for every query time. *)
Lemma upper_partitioned l t :
  sorted_by_start l = true ->
  partitioned (fun e => negb (t <? start e)) l.
Proof.
  unfold partitioned. induction l as [|a r IH]; intros Hs.
  - constructor.
  - apply sorted_cons in Hs. destruct Hs as (Ha & Hle & Hr).
    simpl. destruct (t <? start a) eqn:Hlt; simpl.
    + constructor; [rewrite Hlt; reflexivity|].
      apply Forall_forall. intros x Hx.
      rewrite (lt_le_trans _ _ _ Hlt (Hle x Hx)). reflexivity.
    + apply IH, Hr.
Qed.

(** The predicate of [lower_bound] in [add_ffmpeg_entry] likewise. *)
Lemma lower_partitioned l s :
  sorted_by_start l = true ->
  partitioned (fun x => start x <? s) l.
Proof.
  unfold partitioned. induction l as [|a r IH]; intros Hs.
  - constructor.
  - apply sorted_cons in Hs. destruct Hs as (Ha & Hle & Hr).
    simpl. destruct (start a <? s) eqn:Hlt; simpl.
    + apply IH, Hr.
    + constructor; [exact Hlt|].
      apply Forall_forall. intros x Hx.
      destruct (start x <? s) eqn:Hxs; [|reflexivity].
      rewrite (le_lt_trans _ _ _ (Hle x Hx) Hxs) in Hlt. discriminate.
Qed.

Lemma last_started_none t l :
  last_started t l = None <-> (forall x, In x l -> (start x <=? t) = false).
Proof.
  induction l as [|a r IH]; simpl.
  - split; [intros _ x [] | reflexivity].
  - destruct (last_started t r) as [e|] eqn:Hr.
    + split; [discriminate|]. intros H.
      destruct IH as [_ IH]. discriminate IH. intros x Hx. apply H. auto.
    + destruct IH as [IH _]. specialize (IH eq_refl).
      destruct (start a <=? t) eqn:Ha.
      * split; [discriminate|]. intros H. rewrite (H a) in Ha by auto. discriminate.
      * split; [|reflexivity]. intros _ x [<- | Hx]; auto.
Qed.

Lemma last_started_last t l1 e l2 :
  (start e <=? t) = true ->
  Forall (fun x => (start x <=? t) = false) l2 ->
  last_started t (l1 ++ e :: l2) = Some e.
Proof.
  intros He Hl2. induction l1 as [|a l1 IH]; simpl.
  - assert (H : last_started t l2 = None).
    { apply last_started_none. apply Forall_forall, Hl2. }
    rewrite H, He. reflexivity.
  - rewrite IH. reflexivity.
Qed.

Lemma last_started_greatest t l e :
  sorted_by_start l = true ->
  last_started t l = Some e ->
  In e l /\ (start e <=? t) = true
  /\ (forall x, In x l -> (start x <=? t) = true -> (start x <=? start e) = true).
Proof.
  induction l as [|a r IH]; simpl; [discriminate|].
  intros Hs. apply sorted_cons in Hs. destruct Hs as (Ha & Hle & Hr).
  destruct (last_started t r) as [e'|] eqn:Hlast.
  - intros [= <-]. destruct (IH Hr eq_refl) as (Hin & Het & Hmax).
    repeat split; auto.
    intros x [<- | Hx] Hxt; auto.
  - destruct (start a <=? t) eqn:Hat; [|discriminate].
    intros [= <-]. repeat split; auto.
    intros x [<- | Hx] Hxt; [apply le_refl, Ha|].
    rewrite (proj1 (last_started_none t r) Hlast x Hx) in Hxt. discriminate.
Qed.

(** The entry [get_active] inspects: the last of the prefix found by the
    search. *)
Lemma upper_bound_prefix l t :
  sorted_by_start l = true ->
  upper_bound l t (fun t e => t <? start e)
  = prefix_len (fun e => negb (t <? start e)) l.
Proof.
  intros Hs. unfold upper_bound.
  apply partition_point_prefix_len, upper_partitioned, Hs.
Qed.

Lemma probed_entry l t :
  sorted_by_start l = true ->
  valid_entries l = true ->
  let k := prefix_len (fun e => negb (t <? start e)) l in
  match k with
  | 0 => last_started t l = None
  | S k' =>
      exists e, nth_error l k' = Some e /\ In e l /\ (t <? start e) = false
                /\ ((start e <=? t) = true /\ last_started t l = Some e
                    \/ (start e <=? t) = false /\ last_started t l = None)
  end.
Proof.
  induction l as [|a r IH]; intros Hs Hv; simpl.
  - reflexivity.
  - apply sorted_cons in Hs. destruct Hs as (Ha & Hle & Hr).
    simpl in Hv. apply andb_true_iff in Hv. destruct Hv as [Hva Hvr].
    specialize (IH Hr Hvr). simpl in IH.
    destruct (t <? start a) eqn:Hlt; simpl.
    + (* every start exceeds [t] *)
      assert (Hnone : last_started t r = None).
      { apply last_started_none. intros x Hx.
        apply lt_not_ge. exact (lt_le_trans _ _ _ Hlt (Hle x Hx)). }
      rewrite Hnone, (lt_not_ge _ _ Hlt). reflexivity.
    + destruct (prefix_len (fun e => negb (t <? start e)) r) as [|k'].
      * rewrite IH. exists a. simpl. repeat split; auto.
        destruct (start a <=? t); auto.
      * destruct IH as (e & Hnth & Hin & Hte & Hcase).
        exists e. simpl. repeat split; auto.
        destruct Hcase as [[Het Hl] | [Het Hl]]; rewrite Hl; [left; auto|].
        right. split; [exact Het|].
        (* [t] is not a number, so no start is at most [t] *)
        destruct (start a <=? t) eqn:Hat; [|reflexivity].
        exfalso. apply le_number in Hat. destruct Hat as [_ Ht].
        assert (Hne : is_number (start e)).
        { unfold valid_entries in Hvr. rewrite forallb_forall in Hvr.
          apply (lt_number _ _ (Hvr e Hin)). }
        rewrite (not_lt_ge _ _ Ht Hne Hte) in Het. discriminate.
Qed.

Lemma prefix_len_le {A : Type} (p : A -> bool) l : prefix_len p l <= length l.
Proof. apply prefix_len_split. Qed.

(** [get_active] in terms of the last entry started at [t]. *)
Lemma get_active_last_started l t :
  sorted_by_start l = true ->
  valid_entries l = true ->
  get_active (mkTrack l) t =
  match last_started t l with
  | Some e => if t <? end_ e then text e else []
  | None => []
  end.
Proof.
  intros Hs Hv. unfold get_active, empty_str_. simpl entries_.
  destruct l as [|a r]; [reflexivity|].
  change (is_empty (a :: r)) with false. cbv iota.
  rewrite (upper_bound_prefix _ t Hs).
  pose proof (@probed_entry _ t Hs Hv) as H. cbv zeta in H.
  destruct (prefix_len (fun e => negb (t <? start e)) (a :: r)) as [|k'].
  - rewrite H. reflexivity.
  - destruct H as (e & Hnth & _ & _ & Hcase).
    change (negb (Nat.eqb (S k') 0)) with true. cbv iota.
    replace (S k' - 1)%nat with k' by lia. rewrite Hnth.
    destruct Hcase as [[Het Hl] | [Het Hl]]; rewrite Het, Hl; reflexivity.
Qed.


Lemma In_firstn {A : Type} (x : A) n l : In x (firstn n l) -> In x l.
Proof.
  intros H. rewrite <- (firstn_skipn n l). apply in_or_app. left. exact H.
Qed.

Lemma In_skipn {A : Type} (x : A) n l : In x (skipn n l) -> In x l.
Proof.
  intros H. rewrite <- (firstn_skipn n l). apply in_or_app. right. exact H.
Qed.

Lemma lower_bound_prefix l entry :
  sorted_by_start l = true ->
  lower_bound l entry start_lt = prefix_len (fun x => start x <? start entry) l.
Proof.
  intros Hs. unfold lower_bound, start_lt.
  apply partition_point_prefix_len, lower_partitioned, Hs.
Qed.

(** Insertion at the position the search finds keeps the vector sorted. *)
Lemma insert_at_sorted l entry :
  sorted_by_start l = true ->
  is_number (start entry) ->
  sorted_by_start
    (insert_at l (prefix_len (fun x => start x <? start entry) l) entry) = true.
Proof.
  unfold insert_at. intros Hs Hn. induction l as [|a r IH]; simpl.
  - unfold is_number in Hn. rewrite Hn. reflexivity.
  - pose proof Hs as Hs'. apply sorted_cons in Hs'. destruct Hs' as (Ha & Hle & Hr).
    destruct (start a <? start entry) eqn:Hlt; simpl firstn; simpl skipn.
    + change ((a :: firstn _ r) ++ entry :: skipn _ r)
        with (a :: (firstn (prefix_len (fun x => start x <? start entry) r) r
                    ++ entry :: skipn (prefix_len (fun x => start x <? start entry) r) r)).
      apply sorted_cons. repeat split; auto.
      intros x Hx. apply in_app_or in Hx. destruct Hx as [Hx | [<- | Hx]].
      * apply Hle. eapply In_firstn; eauto.
      * apply lt_le, Hlt.
      * apply Hle. eapply In_skipn; eauto.
    + change ([] ++ entry :: a :: r) with (entry :: a :: r).
      apply sorted_cons. repeat split; auto.
      assert (Hea : (start entry <=? start a) = true)
        by (apply not_lt_ge; auto).
      intros x [<- | Hx]; [exact Hea|].
      exact (le_trans _ _ _ Hea (Hle x Hx)).
Qed.

(** What the insertion position separates. *)
Lemma insert_position l s :
  sorted_by_start l = true ->
  is_number s ->
  let k := prefix_len (fun x => start x <? s) l in
  Forall (fun x => (start x <? s) = true) (firstn k l)
  /\ Forall (fun x => (s <=? start x) = true) (skipn k l).
Proof.
  intros Hs Hn k. split.
  - apply (prefix_len_split (fun x => start x <? s) l).
  - pose proof (lower_partitioned l s Hs) as Hp. unfold partitioned in Hp.
    fold k in Hp. rewrite Forall_forall in *. intros x Hx.
    apply not_lt_ge; auto.
    apply (sorted_numbers l); auto. eapply In_skipn; eauto.
Qed.

Lemma add_ffmpeg_entry_entries s e raw l :
  clean_text raw <> [] ->
  sorted_by_start l = true ->
  entries_ (add_ffmpeg_entry s e raw (mkTrack l))
  = insert_at l (prefix_len (fun x => start x <? s) l) (mkEntry s e (clean_text raw)).
Proof.
  intros Hne Hs. unfold add_ffmpeg_entry.
  destruct (clean_text raw) as [|c r] eqn:Hc; [contradiction|].
  change (is_empty (c :: r)) with false. cbv iota. simpl entries_.
  rewrite lower_bound_prefix by exact Hs. reflexivity.
Qed.

(** C1. On a track sorted by start whose entries all have start < end:
    when [e] is the last entry whose start is at most [t] (every entry
    after it starts later than [t]), [e] has the greatest start among the
    entries started at [t] and [get_active] returns the text of [e] when
    [t < end], the empty string otherwise; the same holds for an entry
    [e] that is the only one with the greatest start at most [t]; when no
    entry has a start at
    most [t] the result is the empty string.  For a track holding the
    single valid entry [e0] the result is the text of [e0] for every [t]
    in [[start, end)] and empty at [t = end].  The lookup is a [const]
    method: its model yields the text only, the track is an argument that
    it cannot change. *)
Theorem get_active_correct (l : list SubtitleEntry) (t : float)
  (e0 : SubtitleEntry) :
  sorted_by_start l = true ->
  valid_entries l = true ->
  (start e0 <? end_ e0) = true ->
  (forall e l1 l2,
      l = l1 ++ e :: l2 ->
      (start e <=? t) = true ->
      Forall (fun x => (start x <=? t) = false) l2 ->
      (forall x, In x l -> (start x <=? t) = true ->
                 (start x <=? start e) = true)
      /\ get_active (mkTrack l) t = if t <? end_ e then text e else [])
  /\ (forall e,
        In e l -> (start e <=? t) = true ->
        (forall x, In x l -> (start x <=? t) = true ->
                   x = e \/ (start x <? start e) = true) ->
        get_active (mkTrack l) t = if t <? end_ e then text e else [])
  /\ ((forall x, In x l -> (start x <=? t) = false) ->
      get_active (mkTrack l) t = [])
  /\ ((start e0 <=? t) = true -> (t <? end_ e0) = true ->
      get_active (mkTrack [e0]) t = text e0)
  /\ get_active (mkTrack [e0]) (end_ e0) = [].
Proof.
  intros Hs Hv H0.
  assert (Hs0 : sorted_by_start [e0] = true).
  { simpl. destruct (lt_number _ _ H0) as [Hn _]. unfold is_number in Hn.
    rewrite Hn. reflexivity. }
  assert (Hv0 : valid_entries [e0] = true) by (simpl; rewrite H0; reflexivity).
  split; [|split; [|split; [|split]]].
  - intros e l1 l2 -> He Hl2.
    pose proof (last_started_last t l1 e l2 He Hl2) as Hl. split.
    + apply (last_started_greatest t _ e Hs Hl).
    + rewrite (get_active_last_started _ t Hs Hv), Hl. reflexivity.
  - intros e Hin He Hmax.
    rewrite (get_active_last_started _ t Hs Hv).
    destruct (last_started t l) as [e'|] eqn:Hl.
    + destruct (last_started_greatest t l e' Hs Hl) as (Hin' & He' & Hgr).
      destruct (Hmax e' Hin' He') as [-> | Hlt]; [reflexivity|].
      pose proof (Hgr e Hin He) as Hc.
      rewrite (lt_not_ge _ _ Hlt) in Hc. discriminate.
    + rewrite (proj1 (last_started_none t l) Hl e Hin) in He. discriminate.
  - intros Hnone. rewrite (get_active_last_started _ t Hs Hv).
    apply last_started_none in Hnone. rewrite Hnone. reflexivity.
  - intros Hle Hlt. rewrite (get_active_last_started _ t Hs0 Hv0).
    simpl. rewrite Hle, Hlt. reflexivity.
  - rewrite (get_active_last_started _ (end_ e0) Hs0 Hv0). simpl.
    destruct (start e0 <=? end_ e0); [|reflexivity].
    destruct (end_ e0 <? end_ e0) eqn:Hee; [|reflexivity].
    pose proof (lt_le _ _ Hee) as Hc. rewrite (lt_not_ge _ _ Hee) in Hc.
    discriminate.
Qed.

Lemma get_active_correct_witness :
  let a := mkEntry 1 4 (str "Hello") in
  let b := mkEntry 5 7 (str "World") in
  sorted_by_start [a; b] = true
  /\ valid_entries [a; b] = true
  /\ (start a <? end_ a) = true
  /\ get_active (mkTrack [a; b]) 6 = str "World"
  /\ get_active (mkTrack [a]) 2 = str "Hello"
  /\ get_active (mkTrack [a]) 4 = [].
Proof.
  intros a b.
  destruct (get_active_correct [a; b] 6 a eq_refl eq_refl eq_refl)
    as (H1 & _ & _ & _ & H4).
  destruct (get_active_correct [a; b] 2 a eq_refl eq_refl eq_refl)
    as (_ & _ & _ & H3 & _).
  split; [reflexivity|]. split; [reflexivity|]. split; [reflexivity|].
  split; [exact (proj2 (H1 b [a] [] eq_refl eq_refl (Forall_nil _)))|].
  split; [exact (H3 eq_refl eq_refl) | exact H4].
Defined.

(** C2. On a track sorted by start, [add_ffmpeg_entry] with a start that
    is a number and a text that does not clean to empty inserts exactly
    one entry: the vector becomes [l1 ++ entry :: l2] where [l1 ++ l2] is
    the old vector, every entry of [l1] starts before the new one and none
    of [l2] does, and it is sorted by start again.  Inserting entries that
    start at 5, 2 and 8, in that order, into the empty track leaves them
    ordered 2, 5, 8, and [get_active 6] then returns the text of the entry
    that starts at 5 (its end lying after 6). *)
Theorem add_ffmpeg_entry_sorted (l : list SubtitleEntry) (s e : float)
  (raw : list ascii) (e5 e2 e8 : float) (r5 r2 r8 : list ascii) :
  sorted_by_start l = true ->
  is_number s ->
  clean_text raw <> [] ->
  clean_text r5 <> [] -> clean_text r2 <> [] -> clean_text r8 <> [] ->
  (6 <? e5) = true ->
  (let l' := entries_ (add_ffmpeg_entry s e raw (mkTrack l)) in
   sorted_by_start l' = true
   /\ exists l1 l2,
       l = l1 ++ l2
       /\ l' = l1 ++ mkEntry s e (clean_text raw) :: l2
       /\ Forall (fun x => (start x <? s) = true) l1
       /\ Forall (fun x => (s <=? start x) = true) l2)
  /\ (let t := add_ffmpeg_entry 8 e8 r8
                (add_ffmpeg_entry 2 e2 r2
                   (add_ffmpeg_entry 5 e5 r5 track0)) in
      entries_ t = [mkEntry 2 e2 (clean_text r2); mkEntry 5 e5 (clean_text r5);
                    mkEntry 8 e8 (clean_text r8)]
      /\ get_active t 6 = clean_text r5).
Proof.
  intros Hs Hn Hraw H5 H2 H8 He5. split.
  - cbv zeta. rewrite (add_ffmpeg_entry_entries s e raw l Hraw Hs). split.
    + apply (insert_at_sorted l (mkEntry s e (clean_text raw)) Hs Hn).
    + destruct (insert_position l s Hs Hn) as [Hl1 Hl2].
      exists (firstn (prefix_len (fun x => start x <? s) l) l),
             (skipn (prefix_len (fun x => start x <? s) l) l).
      repeat split; auto. symmetry. apply firstn_skipn.
  - cbv zeta. unfold add_ffmpeg_entry, track0.
    destruct (clean_text r5) as [|c5 t5]; [contradiction|].
    destruct (clean_text r2) as [|c2 t2]; [contradiction|].
    destruct (clean_text r8) as [|c8 t8]; [contradiction|].
    split; [vm_compute; reflexivity|].
    vm_compute. vm_compute in He5. rewrite He5. reflexivity.
Qed.

Lemma add_ffmpeg_entry_sorted_witness :
  let l := [mkEntry 1 4 (str "one"); mkEntry 5 7 (str "five")] in
  sorted_by_start l = true
  /\ is_number 3
  /\ entries_ (add_ffmpeg_entry 3 4 (str "<b>three</b>") (mkTrack l))
     = [mkEntry 1 4 (str "one"); mkEntry 3 4 (str "three"); mkEntry 5 7 (str "five")]
  /\ sorted_by_start
       (entries_ (add_ffmpeg_entry 3 4 (str "<b>three</b>") (mkTrack l))) = true
  /\ get_active (add_ffmpeg_entry 8 9 (str "eight")
                  (add_ffmpeg_entry 2 3 (str "two")
                     (add_ffmpeg_entry 5 7 (str "five") track0))) 6 = str "five".
Proof.
  intros l.
  destruct (add_ffmpeg_entry_sorted l 3 4 (str "<b>three</b>") 7 3 9
              (str "five") (str "two") (str "eight")
              eq_refl eq_refl
              ltac:(vm_compute; discriminate) ltac:(vm_compute; discriminate)
              ltac:(vm_compute; discriminate) ltac:(vm_compute; discriminate)
              eq_refl) as [[Hsorted _] [_ Hact]].
  split; [reflexivity|]. split; [reflexivity|]. split; [reflexivity|].
  split; [exact Hsorted | exact Hact].
Defined.

End TrackFacts.

(** ** The text cleaner *)

Module CleanFacts.

Import Str Subtitle.
Local Open Scope char_scope.

Section Brackets.

Variables opening closing : ascii.

Let plain (c : ascii) : Prop :=
  Ascii.eqb c opening = false /\ Ascii.eqb c closing = false.

Lemma strip_loop_plain depth s :
  Forall plain (strip_loop opening closing depth s).
Proof.
  revert depth. induction s as [|c r IH]; intros depth; simpl.
  - constructor.
  - destruct (Ascii.eqb c opening) eqn:Ho; [apply IH|].
    destruct (Ascii.eqb c closing) eqn:Hc; [apply IH|].
    destruct (depth =? 0)%Z; [|apply IH].
    constructor; [split; assumption | apply IH].
Qed.

Lemma strip_loop_Forall (P : ascii -> Prop) depth s :
  Forall P s -> Forall P (strip_loop opening closing depth s).
Proof.
  revert depth. induction s as [|c r IH]; intros depth Hs; simpl.
  - constructor.
  - inversion Hs as [|? ? Hc Hr]; subst.
    destruct (Ascii.eqb c opening); [apply IH, Hr|].
    destruct (Ascii.eqb c closing); [apply IH, Hr|].
    destruct (depth =? 0)%Z; [|apply IH, Hr].
    constructor; [exact Hc | apply IH, Hr].
Qed.

Lemma strip_loop_id s :
  Forall plain s -> strip_loop opening closing 0 s = s.
Proof.
  induction 1 as [|c r [Ho Hc] _ IH]; simpl; [reflexivity|].
  rewrite Ho, Hc, IH. reflexivity.
Qed.

Lemma depth_after_bounds depth s :
  (0 <= depth)%Z ->
  (0 <= depth_after opening closing depth s <= depth + Z.of_nat (length s))%Z.
Proof.
  revert depth. induction s as [|c r IH]; intros depth Hd; simpl length; simpl depth_after.
  - lia.
  - destruct (Ascii.eqb c opening).
    + specialize (IH (depth + 1)%Z). lia.
    + destruct (Ascii.eqb c closing).
      * destruct (0 <? depth)%Z eqn:Hpos.
        -- specialize (IH (depth - 1)%Z). apply Z.ltb_lt in Hpos. lia.
        -- specialize (IH depth). lia.
      * specialize (IH depth). lia.
Qed.

(** Inside a block the loop emits nothing until the block is closed. *)
Lemma strip_loop_inside d r :
  strip_loop opening closing (Z.of_nat (S d)) r =
  match skip_block opening closing d r with
  | Some rest => strip_loop opening closing 0 rest
  | None => []
  end.
Proof.
  revert d. induction r as [|c r IH]; intros d; [reflexivity|].
  cbn [strip_loop skip_block].
  destruct (Ascii.eqb c opening).
  - rewrite <- IH. f_equal. lia.
  - destruct (Ascii.eqb c closing).
    + replace (0 <? Z.of_nat (S d))%Z with true by (symmetry; apply Z.ltb_lt; lia).
      destruct d as [|d'].
      * reflexivity.
      * rewrite <- IH. f_equal. lia.
    + replace (Z.of_nat (S d) =? 0)%Z with false by (symmetry; apply Z.eqb_neq; lia).
      apply IH.
Qed.

Lemma skip_block_length d r rest :
  skip_block opening closing d r = Some rest -> length rest < length r.
Proof.
  revert d. induction r as [|c r IH]; intros d; simpl; [discriminate|].
  destruct (Ascii.eqb c opening).
  - intros H. apply IH in H. lia.
  - destruct (Ascii.eqb c closing).
    + destruct d as [|d'].
      * intros [= <-]. lia.
      * intros H. apply IH in H. lia.
    + intros H. apply IH in H. lia.
Qed.

Lemma strip_blocks_loop n s :
  length s <= n ->
  strip_blocks opening closing n s = strip_loop opening closing 0 s.
Proof.
  revert s. induction n as [|n IH]; intros s Hlen.
  - destruct s; [reflexivity | simpl in Hlen; lia].
  - destruct s as [|c r]; [reflexivity|].
    simpl in Hlen. cbn [strip_blocks strip_loop].
    destruct (Ascii.eqb c opening).
    + change (0 + 1)%Z with (Z.of_nat 1). rewrite strip_loop_inside.
      destruct (skip_block opening closing 0 r) as [rest|] eqn:Hskip; [|reflexivity].
      apply IH. apply skip_block_length in Hskip. lia.
    + destruct (Ascii.eqb c closing).
      * change (0 <? 0)%Z with false. cbv iota. apply IH. lia.
      * change (0 =? 0)%Z with true. cbv iota. f_equal. apply IH. lia.
Qed.

Lemma strip_tags_refines s :
  strip_tags opening closing s = strip_bracket_codes opening closing s.
Proof.
  unfold strip_tags, strip_bracket_codes. symmetry.
  apply strip_blocks_loop. lia.
Qed.

Lemma strip_loop_app depth a b :
  strip_loop opening closing depth (a ++ b)
  = strip_loop opening closing depth a
    ++ strip_loop opening closing (depth_after opening closing depth a) b.
Proof.
  revert depth. induction a as [|c r IH]; intros depth; simpl; [reflexivity|].
  destruct (Ascii.eqb c opening); [apply IH|].
  destruct (Ascii.eqb c closing); [apply IH|].
  destruct (depth =? 0)%Z; [|apply IH].
  simpl. f_equal. apply IH.
Qed.

End Brackets.

(** *** The escape loop *)

Lemma unescape_head d r :
  exists rest, unescape (d :: r) = d :: rest \/ unescape (d :: r) = LF :: rest.
Proof.
  destruct r as [|d' r']; simpl.
  - exists []. left. reflexivity.
  - destruct (Ascii.eqb d "\" && (Ascii.eqb d' "N" || Ascii.eqb d' "n")).
    + eexists. right. reflexivity.
    + eexists. left. reflexivity.
Qed.

Lemma no_escape_cons c d r :
  no_escape (c :: d :: r)
  = negb (Ascii.eqb c "\" && (Ascii.eqb d "N" || Ascii.eqb d "n"))
    && no_escape (d :: r).
Proof. reflexivity. Qed.

Lemma unescape_cons c d r :
  unescape (c :: d :: r)
  = if Ascii.eqb c "\" && (Ascii.eqb d "N" || Ascii.eqb d "n")
    then LF :: unescape r else c :: unescape (d :: r).
Proof. reflexivity. Qed.

Lemma unescape_no_escape_pair r :
  no_escape (unescape r) = true
  /\ forall c, no_escape (unescape (c :: r)) = true.
Proof.
  induction r as [|d r [IH1 IH2]].
  - split; [reflexivity | intros c; reflexivity].
  - split; [apply IH2|]. intros c.
    rewrite unescape_cons.
    destruct (Ascii.eqb c "\" && (Ascii.eqb d "N" || Ascii.eqb d "n")) eqn:Hesc.
    + (* an escape: the line feed starts no escape *)
      destruct (unescape r) as [|x rest] eqn:Hu; [reflexivity|].
      rewrite no_escape_cons, IH1. reflexivity.
    + (* [c] is kept; what follows it is [d] or a line feed *)
      specialize (IH2 d).
      destruct (unescape_head d r) as [rest [Hd | Hd]]; rewrite Hd in *;
        rewrite no_escape_cons, IH2.
      * rewrite Hesc. reflexivity.
      * rewrite andb_true_r. change (Ascii.eqb LF "N" || Ascii.eqb LF "n") with false.
        rewrite andb_false_r. reflexivity.
Qed.

Lemma unescape_no_escape r : no_escape (unescape r) = true.
Proof. apply unescape_no_escape_pair. Qed.

Lemma unescape_id r : no_escape r = true -> unescape r = r.
Proof.
  induction r as [|c r IH]; [reflexivity|].
  destruct r as [|d r']; [reflexivity|].
  rewrite no_escape_cons. intros H. apply andb_true_iff in H. destruct H as [H1 H2].
  rewrite unescape_cons. apply negb_true_iff in H1. rewrite H1. f_equal. apply IH, H2.
Qed.

Lemma unescape_Forall_pair (P : ascii -> Prop) r :
  P LF -> Forall P r ->
  Forall P (unescape r) /\ forall c, P c -> Forall P (unescape (c :: r)).
Proof.
  intros HLF. induction r as [|d r IH]; intros Hr.
  - split; [constructor | intros c Hc; repeat constructor; exact Hc].
  - inversion Hr as [|? ? Hd Hr']; subst. destruct (IH Hr') as [IH1 IH2].
    split; [apply IH2, Hd|]. intros c Hc. rewrite unescape_cons.
    destruct (Ascii.eqb c "\" && (Ascii.eqb d "N" || Ascii.eqb d "n")).
    + constructor; assumption.
    + constructor; [exact Hc | apply IH2, Hd].
Qed.

Lemma unescape_Forall (P : ascii -> Prop) r :
  P LF -> Forall P r -> Forall P (unescape r).
Proof. intros HLF Hr. apply (unescape_Forall_pair P r HLF Hr). Qed.

(** *** Trimming *)

Section Trim.

Variable set : list ascii.

Lemma drop_trailing_head s d r :
  drop_trailing set s = d :: r -> exists r1, s = d :: r1.
Proof.
  destruct s as [|c s']; simpl; [discriminate|].
  destruct (drop_trailing set s'); [destruct (char_in c set)|];
    intros [= <- <-]; eexists; reflexivity.
Qed.

(** [find_last_not_of] locates the end of what [drop_trailing] keeps. *)
Lemma find_last_drop_trailing s :
  match find_last_not_of set s with
  | Some l => firstn (S l) s = drop_trailing set s /\ drop_trailing set s <> []
  | None => drop_trailing set s = []
  end.
Proof.
  induction s as [|c r IH]; [reflexivity|].
  cbn [find_last_not_of drop_trailing].
  destruct (find_last_not_of set r) as [l|].
  - destruct IH as [IH Hne]. rewrite <- IH in *.
    destruct (firstn (S l) r) eqn:Hf; [contradiction|].
    split; [|discriminate]. rewrite firstn_cons, Hf. reflexivity.
  - rewrite IH. destruct (char_in c set); [reflexivity|].
    split; [reflexivity | discriminate].
Qed.

Lemma find_first_none s :
  find_first_not_of set s = None -> find_last_not_of set s = None.
Proof.
  induction s as [|c r IH]; [reflexivity|]. simpl.
  destruct (char_in c set); [|discriminate].
  destruct (find_first_not_of set r); [discriminate|].
  intros _. rewrite IH; reflexivity.
Qed.

Lemma find_first_some s f :
  find_first_not_of set s = Some f -> exists l, find_last_not_of set s = Some l.
Proof.
  revert f. induction s as [|c r IH]; intros f; simpl; [discriminate|].
  destruct (char_in c set).
  - destruct (find_first_not_of set r) as [f'|]; [|discriminate].
    intros _. destruct (IH f' eq_refl) as [l ->]. eexists; reflexivity.
  - intros _. destruct (find_last_not_of set r); eexists; reflexivity.
Qed.

Lemma drop_trailing_keeps c r :
  char_in c set = false -> exists r', drop_trailing set (c :: r) = c :: r'.
Proof.
  intros Hc. cbn [drop_trailing].
  destruct (drop_trailing set r); [rewrite Hc|]; eexists; reflexivity.
Qed.

(** Trimming drops the leading and the trailing characters of the set. *)
Lemma trim_drop s : trim set s = drop_leading set (drop_trailing set s).
Proof.
  unfold trim, substr, substr_from.
  induction s as [|c r IH]; [reflexivity|].
  destruct (char_in c set) eqn:Hc.
  - pose proof (find_last_drop_trailing r) as Hr.
    cbn [find_first_not_of find_last_not_of drop_trailing]. rewrite Hc.
    destruct (find_first_not_of set r) as [f|] eqn:Hf; cbn [option_map].
    + destruct (find_first_some r f Hf) as [l Hl]. rewrite Hl in *.
      destruct Hr as [Hr Hne].
      destruct (drop_trailing set r) as [|d r'] eqn:Hd; [contradiction|].
      cbn [drop_leading]. rewrite Hc.
      replace (S l - S f + 1) with (l - f + 1) by lia.
      cbn [skipn]. exact IH.
    + rewrite (find_first_none r Hf) in *. rewrite Hr. reflexivity.
  - pose proof (find_last_drop_trailing (c :: r)) as Hlast.
    destruct (drop_trailing_keeps c r Hc) as [r' Hkeep].
    cbn [find_first_not_of]. rewrite Hc.
    destruct (find_last_not_of set (c :: r)) as [l|].
    + destruct Hlast as [Hlast _]. cbn [skipn].
      replace (l - 0 + 1) with (S l) by lia. rewrite Hlast, Hkeep.
      cbn [drop_leading]. rewrite Hc. reflexivity.
    + rewrite Hkeep in Hlast. discriminate.
Qed.

Lemma drop_leading_Forall (P : ascii -> Prop) s :
  Forall P s -> Forall P (drop_leading set s).
Proof.
  induction 1 as [|c r Hc Hr IH]; simpl; [constructor|].
  destruct (char_in c set); [exact IH | constructor; assumption].
Qed.

Lemma drop_trailing_Forall (P : ascii -> Prop) s :
  Forall P s -> Forall P (drop_trailing set s).
Proof.
  induction 1 as [|c r Hc Hr IH]; simpl; [constructor|].
  destruct (drop_trailing set r); [destruct (char_in c set)|];
    repeat (constructor; try assumption).
Qed.

Lemma no_escape_tail c r : no_escape (c :: r) = true -> no_escape r = true.
Proof.
  destruct r as [|d r']; [reflexivity|].
  rewrite no_escape_cons. intros H. apply andb_true_iff in H. apply H.
Qed.

Lemma drop_leading_no_escape s :
  no_escape s = true -> no_escape (drop_leading set s) = true.
Proof.
  induction s as [|c r IH]; [reflexivity|]. intros H. cbn [drop_leading].
  destruct (char_in c set); [|exact H].
  apply IH. eapply no_escape_tail, H.
Qed.

Lemma drop_trailing_no_escape s :
  no_escape s = true -> no_escape (drop_trailing set s) = true.
Proof.
  induction s as [|c r IH]; [reflexivity|]. intros H. cbn [drop_trailing].
  pose proof (IH (no_escape_tail c r H)) as IHr.
  destruct (drop_trailing set r) as [|d r'] eqn:Hd.
  - destruct (char_in c set); reflexivity.
  - destruct (drop_trailing_head r d r' Hd) as [r1 ->].
    rewrite no_escape_cons in *. apply andb_true_iff in H. destruct H as [H1 _].
    rewrite H1, IHr. reflexivity.
Qed.

Lemma drop_leading_idem s :
  drop_leading set (drop_leading set s) = drop_leading set s.
Proof.
  induction s as [|c r IH]; [reflexivity|]. cbn [drop_leading].
  destruct (char_in c set) eqn:Hc; [exact IH|].
  cbn [drop_leading]. rewrite Hc. reflexivity.
Qed.

Lemma drop_trailing_idem s :
  drop_trailing set (drop_trailing set s) = drop_trailing set s.
Proof.
  induction s as [|c r IH]; [reflexivity|]. cbn [drop_trailing].
  destruct (drop_trailing set r) as [|d r'] eqn:Hd.
  - destruct (char_in c set) eqn:Hc; [reflexivity|].
    cbn [drop_trailing]. rewrite Hc. reflexivity.
  - cbn [drop_trailing] in *. rewrite IH. reflexivity.
Qed.

(** A string that [drop_trailing] leaves alone has only suffixes that it
    leaves alone. *)
Lemma drop_trailing_fixed_tail c r :
  drop_trailing set (c :: r) = c :: r -> drop_trailing set r = r.
Proof.
  cbn [drop_trailing]. destruct (drop_trailing set r) as [|d r'].
  - destruct (char_in c set); [discriminate|]. intros [= <-]. reflexivity.
  - intros [= <-]. reflexivity.
Qed.

Lemma drop_trailing_fixed_leading s :
  drop_trailing set s = s ->
  drop_trailing set (drop_leading set s) = drop_leading set s.
Proof.
  induction s as [|c r IH]; [reflexivity|]. intros H. cbn [drop_leading].
  destruct (char_in c set); [|exact H].
  apply IH. eapply drop_trailing_fixed_tail, H.
Qed.

Lemma trim_idem s : trim set (trim set s) = trim set s.
Proof.
  rewrite !trim_drop.
  rewrite (drop_trailing_fixed_leading (drop_trailing set s) (drop_trailing_idem s)).
  apply drop_leading_idem.
Qed.

Lemma trim_Forall (P : ascii -> Prop) s : Forall P s -> Forall P (trim set s).
Proof.
  intros H. rewrite trim_drop. apply drop_leading_Forall, drop_trailing_Forall, H.
Qed.

Lemma trim_no_escape s : no_escape s = true -> no_escape (trim set s) = true.
Proof.
  intros H. rewrite trim_drop.
  apply drop_leading_no_escape, drop_trailing_no_escape, H.
Qed.

End Trim.

(** *** The cleaner as a whole *)

(** The cleaned text holds no bracket of either kind and no escape. *)
Lemma clean_text_shape s :
  Forall (fun c => Ascii.eqb c "<" = false /\ Ascii.eqb c ">" = false) (clean_text s)
  /\ Forall (fun c => Ascii.eqb c "{" = false /\ Ascii.eqb c "}" = false) (clean_text s)
  /\ no_escape (clean_text s) = true.
Proof.
  unfold clean_text, strip_ass_tags, strip_html_tags, strip_tags.
  repeat split.
  - apply trim_Forall, unescape_Forall; [split; reflexivity|].
    apply strip_loop_Forall, strip_loop_plain.
  - apply trim_Forall, unescape_Forall; [split; reflexivity|].
    apply strip_loop_plain.
  - apply trim_no_escape, unescape_no_escape.
Qed.

(** C6. [clean_text] is idempotent: cleaning a cleaned text changes
    nothing.  This holds for every string, hence for the strings made of
    the supported bracket and escape constructs. *)
Theorem clean_text_idempotent (s : list ascii) :
  clean_text (clean_text s) = clean_text s.
Proof.
  destruct (clean_text_shape s) as (Hhtml & Hass & Hesc).
  unfold clean_text at 1. unfold strip_ass_tags, strip_html_tags, strip_tags.
  rewrite (strip_loop_id "<" ">" _ Hhtml), (strip_loop_id "{" "}" _ Hass).
  rewrite (unescape_id _ Hesc).
  unfold clean_text. apply trim_idem.
Qed.

(** C7. For each of the two bracket pairs, on every string: the function
    computes the removal of the bracketed blocks ([strip_bracket_codes]:
    a character outside a block is kept, a closing bracket outside a block
    is ignored, an opening bracket drops its block, or the remainder of
    the string when the block is never closed); the depth counter is never
    negative and never exceeds the length of the string; no bracket is
    emitted; a character that is not a bracket is
    emitted exactly when the depth before it is zero; a closing bracket
    met at depth zero changes nothing; after an opening bracket at depth
    zero that is never closed nothing more is emitted. *)
Theorem strip_tags_correct (opening closing : ascii)
  (f : list ascii -> list ascii) (s : list ascii) :
  (opening = "{" /\ closing = "}" /\ f = strip_ass_tags)
  \/ (opening = "<" /\ closing = ">" /\ f = strip_html_tags) ->
  f s = strip_bracket_codes opening closing s
  /\ (forall k, (0 <= depth_after opening closing 0 (firstn k s)
                   <= Z.of_nat (length s))%Z)
  /\ Forall (fun c => c <> opening /\ c <> closing) (f s)
  /\ (forall a c b, s = a ++ c :: b -> c <> opening -> c <> closing ->
        f s = f a
              ++ (if (depth_after opening closing 0 a =? 0)%Z then [c] else [])
              ++ strip_loop opening closing (depth_after opening closing 0 a) b)
  /\ (forall a b, s = a ++ closing :: b ->
        depth_after opening closing 0 a = 0%Z -> f s = f (a ++ b))
  /\ (forall a b, s = a ++ opening :: b ->
        depth_after opening closing 0 a = 0%Z ->
        skip_block opening closing 0 b = None -> f s = f a).
Proof.
  intros Hpair.
  assert (Hf : f = strip_tags opening closing
               /\ Ascii.eqb closing opening = false).
  { destruct Hpair as [(-> & -> & ->) | (-> & -> & ->)]; split; reflexivity. }
  destruct Hf as [-> Hne]. clear Hpair. unfold strip_tags.
  split; [apply strip_tags_refines|].
  split.
  { intros k.
    pose proof (depth_after_bounds opening closing 0 (firstn k s) ltac:(lia)) as Hb.
    pose proof (length_firstn k s) as Hk. lia. }
  split.
  { eapply Forall_impl; [|apply strip_loop_plain].
    intros c [Ho Hc]. split; intros ->; rewrite Ascii.eqb_refl in *; discriminate. }
  split; [|split].
  - intros a c b -> Ho Hc. rewrite strip_loop_app. f_equal.
    cbn [strip_loop].
    apply Ascii.eqb_neq in Ho, Hc. rewrite Ho, Hc.
    destruct (depth_after opening closing 0 a =? 0)%Z; reflexivity.
  - intros a b -> Hd. rewrite !strip_loop_app, Hd. f_equal.
    cbn [strip_loop]. rewrite Hne, Ascii.eqb_refl. reflexivity.
  - intros a b -> Hd Hskip. rewrite strip_loop_app, Hd.
    cbn [strip_loop]. rewrite Ascii.eqb_refl.
    change (0 + 1)%Z with (Z.of_nat 1).
    rewrite strip_loop_inside, Hskip. apply app_nil_r.
Qed.

Lemma strip_tags_correct_witness :
  strip_ass_tags (str "a{b{c}d}e}f{g") = strip_bracket_codes "{" "}" (str "a{b{c}d}e}f{g")
  /\ strip_ass_tags (str "a{b{c}d}e}f{g") = str "aef"
  /\ strip_html_tags (str "<i>x</i>>y<b") = strip_html_tags (str "<i>x</i>" ++ str "y<b")
  /\ strip_html_tags (str "<i>x</i>y<b") = strip_html_tags (str "<i>x</i>y").
Proof.
  split; [apply (strip_tags_correct "{" "}" strip_ass_tags (str "a{b{c}d}e}f{g"));
          left; repeat split|].
  split; [reflexivity|].
  split.
  - apply (strip_tags_correct "<" ">" strip_html_tags (str "<i>x</i>>y<b"));
      [right; repeat split | reflexivity | reflexivity].
  - apply (strip_tags_correct "<" ">" strip_html_tags (str "<i>x</i>y<b"))
      with (b := str "b"); [right; repeat split | reflexivity | reflexivity | reflexivity].
Defined.

End CleanFacts.

(** ** The loaders *)

Module LoaderFacts.

Import Str Algo Subtitle Double.
Local Open Scope char_scope.

Lemma is_empty_false {A : Type} (l : list A) : is_empty l = false -> l <> [].
Proof. destruct l; [discriminate | discriminate]. Qed.

Lemma is_empty_true {A : Type} (l : list A) : is_empty l = true <-> l = [].
Proof. destruct l; split; try reflexivity; discriminate. Qed.

(** *** SRT *)

Lemma flush_entries st :
  srt_entries (flush st) = srt_entries st
  \/ exists e, has_text e /\ text e = clean_text (text_buf st)
               /\ srt_entries (flush st) = srt_entries st ++ [e].
Proof.
  unfold flush.
  destruct (in_entry st && negb (is_empty (text_buf st))); [|left; reflexivity].
  cbn [text srt_entries]. destruct (is_empty (clean_text (text_buf st))) eqn:He;
    cbn [negb].
  - left. reflexivity.
  - right.
    exists (mkEntry (start (cur st)) (end_ (cur st)) (clean_text (text_buf st))).
    split; [|split; reflexivity].
    unfold has_text. cbn [text]. apply is_empty_false, He.
Qed.

Lemma flush_has_text st :
  Forall has_text (srt_entries st) -> Forall has_text (srt_entries (flush st)).
Proof.
  intros H. destruct (flush_entries st) as [-> | (e & He & _ & ->)]; [exact H|].
  apply Forall_app. split; [exact H | repeat constructor; exact He].
Qed.

Lemma flush_drops_empty st :
  clean_text (text_buf st) = [] -> srt_entries (flush st) = srt_entries st.
Proof.
  intros Hc. destruct (flush_entries st) as [H | (e & He & Ht & _)]; [exact H|].
  unfold has_text in He. rewrite Ht, Hc in He. contradiction.
Qed.

Lemma srt_line_has_text st line :
  Forall has_text (srt_entries st) -> Forall has_text (srt_entries (srt_line st line)).
Proof.
  intros H. unfold srt_line.
  destruct (is_empty (trim_cr (strip_bom line))); [apply flush_has_text, H|].
  destruct (forallb isdigit (trim_cr (strip_bom line))); [apply flush_has_text, H|].
  destruct (find (str "-->") (trim_cr (strip_bom line))); [exact H|].
  destruct (in_entry st); exact H.
Qed.

Lemma srt_lines_has_text lines st :
  Forall has_text (srt_entries st) ->
  Forall has_text (srt_entries (fold_left srt_line lines st)).
Proof.
  revert st. induction lines as [|line lines IH]; intros st H; [exact H|].
  apply IH, srt_line_has_text, H.
Qed.

Lemma srt_parse_has_text content : Forall has_text (srt_parse content).
Proof.
  unfold srt_parse. apply flush_has_text, srt_lines_has_text. constructor.
Qed.

(** *** ASS *)

Lemma ass_dialogue_entries st line :
  ass_entries (ass_dialogue st line) = ass_entries st
  \/ exists e, has_text e
               /\ ass_entries (ass_dialogue st line) = ass_entries st ++ [e].
Proof.
  unfold ass_dialogue.
  destruct (_ <? _)%nat; [left; reflexivity|].
  destruct (_ <? 3)%nat; [left; reflexivity|].
  match goal with |- context [is_empty ?t] => destruct (is_empty t) eqn:He end;
    cbn [negb ass_entries].
  - left. reflexivity.
  - right. eexists. split; [|reflexivity].
    unfold has_text. cbn [text]. apply is_empty_false, He.
Qed.

Lemma ass_line_has_text st line :
  Forall has_text (ass_entries st) -> Forall has_text (ass_entries (ass_line st line)).
Proof.
  intros H. unfold ass_line.
  destruct (trim_cr line) as [|c0 r]; [exact H|].
  destruct (Ascii.eqb c0 ";" || Ascii.eqb c0 "!"); [exact H|].
  destruct (Ascii.eqb c0 "["); [exact H|].
  destruct (negb (in_events st)); [exact H|].
  destruct (starts_with (str "Format:") (c0 :: r)); [exact H|].
  destruct (negb (starts_with (str "Dialogue:") (c0 :: r))); [exact H|].
  destruct (ass_dialogue_entries st (c0 :: r)) as [-> | (e & He & ->)]; [exact H|].
  apply Forall_app. split; [exact H | repeat constructor; exact He].
Qed.

Lemma ass_lines_has_text lines st :
  Forall has_text (ass_entries st) ->
  Forall has_text (ass_entries (fold_left ass_line lines st)).
Proof.
  revert st. induction lines as [|line lines IH]; intros st H; [exact H|].
  apply IH, ass_line_has_text, H.
Qed.

Lemma insert_by_start_In x e l :
  In x (insert_by_start e l) -> x = e \/ In x l.
Proof.
  induction l as [|a r IH]; simpl.
  - intros [<- | []]. left. reflexivity.
  - destruct (start_lt e a); simpl.
    + intros [<- | H]; auto.
    + intros [<- | H]; auto. destruct (IH H); auto.
Qed.

Lemma sort_by_start_In x l : In x (sort_by_start l) -> In x l.
Proof.
  induction l as [|a r IH]; simpl; [auto|].
  intros H. apply insert_by_start_In in H. destruct H as [-> | H]; auto.
Qed.

Lemma ass_parse_has_text content : Forall has_text (ass_parse content).
Proof.
  apply Forall_forall. intros x Hx. apply sort_by_start_In in Hx.
  revert x Hx. apply Forall_forall.
  unfold ass_scan. apply ass_lines_has_text. constructor.
Qed.

(** *** Column splitting *)

Lemma find_char_column c col rest :
  find_char c col = None ->
  find_char c (col ++ c :: rest) = Some (length col).
Proof.
  induction col as [|d col IH]; simpl.
  - intros _. rewrite Ascii.eqb_refl. reflexivity.
  - destruct (Ascii.eqb d c); [discriminate|].
    destruct (find_char c col); [discriminate|].
    intros _. rewrite IH; reflexivity.
Qed.

Lemma skipn_prefix {A : Type} (pre l : list A) : skipn (length pre) (pre ++ l) = l.
Proof. induction pre; [reflexivity | assumption]. Qed.

Lemma firstn_prefix {A : Type} (pre l : list A) : firstn (length pre) (pre ++ l) = pre.
Proof. induction pre as [|a pre IH]; [reflexivity | simpl; rewrite IH; reflexivity]. Qed.

(** The splitting loop at position [length pre] of a line whose rest is a
    sequence of comma-free columns, each followed by a comma, and then the
    text. *)
Lemma split_fields_columns cols text pre :
  Forall (fun col => find_char "," col = None) cols ->
  split_fields (pre ++ concat (map (fun col => col ++ [","]) cols) ++ text)
               (length cols) (length pre)
  = cols ++ [text].
Proof.
  intros Hcols. revert pre.
  induction Hcols as [|col cols Hcol _ IH]; intros pre.
  - cbn [map concat length split_fields app]. unfold substr_from.
    rewrite skipn_prefix. reflexivity.
  - cbn [map concat length split_fields].
    unfold find_char_from, substr, substr_from.
    rewrite skipn_prefix, <- !app_assoc.
    cbn [app]. rewrite (find_char_column "," col _ Hcol). cbn [option_map].
    replace (length pre + length col - length pre) with (length col) by lia.
    rewrite firstn_prefix. cbn [app]. f_equal.
    specialize (IH (pre ++ col ++ [","])).
    rewrite <- !app_assoc in IH. cbn [app] in IH.
    replace (length pre + length col + 1) with (length (pre ++ col ++ [","]))
      by (rewrite !length_app; simpl; lia).
    exact IH.
Qed.

(** A dialogue line made of at least three comma-free columns and then
    the text, read with the text column index equal to the number of those
    columns. *)
Lemma ass_dialogue_columns st cols rest :
  text_col_idx st = length cols ->
  3 <= length cols ->
  Forall (fun col => find_char "," col = None) cols ->
  ass_dialogue st (str "Dialogue:"
                   ++ concat (map (fun col => col ++ [","]) cols) ++ rest)
  = if is_empty (clean_text rest) then st
    else mkAss (ass_entries st
                ++ [mkEntry (parse_ass_time (trim [" "; TAB] (nth 1 cols [])))
                            (parse_ass_time (trim [" "; TAB] (nth 2 cols [])))
                            (clean_text rest)])
               (in_events st) (text_col_idx st).
Proof.
  intros Hidx Hlen Hcols.
  pose proof (split_fields_columns cols rest [] Hcols) as Hsplit.
  cbn [app length] in Hsplit.
  assert (Hdata : substr_from (str "Dialogue:"
                               ++ concat (map (fun col => col ++ [","]) cols)
                               ++ rest) 9
                  = concat (map (fun col => col ++ [","]) cols) ++ rest)
    by reflexivity.
  unfold ass_dialogue. rewrite Hdata, Hidx, Hsplit.
  destruct cols as [|c0 [|c1 [|c2 cols']]]; simpl in Hlen; try lia.
  rewrite length_app.
  replace (length (c0 :: c1 :: c2 :: cols') + length [rest]
           <? length (c0 :: c1 :: c2 :: cols') + 1)%nat with false
    by (symmetry; apply Nat.ltb_irrefl).
  cbn [length app nth firstn skipn Nat.add Nat.ltb Nat.leb].
  rewrite nth_middle.
  destruct (is_empty (clean_text rest)); reflexivity.
Qed.

(** C3. The three ASS lines of the example load as the single entry
    [{1.0, 3.5, "Hi, there"}].  In general the splitting loop, run with a
    text column index equal to the number of comma-free columns that
    precede the text, returns those columns and then the whole remainder
    of the line as the text, whatever commas the remainder holds; and a
    dialogue line with at least three such columns stores the cleaned
    remainder as the text of its entry. *)
Theorem load_ass_comma_in_text (st : AssState) (cols : list (list ascii))
  (rest : list ascii) :
  Forall (fun col => find_char "," col = None) cols ->
  load_ass
    (Some (unlines
       [str "[Events]";
        str "Format: Layer,Start,End,Style,Name,MarginL,MarginR,MarginV,Effect,Text";
        str "Dialogue: 0,0:00:01.00,0:00:03.50,Default,,0,0,0,,Hi, there"]))
    track0
  = (true, mkTrack [mkEntry 1 3.5 (str "Hi, there")])
  /\ split_fields (concat (map (fun col => col ++ [","]) cols) ++ rest)
                  (length cols) 0
     = cols ++ [rest]
  /\ (text_col_idx st = length cols -> 3 <= length cols ->
      clean_text rest <> [] ->
      ass_entries
        (ass_dialogue st (str "Dialogue:"
                          ++ concat (map (fun col => col ++ [","]) cols) ++ rest))
      = ass_entries st
        ++ [mkEntry (parse_ass_time (trim [" "; TAB] (nth 1 cols [])))
                    (parse_ass_time (trim [" "; TAB] (nth 2 cols [])))
                    (clean_text rest)]).
Proof.
  intros Hcols. split; [vm_compute; reflexivity|].
  split; [exact (split_fields_columns cols rest [] Hcols)|].
  intros Hidx Hlen Hrest.
  rewrite (ass_dialogue_columns st cols rest Hidx Hlen Hcols).
  destruct (clean_text rest); [contradiction | reflexivity].
Qed.

Lemma load_ass_comma_in_text_witness :
  let cols := [str " 0"; str "0:00:01.00"; str "0:00:03.50"] in
  Forall (fun col => find_char "," col = None) cols
  /\ split_fields (str " 0,0:00:01.00,0:00:03.50,Hi, there, you") 3 0
     = cols ++ [str "Hi, there, you"]
  /\ ass_entries
       (ass_dialogue (mkAss [] true 3)
          (str "Dialogue: 0,0:00:01.00,0:00:03.50,Hi, there, you"))
     = [mkEntry 1 3.5 (str "Hi, there, you")].
Proof.
  intros cols.
  assert (H : Forall (fun col => find_char "," col = None) cols)
    by (repeat constructor).
  destruct (load_ass_comma_in_text (mkAss [] true 3) cols
              (str "Hi, there, you") H) as (_ & Hsplit & Hline).
  split; [exact H|]. split; [exact Hsplit|].
  exact (Hline eq_refl (le_n 3) ltac:(vm_compute; discriminate)).
Defined.

(** C4. The SRT stream holding the single block of the example loads as
    the single entry [{1.0, 4.0, "Hello"}], and [load_srt] returns [true]
    exactly when the stream could be opened and at least one entry was
    accepted from it; the accepted entries are then the contents of the
    track. *)
Theorem load_srt_single_block (file : option (list ascii)) (t : SubtitleTrack) :
  load_srt
    (Some (str "1" ++ [LF] ++ str "00:00:01,000 --> 00:00:04,000" ++ [LF]
           ++ str "Hello" ++ [LF; LF]))
    track0
  = (true, mkTrack [mkEntry 1 4 (str "Hello")])
  /\ (fst (load_srt file t) = true <->
      exists content, file = Some content
                      /\ 1 <= length (srt_parse content)
                      /\ entries_ (snd (load_srt file t)) = srt_parse content).
Proof.
  split; [vm_compute; reflexivity|].
  destruct file as [content|]; cbn [load_srt fst snd entries_].
  - destruct (srt_parse content) as [|e es] eqn:Hp; cbn [is_empty negb length].
    + split; [discriminate|]. intros (c & [= <-] & Hlen & _).
      rewrite Hp in Hlen. simpl in Hlen. lia.
    + split; [|reflexivity]. intros _. exists content.
      rewrite Hp. repeat split. simpl. lia.
  - split; [discriminate|]. intros (c & Hc & _). discriminate.
Qed.

Lemma load_srt_single_block_witness :
  fst (load_srt (Some (str "1" ++ [LF] ++ str "00:00:01,000 --> 00:00:04,000"
                       ++ [CR; LF] ++ str "<i>Hello</i>" ++ [CR; LF])) track0) = true
  /\ fst (load_srt (Some (str "1" ++ [LF] ++ str "{\an8}" ++ [LF])) track0) = false.
Proof.
  split.
  - apply (load_srt_single_block
             (Some (str "1" ++ [LF] ++ str "00:00:01,000 --> 00:00:04,000"
                    ++ [CR; LF] ++ str "<i>Hello</i>" ++ [CR; LF])) track0).
    eexists. split; [reflexivity|]. split; [vm_compute; lia | reflexivity].
  - reflexivity.
Defined.

(** C8. An entry whose text cleans to the empty string is never stored:
    [add_ffmpeg_entry] with such a text returns the track unchanged, the
    [flush] of the SRT loader and the dialogue step of the ASS loader leave
    the vector unchanged or append one entry that carries text, both leave
    it unchanged when the text cleans to empty, and every entry of a loaded
    SRT or ASS track carries text.  All these functions
    are total: there is no error path. *)
Theorem empty_text_never_stored (s e : float) (raw : list ascii)
  (t : SubtitleTrack) (st : SrtState) (ast : AssState)
  (line content : list ascii) (x : SubtitleEntry)
  (cols : list (list ascii)) (rest : list ascii) :
  (clean_text raw = [] -> add_ffmpeg_entry s e raw t = t)
  /\ (clean_text (text_buf st) = [] -> srt_entries (flush st) = srt_entries st)
  /\ (srt_entries (flush st) = srt_entries st
      \/ exists e', text e' = clean_text (text_buf st) /\ text e' <> []
                    /\ srt_entries (flush st) = srt_entries st ++ [e'])
  /\ (ass_entries (ass_dialogue ast line) = ass_entries ast
      \/ exists e', text e' <> []
                    /\ ass_entries (ass_dialogue ast line) = ass_entries ast ++ [e'])
  /\ (text_col_idx ast = length cols -> 3 <= length cols ->
      Forall (fun col => find_char "," col = None) cols ->
      clean_text rest = [] ->
      ass_dialogue ast (str "Dialogue:"
                        ++ concat (map (fun col => col ++ [","]) cols) ++ rest)
      = ast)
  /\ (In x (srt_parse content) -> text x <> [])
  /\ (In x (ass_parse content) -> text x <> []).
Proof.
  split; [|split; [|split; [|split; [|split; [|split]]]]].
  - intros Hc. unfold add_ffmpeg_entry. rewrite Hc. reflexivity.
  - apply flush_drops_empty.
  - destruct (flush_entries st) as [H | (e' & He & Ht & H)]; [left; exact H|].
    right. exists e'. auto.
  - apply ass_dialogue_entries.
  - intros Hidx Hlen Hcols Hrest.
    rewrite (ass_dialogue_columns ast cols rest Hidx Hlen Hcols), Hrest.
    reflexivity.
  - intros Hx. pose proof (srt_parse_has_text content) as H.
    rewrite Forall_forall in H. apply H, Hx.
  - intros Hx. pose proof (ass_parse_has_text content) as H.
    rewrite Forall_forall in H. apply H, Hx.
Qed.

Lemma empty_text_never_stored_witness :
  let t := mkTrack [mkEntry 1 4 (str "Hello")] in
  let st := mkSrt [] (mkEntry 1 4 []) (str "<i></i> {\an8}") true in
  clean_text (str "{\pos(1,2)} <b> </b>") = []
  /\ add_ffmpeg_entry 2 3 (str "{\pos(1,2)} <b> </b>") t = t
  /\ srt_entries (flush st) = []
  /\ srt_parse (str "1" ++ [LF] ++ str "00:00:01,000 --> 00:00:04,000" ++ [LF]
                ++ str "<i></i>" ++ [LF; LF]) = [].
Proof.
  intros t st.
  destruct (empty_text_never_stored 2 3 (str "{\pos(1,2)} <b> </b>") t st
              ass_init [] [] entry0 [] []) as (H1 & H2 & _).
  split; [reflexivity|]. split; [exact (H1 eq_refl)|].
  split; [exact (H2 eq_refl) | reflexivity].
Defined.

End LoaderFacts.

(** ** The players *)

Module MediaFacts.

Import Str Subtitle Media Double DoubleFacts.
Local Open Scope float_scope.

Lemma seek_is_pending secs p : (0 <=? seek_target_ (seek secs p)) = true.
Proof.
  unfold seek. cbn [seek_target_].
  destruct (0 <? secs) eqn:H; [apply lt_le, H | reflexivity].
Qed.

Lemma get_active_empty t : get_active (mkTrack []) t = [].
Proof. reflexivity. Qed.

(** C5. Servicing a pending seek clears the subtitle track exactly when
    the embedded stream is the subtitle source ([use_embedded_sub_]): the
    track is then empty and [get_active] yields the empty string for every
    time, until the next decoded subtitle packet inserts an entry again;
    otherwise the track, hence every lookup, is unchanged.  A request made
    through [seek] is always pending, and the constructor selects the
    embedded source only when no external file was loaded. *)
Theorem seek_clears_embedded_only (p : VideoPlayer) (secs t s e : float)
  (raw : list ascii) (fs : Siblings) (best : Z) :
  (0 <=? seek_target_ p) = true ->
  (use_embedded_sub_ p = true ->
     entries_ (subtitle_track_ (service_seek p)) = []
     /\ get_active (subtitle_track_ (service_seek p)) t = []
     /\ (subtitle_ctx_ p = true -> clean_text raw <> [] ->
         entries_ (subtitle_track_
                     (on_subtitle_packet s e [raw] (service_seek p)))
         = [mkEntry s e (clean_text raw)]))
  /\ (use_embedded_sub_ p = false ->
      subtitle_track_ (service_seek p) = subtitle_track_ p
      /\ get_active (subtitle_track_ (service_seek p)) t
         = get_active (subtitle_track_ p) t
      /\ on_subtitle_packet s e [raw] (service_seek p) = service_seek p)
  /\ use_embedded_sub_ (service_seek p) = use_embedded_sub_ p
  /\ cur_pts_ (service_seek p) = seek_target_ p
  /\ (0 <=? seek_target_ (service_seek p)) = false
  /\ (0 <=? seek_target_ (seek secs p)) = true
  /\ (fst (load_file fs (subtitle_track_ p)) = true ->
      use_embedded_sub_ (open_subtitles fs best p) = false)
  /\ (fst (load_file fs (subtitle_track_ p)) = false ->
      use_embedded_sub_ (open_subtitles fs best p)
      = if (0 <=? best)%Z then true else use_embedded_sub_ p).
Proof.
  intros Hpending. unfold service_seek. rewrite Hpending.
  cbn [subtitle_track_ use_embedded_sub_ cur_pts_ seek_target_].
  split; [|split; [|split; [|split; [|split; [|split; [|split]]]]]].
  - intros Hemb. rewrite Hemb. cbn [clear entries_].
    split; [reflexivity|]. split; [reflexivity|].
    intros Hctx Hraw. unfold on_subtitle_packet.
    cbn [use_embedded_sub_ subtitle_ctx_ subtitle_track_ set_track fold_left].
    rewrite Hctx. cbn [andb entries_].
    assert (Hne : is_empty raw = false).
    { destruct raw; [|reflexivity]. exfalso. apply Hraw. reflexivity. }
    rewrite Hne. cbn [negb]. unfold add_ffmpeg_entry.
    destruct (clean_text raw) as [|c r]; [contradiction|]. reflexivity.
  - intros Hemb. rewrite Hemb. split; [reflexivity|]. split; [reflexivity|].
    unfold on_subtitle_packet. cbn [use_embedded_sub_]. reflexivity.
  - reflexivity.
  - reflexivity.
  - reflexivity.
  - apply seek_is_pending.
  - intros Hload. unfold open_subtitles.
    destruct (load_file fs (subtitle_track_ p)) as [ok t']. cbn [fst] in Hload.
    rewrite Hload. reflexivity.
  - intros Hload. unfold open_subtitles.
    destruct (load_file fs (subtitle_track_ p)) as [ok t']. cbn [fst] in Hload.
    rewrite Hload. reflexivity.
Qed.

Lemma seek_clears_embedded_only_witness :
  let t := mkTrack [mkEntry 1 4 (str "Hello")] in
  let embedded := mkVideo true 2 t true true false false (-1) 2 0 in
  let external := mkVideo false (-1) t false true false false (-1) 2 0 in
  (0 <=? seek_target_ (seek 30 embedded)) = true
  /\ entries_ (subtitle_track_ (service_seek (seek 30 embedded))) = []
  /\ get_active (subtitle_track_ (service_seek (seek 30 embedded))) 2 = []
  /\ subtitle_track_ (service_seek (seek 30 external)) = t
  /\ get_active (subtitle_track_ (service_seek (seek 30 external))) 2 = str "Hello".
Proof.
  intros t embedded external.
  destruct (seek_clears_embedded_only (seek 30 embedded) 30 2 31 33
              (str "Hi") (fun _ => None) (-1) eq_refl) as (Hemb & _).
  destruct (seek_clears_embedded_only (seek 30 external) 30 2 31 33
              (str "Hi") (fun _ => None) (-1) eq_refl) as (_ & Hext & _).
  destruct (Hemb eq_refl) as (H1 & H2 & _).
  destruct (Hext eq_refl) as (H3 & H4 & _).
  split; [reflexivity|]. split; [exact H1|]. split; [exact H2|].
  split; [exact H3|]. rewrite H4. reflexivity.
Defined.

(** *** [get_progress] *)

Lemma float_neq_by_nan (x y : float) :
  PrimFloat.is_nan x = true -> PrimFloat.is_nan y = false -> x <> y.
Proof. intros Hx Hy ->. rewrite Hx in Hy. discriminate. Qed.

(** C9, as stated, fails for a length that is not a number.  An image
    player whose display time is NaN has a length that is not [<= 0.0],
    yet [get_progress] is [0.0f] and not the quotient (which is NaN). *)
Lemma get_progress_nan_length :
  let p := mkImage None [] false false false 0 0 0 nan 0%Z 0%Z in
  (get_length p <=? 0) = false
  /\ get_progress 1000000000%Z p = 0
  /\ get_progress 1000000000%Z p
     <> static_cast_float (get_position 1000000000%Z p / get_length p).
Proof.
  intros p. split; [reflexivity|]. split; [reflexivity|].
  intros H. symmetry in H. revert H.
  apply float_neq_by_nan; reflexivity.
Qed.

(** C9, amended. [get_progress] divides only by a length that is greater
    than zero: when [0.0 < get_length()] the result is the quotient of
    position and length converted to [float]; in every other case, a
    length that is [<= 0.0] or not a number, the result is exactly [0.0f].
    For a length that is a number the two cases are [length <= 0.0] and
    its negation. *)
Theorem get_progress_guarded (P : Type) (M : MediaPlayer P)
  (now : time_point) (p : P) :
  ((0 <? get_length p) = true ->
     get_progress now p = static_cast_float (get_position now p / get_length p))
  /\ ((0 <? get_length p) = false -> get_progress now p = 0)
  /\ ((get_length p <=? 0) = true -> get_progress now p = 0)
  /\ (is_number (get_length p) -> (get_length p <=? 0) = false ->
      (0 <? get_length p) = true
      /\ get_progress now p
         = static_cast_float (get_position now p / get_length p)).
Proof.
  unfold get_progress.
  split; [intros ->; reflexivity|].
  split; [intros ->; reflexivity|].
  split.
  - intros Hle. rewrite (le_not_gt _ _ Hle). reflexivity.
  - intros Hn Hle.
    assert (Hpos : (0 <? get_length p) = true)
      by (apply not_le_gt; [exact Hn | reflexivity | exact Hle]).
    rewrite Hpos. split; reflexivity.
Qed.

Lemma get_progress_guarded_witness :
  let p := mkVideo false (-1) track0 false true false false (-1) 30 120000000 in
  (0 <? get_length p) = true
  /\ get_progress 0%Z p = 0.25
  /\ get_progress 0%Z video0 = 0.
Proof.
  intros p.
  destruct (get_progress_guarded VideoPlayer VideoPlayer_MediaPlayer 0%Z p) as (H1 & _).
  destruct (get_progress_guarded VideoPlayer VideoPlayer_MediaPlayer 0%Z video0) as (_ & H2 & _).
  split; [reflexivity|]. split.
  - rewrite (H1 eq_refl). reflexivity.
  - exact (H2 eq_refl).
Defined.

(** *** [seek_frames] *)

Local Open Scope Z_scope.

Lemma rem_wrap a b :
  Int.in_range a -> 0 < b <= 2 ^ 30 -> Int.rem a b = Z.rem a b.
Proof.
  intros Ha Hb. unfold Int.rem. apply IntFacts.wrap_small.
  pose proof (Z.rem_bound_abs a b ltac:(lia)) as Hr.
  unfold Int.in_range, Int.INT_MIN, Int.INT_MAX in *. lia.
Qed.

(** The index expression of [seek_frames] on a frame count between [1] and
    [2^30]: no intermediate result leaves the [int] range, whatever the
    sum [idx + delta] wrapped to. *)
Lemma frame_index_range x count :
  Int.in_range x -> 0 < count <= 2 ^ 30 ->
  Int.rem (Int.add (Int.rem x count) count) count
  = Z.rem (Z.rem x count + count) count
  /\ 0 <= Z.rem (Z.rem x count + count) count < count
  /\ Z.rem (Z.rem x count + count) count = x mod count.
Proof.
  intros Hx Hc.
  pose proof (Z.rem_bound_abs x count ltac:(lia)) as Hr.
  assert (Hr1 : - count < Z.rem x count < count) by lia.
  rewrite (rem_wrap x count Hx) by lia.
  assert (Hsum : Int.add (Z.rem x count) count = Z.rem x count + count).
  { unfold Int.add. apply IntFacts.wrap_small.
    unfold Int.in_range, Int.INT_MIN, Int.INT_MAX. lia. }
  rewrite Hsum.
  assert (Hin : Int.in_range (Z.rem x count + count))
    by (unfold Int.in_range, Int.INT_MIN, Int.INT_MAX; lia).
  rewrite (rem_wrap _ count Hin) by lia.
  split; [reflexivity|].
  rewrite Z.rem_mod_nonneg by lia.
  split; [apply Z.mod_pos_bound; lia|].
  pose proof (Z.quot_rem' x count) as Hq.
  replace (Z.rem x count + count) with (x + (1 - x ÷ count) * count) by lia.
  apply Z.mod_add. lia.
Qed.

(** C10. On an animated player with a non-empty frame list (of at most
    [2^30] frames, so that the [int] arithmetic does not overflow) and for
    every [int] [delta], [seek_frames] leaves the frame index in
    [[0, count)]; when the sum [old_index + delta] is itself an [int] the
    new index is [((old_index + delta) % count + count) % count], which is
    the mathematical residue of [old_index + delta] modulo [count].  On a
    player that is not animated or has no frames the call changes
    nothing. *)
Theorem seek_frames_in_range (now : time_point) (delta : Z)
  (p q : ImagePlayer) :
  Int.in_range delta ->
  Int.in_range (anim_frame_idx_ p) ->
  is_animated_ p = true ->
  anim_frames_ p <> [] ->
  Z.of_nat (length (anim_frames_ p)) <= 2 ^ 30 ->
  is_animated_ q = false \/ anim_frames_ q = [] ->
  let count := Z.of_nat (length (anim_frames_ p)) in
  let idx' := anim_frame_idx_ (seek_frames now delta p) in
  0 <= idx' < count
  /\ (Int.in_range (anim_frame_idx_ p + delta) ->
      idx' = Z.rem (Z.rem (anim_frame_idx_ p + delta) count + count) count
      /\ idx' = (anim_frame_idx_ p + delta) mod count)
  /\ seek_frames now delta q = q.
Proof.
  intros Hdelta Hidx Hanim Hframes Hlen Hq count idx'.
  assert (Hcount : 0 < count <= 2 ^ 30).
  { unfold count. destruct (anim_frames_ p); [contradiction | simpl length in *; lia]. }
  assert (Hwrap : Int.wrap count = count).
  { apply IntFacts.wrap_small.
    unfold Int.in_range, Int.INT_MIN, Int.INT_MAX. lia. }
  assert (Hidx' : idx' = Int.rem (Int.add (Int.rem (Int.add (anim_frame_idx_ p) delta)
                                              count) count) count).
  { unfold idx', seek_frames. rewrite Hanim.
    destruct (anim_frames_ p) eqn:Hf; [contradiction|].
    cbn [negb orb is_empty anim_frame_idx_]. fold count. rewrite Hwrap. reflexivity. }
  pose proof (IntFacts.wrap_range (anim_frame_idx_ p + delta)) as Hx.
  destruct (frame_index_range (Int.add (anim_frame_idx_ p) delta) count Hx Hcount)
    as (Heq & Hrange & Hmod).
  split; [rewrite Hidx', Heq; exact Hrange|]. split.
  - intros Hsum. rewrite Hidx', Heq.
    unfold Int.add in *. rewrite (IntFacts.wrap_small _ Hsum) in *.
    split; [reflexivity | exact Hmod].
  - unfold seek_frames. destruct Hq as [-> | ->]; [reflexivity|].
    rewrite orb_true_r. reflexivity.
Qed.

Lemma seek_frames_in_range_witness :
  let p := mkImage (Some [40; 0; 40; 40; 40]) [1; 2; 3; 4; 5]%nat true
                   false false 1 40 220 5%float 0 0 in
  let q := mkImage None [] false false false 0 0 0 5%float 0 0 in
  Int.in_range (-13)
  /\ anim_frame_idx_ (seek_frames 7 (-13) p) = 3
  /\ anim_elapsed_ms_ (seek_frames 7 (-13) p) = 180
  /\ 0 <= anim_frame_idx_ (seek_frames 7 Int.INT_MAX p) < 5
  /\ seek_frames 7 (-13) q = q.
Proof.
  intros p q.
  assert (Hr : forall z, (Int.INT_MIN <=? z) && (z <=? Int.INT_MAX) = true ->
                         Int.in_range z).
  { intros z H. apply andb_true_iff in H. destruct H as [H1 H2].
    apply Z.leb_le in H1, H2. split; assumption. }
  assert (Hp : anim_frames_ p <> []) by discriminate.
  assert (Hlen : Z.of_nat (length (anim_frames_ p)) <= 2 ^ 30)
    by (apply Z.leb_le; reflexivity).
  destruct (seek_frames_in_range 7 (-13) p q (Hr (-13) eq_refl) (Hr 1 eq_refl)
              eq_refl Hp Hlen (or_introl eq_refl)) as (_ & Hsum & Hnoop).
  destruct (seek_frames_in_range 7 Int.INT_MAX p q (Hr Int.INT_MAX eq_refl)
              (Hr 1 eq_refl) eq_refl Hp Hlen (or_introl eq_refl)) as (Hmax & _).
  split; [exact (Hr (-13) eq_refl)|].
  split; [rewrite (proj2 (Hsum (Hr (1 + -13) eq_refl))); reflexivity|].
  split; [reflexivity|]. split; [exact Hmax | exact Hnoop].
Defined.

End MediaFacts.

(** ** Worked examples *)

Module Examples.

Import Str Algo Subtitle Media.
Local Open Scope float_scope.

Example parse_srt_time_ex : parse_srt_time (str "01:23:45,500") = 5025.5.
Proof. reflexivity. Qed.

Example parse_srt_time_malformed : parse_srt_time (str "12:xx") = 43200.
Proof. reflexivity. Qed.

Example parse_ass_time_ex : parse_ass_time (str "0:00:03.50") = 3.5.
Proof. reflexivity. Qed.

Example clean_text_ex :
  clean_text (str " <i>{\an8}Hello\Nworld</i>  ")
  = str "Hello" ++ [LF] ++ str "world".
Proof. reflexivity. Qed.

Example strip_ass_tags_ex : strip_ass_tags (str "a{b{c}d}e}f{g") = str "aef".
Proof. reflexivity. Qed.

Example getlines_ex :
  getlines (str "a" ++ [LF; LF] ++ str "b") = [str "a"; []; str "b"]
  /\ getlines (str "a" ++ [LF]) = [str "a"].
Proof. split; reflexivity. Qed.

Example lower_bound_ex : lower_bound [1; 3; 5; 7; 9]%nat 6%nat Nat.ltb = 3%nat.
Proof. reflexivity. Qed.

Example upper_bound_ex : upper_bound [1; 3; 5; 5; 9]%nat 5%nat Nat.ltb = 4%nat.
Proof. reflexivity. Qed.

Example load_srt_crlf_bom :
  load_srt (Some (["239"; "187"; "191"]%char ++ str "1" ++ [CR; LF]
                  ++ str "00:00:01,000 --> 00:00:04,000 X1:10" ++ [CR; LF]
                  ++ str "Hello" ++ [CR; LF] ++ str "there" ++ [CR; LF]))
           track0
  = (true, mkTrack [mkEntry 1 4 (str "Hello" ++ [LF] ++ str "there")]).
Proof. vm_compute. reflexivity. Qed.

Example load_ass_sorts :
  map start (ass_parse (unlines
    [str "[Events]";
     str "Dialogue: 0,0:00:05.00,0:00:06.00,Default,,0,0,0,,late";
     str "Dialogue: 0,0:00:01.00,0:00:02.00,Default,,0,0,0,,early"]))
  = [1; 5].
Proof. vm_compute. reflexivity. Qed.

Example static_cast_float_ex :
  Double.static_cast_float 0.25 = 0.25
  /\ Double.static_cast_float 16777217 = 16777216.
Proof. split; reflexivity. Qed.

End Examples.

(** ** More on the track: soundness of the lookup, insertion and lookup
    together, sorting *)

Module TrackMore.

Import Str Algo Subtitle Double DoubleFacts AlgoFacts TrackFacts.
Local Open Scope float_scope.

(** The search never leaves the range it is given, partitioned or not. *)
Lemma partition_point_bounds {A : Type} (p : A -> bool) v len :
  forall first,
    (first <= partition_point p v first len <= first + len)%nat.
Proof.
  induction len as [len IH] using lt_wf_ind. intros first.
  destruct len as [|n]; [simp partition_point; lia|].
  rewrite partition_point_unfold.
  assert (Hh : (S n / 2 < S n)%nat) by (apply Nat.div_lt; lia).
  destruct (nth_error v (first + S n / 2)) as [x|]; [|lia].
  destruct (p x).
  - pose proof (IH (S n - S n / 2 - 1)%nat ltac:(lia) (S (first + S n / 2))). lia.
  - pose proof (IH (S n / 2)%nat Hh first). lia.
Qed.

(** X1. Whatever the track holds, sorted or not, [get_active] returns the
    empty string or the text of an entry of the track whose interval
    [[start, end)] contains the queried time. *)
Theorem get_active_sound (t : SubtitleTrack) (time_sec : float) :
  get_active t time_sec = []
  \/ exists e, In e (entries_ t)
               /\ (start e <=? time_sec) = true
               /\ (time_sec <? end_ e) = true
               /\ get_active t time_sec = text e.
Proof.
  unfold get_active, empty_str_.
  destruct (is_empty (entries_ t)); [left; reflexivity|].
  destruct (negb _); [|left; reflexivity].
  destruct (nth_error (entries_ t) _) as [e|] eqn:Hnth; [|left; reflexivity].
  destruct (start e <=? time_sec) eqn:Hle; [|left; reflexivity].
  destruct (time_sec <? end_ e) eqn:Hlt; [|left; reflexivity].
  right. exists e. repeat split; auto. eapply nth_error_In, Hnth.
Qed.

Lemma last_started_app_none t l1 l2 :
  Forall (fun x => (start x <=? t) = false) l2 ->
  last_started t (l1 ++ l2) = last_started t l1.
Proof.
  intros H. induction l1 as [|a l1 IH]; simpl.
  - apply last_started_none. apply Forall_forall, H.
  - rewrite IH. reflexivity.
Qed.

Lemma valid_entries_insert l k entry :
  valid_entries l = true -> (start entry <? end_ entry) = true ->
  valid_entries (insert_at l k entry) = true.
Proof.
  unfold valid_entries, insert_at. rewrite !forallb_forall.
  intros Hl He x Hx. apply in_app_or in Hx.
  destruct Hx as [Hx | [<- | Hx]]; auto.
  - apply Hl. eapply In_firstn, Hx.
  - apply Hl. eapply In_skipn, Hx.
Qed.

(** X2. Insertion then lookup.  After [add_ffmpeg_entry] of a valid entry
    into a sorted track of valid entries, the lookup at a time of the new
    interval returns the new text, provided no older entry starts within
    [[start, t]]; and every lookup at a time before the new start is what
    it was before the insertion. *)
Theorem add_then_lookup (l : list SubtitleEntry) (s e t : float)
  (raw : list ascii) :
  sorted_by_start l = true ->
  valid_entries l = true ->
  (s <? e) = true ->
  clean_text raw <> [] ->
  ((s <=? t) = true -> (t <? e) = true ->
   (forall x, In x l -> (start x <? s) = true \/ (t <? start x) = true) ->
   get_active (add_ffmpeg_entry s e raw (mkTrack l)) t = clean_text raw)
  /\ ((t <? s) = true ->
      get_active (add_ffmpeg_entry s e raw (mkTrack l)) t
      = get_active (mkTrack l) t).
Proof.
  intros Hs Hv Hse Hraw.
  destruct (lt_number _ _ Hse) as [Hn _].
  set (new := mkEntry s e (clean_text raw)).
  set (k := prefix_len (fun x => start x <? s) l).
  assert (Hent : add_ffmpeg_entry s e raw (mkTrack l)
                 = mkTrack (insert_at l k new)).
  { pose proof (add_ffmpeg_entry_entries s e raw l Hraw Hs) as H.
    destruct (add_ffmpeg_entry s e raw (mkTrack l)) as [es]. simpl in H.
    rewrite H. reflexivity. }
  assert (Hs' : sorted_by_start (insert_at l k new) = true)
    by (apply (insert_at_sorted l new Hs Hn)).
  assert (Hv' : valid_entries (insert_at l k new) = true)
    by (apply valid_entries_insert; assumption).
  destruct (insert_position l s Hs Hn) as [Hl1 Hl2]. fold k in Hl1, Hl2.
  rewrite Hent, (get_active_last_started _ t Hs' Hv').
  split.
  - intros Hst Hte Hfree. unfold insert_at.
    rewrite (last_started_last t (firstn k l) new (skipn k l) Hst).
    + simpl. rewrite Hte. reflexivity.
    + rewrite Forall_forall in *. intros x Hx.
      destruct (Hfree x (In_skipn x k l Hx)) as [Hlt | Hlt].
      * pose proof (Hl2 x Hx) as Hc.
        rewrite (lt_not_ge _ _ Hlt) in Hc. discriminate.
      * apply lt_not_ge, Hlt.
  - intros Hts. rewrite (get_active_last_started _ t Hs Hv).
    assert (Hlater : Forall (fun x => (start x <=? t) = false) (skipn k l)).
    { rewrite Forall_forall in *. intros x Hx.
      apply lt_not_ge. exact (lt_le_trans _ _ _ Hts (Hl2 x Hx)). }
    unfold insert_at.
    rewrite (last_started_app_none t (firstn k l) (new :: skipn k l)).
    + pose proof (last_started_app_none t (firstn k l) (skipn k l) Hlater) as Hold.
      rewrite firstn_skipn in Hold. rewrite Hold. reflexivity.
    + constructor; [apply lt_not_ge, Hts | exact Hlater].
Qed.

Lemma add_then_lookup_witness :
  let l := [mkEntry 1 4 (str "one"); mkEntry 8 9 (str "eight")] in
  get_active (add_ffmpeg_entry 5 7 (str "<i>five</i>") (mkTrack l)) 6 = str "five"
  /\ get_active (add_ffmpeg_entry 5 7 (str "<i>five</i>") (mkTrack l)) 2 = str "one".
Proof.
  intros l.
  destruct (add_then_lookup l 5 7 6 (str "<i>five</i>") eq_refl eq_refl eq_refl
              ltac:(vm_compute; discriminate)) as [H1 _].
  destruct (add_then_lookup l 5 7 2 (str "<i>five</i>") eq_refl eq_refl eq_refl
              ltac:(vm_compute; discriminate)) as [_ H2].
  split.
  - rewrite H1; [reflexivity | reflexivity | reflexivity |].
    intros x [<- | [<- | []]]; [left | right]; reflexivity.
  - rewrite (H2 eq_refl). reflexivity.
Defined.

(** *** Sorting *)

Lemma insert_by_start_sorted e l :
  is_number (start e) ->
  sorted_by_start l = true ->
  sorted_by_start (insert_by_start e l) = true.
Proof.
  intros Hn. induction l as [|a r IH]; intros Hs.
  - simpl. unfold is_number in Hn. rewrite Hn. reflexivity.
  - pose proof Hs as Hs'. apply sorted_cons in Hs'. destruct Hs' as (Ha & Hle & Hr).
    cbn [insert_by_start]. unfold start_lt.
    destruct (start e <? start a) eqn:Hlt.
    + apply sorted_cons. repeat split; auto.
      intros x [<- | Hx]; [apply lt_le, Hlt|].
      apply lt_le. exact (lt_le_trans _ _ _ Hlt (Hle x Hx)).
    + apply sorted_cons. repeat split; auto.
      intros x Hx. apply LoaderFacts.insert_by_start_In in Hx.
      destruct Hx as [-> | Hx]; [apply not_lt_ge; auto | apply Hle, Hx].
Qed.

Lemma insert_by_start_perm e l : Permutation (e :: l) (insert_by_start e l).
Proof.
  induction l as [|a r IH]; simpl; [reflexivity|].
  destruct (start_lt e a); [reflexivity|].
  rewrite perm_swap. apply perm_skip, IH.
Qed.

Lemma sort_by_start_perm l : Permutation l (sort_by_start l).
Proof.
  induction l as [|a r IH]; simpl; [constructor|].
  rewrite <- insert_by_start_perm. apply perm_skip, IH.
Qed.

(** X3. [sort_entries] rearranges the entries without adding or losing
    any, and when every start is a number the result is sorted by start;
    so is the track that [load_ass] leaves, which is the sorted scan of
    the file. *)
Theorem sort_entries_sorted (t : SubtitleTrack) (content : list ascii) :
  Permutation (entries_ t) (entries_ (sort_entries t))
  /\ (Forall (fun x => is_number (start x)) (entries_ t) ->
      sorted_by_start (entries_ (sort_entries t)) = true)
  /\ Permutation (ass_scan content) (ass_parse content)
  /\ (Forall (fun x => is_number (start x)) (ass_scan content) ->
      sorted_by_start (entries_ (snd (load_ass (Some content) t))) = true).
Proof.
  assert (Hsorted : forall l, Forall (fun x => is_number (start x)) l ->
                              sorted_by_start (sort_by_start l) = true).
  { induction 1 as [|a r Ha Hr IH]; [reflexivity|].
    simpl. apply insert_by_start_sorted; assumption. }
  unfold sort_entries, ass_parse. cbn [entries_ load_ass snd].
  repeat split; try apply sort_by_start_perm; apply Hsorted.
Qed.

Lemma sort_entries_sorted_witness :
  let t := mkTrack [mkEntry 5 6 (str "late"); mkEntry 1 2 (str "early");
                    mkEntry 3 4 (str "mid")] in
  map start (entries_ (sort_entries t)) = [1; 3; 5]
  /\ sorted_by_start (entries_ (sort_entries t)) = true.
Proof.
  intros t.
  destruct (sort_entries_sorted t []) as (_ & Hs & _).
  split; [reflexivity|]. apply Hs. repeat constructor.
Defined.

End TrackMore.

(** ** More on the loaders *)

Module LoaderMore.

Import Str Algo Subtitle Double LoaderFacts.
Local Open Scope char_scope.

(** *** Discovery of the external file *)

Lemma load_srt_result file t :
  load_srt file t = (false, t)
  \/ (exists c, file = Some c /\ srt_parse c = []
                /\ load_srt file t = (false, mkTrack []))
  \/ (exists c, file = Some c /\ srt_parse c <> []
                /\ load_srt file t = (true, mkTrack (srt_parse c))).
Proof.
  destruct file as [c|]; [|left; reflexivity]. right. unfold load_srt.
  destruct (srt_parse c) eqn:Hp; [left | right]; exists c; rewrite ?Hp;
    repeat split; discriminate.
Qed.

Lemma load_ass_result file t :
  load_ass file t = (false, t)
  \/ (exists c, file = Some c /\ ass_parse c = []
                /\ load_ass file t = (false, mkTrack []))
  \/ (exists c, file = Some c /\ ass_parse c <> []
                /\ load_ass file t = (true, mkTrack (ass_parse c))).
Proof.
  destruct file as [c|]; [|left; reflexivity]. right. unfold load_ass.
  destruct (ass_parse c) eqn:Hp; [left | right]; exists c; rewrite ?Hp;
    repeat split; discriminate.
Qed.

Lemma load_file_from_result exts fs t :
  let r := load_file_from exts fs t in
  (fst r = true -> entries_ (snd r) <> [])
  /\ (fst r = false -> snd r = t \/ entries_ (snd r) = []).
Proof.
  revert t. induction exts as [|ext rest IH]; intros t; cbn [load_file_from].
  - split; [discriminate | auto].
  - destruct (fs ext) as [file|]; [|apply IH].
    assert (Hone : exists ok t', (match ext with
                                  | ext_srt => load_srt file t
                                  | _ => load_ass file t
                                  end) = (ok, t')
                   /\ (ok = true -> entries_ t' <> [])
                   /\ (ok = false -> t' = t \/ entries_ t' = [])).
    { destruct ext;
        [destruct (load_srt_result file t) as [H | [(c & _ & Hp & H) | (c & _ & Hp & H)]]
        |destruct (load_ass_result file t) as [H | [(c & _ & Hp & H) | (c & _ & Hp & H)]]
        |destruct (load_ass_result file t) as [H | [(c & _ & Hp & H) | (c & _ & Hp & H)]]];
        rewrite H; eexists _, _; (split; [reflexivity|]); split;
          try discriminate; auto. }
    destruct Hone as (ok & t' & -> & Hok & Hfail).
    destruct ok; cbn [fst snd].
    + split; [intros _; apply Hok; reflexivity | discriminate].
    + specialize (IH t'). cbv zeta in IH. destruct IH as [IH1 IH2].
      split; [exact IH1|]. intros Hf.
      destruct (IH2 Hf) as [-> | He]; [apply Hfail; reflexivity | right; exact He].
Qed.

(** X4. [load_file] tries [.srt], then [.ass], then [.ssa], and keeps the
    first file that yields an entry: an [.srt] with an entry wins; the
    [.ass] is used when the [.srt] does not exist or yields nothing, the
    [.ssa] when both fail in that way.  A result of [true] leaves a loaded
    (non-empty) track; a result of [false] leaves the track untouched or
    empty, and untouched when no sibling exists. *)
Theorem load_file_priority (fs : Siblings) (t : SubtitleTrack)
  (c : list ascii) :
  (fst (load_file fs t) = true -> is_loaded (snd (load_file fs t)) = true)
  /\ (fst (load_file fs t) = false ->
      snd (load_file fs t) = t \/ entries_ (snd (load_file fs t)) = [])
  /\ ((forall ext, fs ext = None) -> load_file fs t = (false, t))
  /\ (fs ext_srt = Some (Some c) -> srt_parse c <> [] ->
      load_file fs t = (true, mkTrack (srt_parse c)))
  /\ ((fs ext_srt = None
       \/ exists c0, fs ext_srt = Some (Some c0) /\ srt_parse c0 = []) ->
      fs ext_ass = Some (Some c) -> ass_parse c <> [] ->
      load_file fs t = (true, mkTrack (ass_parse c)))
  /\ ((fs ext_srt = None
       \/ exists c0, fs ext_srt = Some (Some c0) /\ srt_parse c0 = []) ->
      (fs ext_ass = None
       \/ exists c1, fs ext_ass = Some (Some c1) /\ ass_parse c1 = []) ->
      fs ext_ssa = Some (Some c) -> ass_parse c <> [] ->
      load_file fs t = (true, mkTrack (ass_parse c))).
Proof.
  assert (Hnonempty : forall l : list SubtitleEntry, l <> [] -> is_empty l = false)
    by (intros [|x l] H; [contradiction | reflexivity]).
  pose proof (load_file_from_result [ext_srt; ext_ass; ext_ssa] fs t) as Hres.
  cbv zeta in Hres. fold (load_file fs t) in Hres. destruct Hres as [Htrue Hfalse].
  split; [|split; [exact Hfalse|split; [|split; [|split]]]].
  - intros H. unfold is_loaded. specialize (Htrue H).
    destruct (entries_ (snd (load_file fs t))); [contradiction | reflexivity].
  - intros Hnone. unfold load_file. cbn [load_file_from].
    rewrite !Hnone. reflexivity.
  - intros Hsrt Hp. unfold load_file. cbn [load_file_from load_srt].
    rewrite Hsrt. cbn [load_srt]. rewrite (Hnonempty _ Hp). reflexivity.
  - intros Hsrt Hass Hp. unfold load_file. cbn [load_file_from].
    destruct Hsrt as [-> | (c0 & -> & Hp0)]; rewrite Hass;
      cbn [load_srt load_ass]; rewrite ?Hp0; cbn [is_empty negb];
      rewrite (Hnonempty _ Hp); reflexivity.
  - intros Hsrt Hass Hssa Hp. unfold load_file. cbn [load_file_from].
    destruct Hsrt as [-> | (c0 & -> & Hp0)];
      destruct Hass as [-> | (c1 & -> & Hp1)]; rewrite Hssa;
      cbn [load_srt load_ass]; rewrite ?Hp0, ?Hp1; cbn [is_empty negb];
      rewrite (Hnonempty _ Hp); reflexivity.
Qed.

Lemma load_file_priority_witness :
  let srt := str "1" ++ [LF] ++ str "00:00:01,000 --> 00:00:04,000" ++ [LF]
             ++ str "Hello" ++ [LF] in
  let empty_srt := str "1" ++ [LF] ++ str "{\an8}" ++ [LF] in
  let ass := unlines [str "[Events]";
                      str "Dialogue: 0,0:00:02.00,0:00:03.00,Default,,0,0,0,,Hi"] in
  let both := fun ext => match ext with
                         | ext_srt => Some (Some srt)
                         | ext_ass => Some (Some ass)
                         | ext_ssa => None
                         end in
  let fallback := fun ext => match ext with
                             | ext_srt => Some (Some empty_srt)
                             | ext_ass => Some (Some ass)
                             | ext_ssa => None
                             end in
  load_file both track0 = (true, mkTrack [mkEntry 1 4 (str "Hello")])
  /\ load_file fallback track0 = (true, mkTrack [mkEntry 2 3 (str "Hi")])
  /\ load_file (fun _ => None) track0 = (false, track0).
Proof.
  intros srt empty_srt ass both fallback.
  destruct (load_file_priority both track0 srt) as (_ & _ & _ & H1 & _).
  destruct (load_file_priority fallback track0 ass) as (_ & _ & _ & _ & H2 & _).
  destruct (load_file_priority (fun _ => None) track0 []) as (_ & _ & H3 & _).
  split; [|split].
  - rewrite (H1 eq_refl ltac:(vm_compute; discriminate)). vm_compute. reflexivity.
  - rewrite (H2 (or_intror (ex_intro _ empty_srt (conj eq_refl eq_refl))) eq_refl
               ltac:(vm_compute; discriminate)).
    vm_compute. reflexivity.
  - apply H3. reflexivity.
Defined.

(** *** How many entries a file can give *)

Lemma filter_none {A : Type} (f : A -> bool) l :
  forallb (fun x => negb (f x)) l = true -> filter f l = [].
Proof.
  induction l as [|x l IH]; [reflexivity|]. simpl.
  intros H. apply andb_true_iff in H. destruct H as [Hx Hl].
  apply negb_true_iff in Hx. rewrite Hx. apply IH, Hl.
Qed.

Lemma flush_pending st :
  in_entry (flush st) = false /\ length (srt_entries (flush st)) <= srt_pending st.
Proof.
  split; [reflexivity|]. unfold srt_pending.
  destruct (flush_entries st) as [-> | (e & _ & _ & H)]; [lia|].
  assert (Hin : in_entry st = true).
  { destruct (in_entry st) eqn:Hi; [reflexivity|].
    unfold flush in H. rewrite Hi in H. cbn in H.
    apply (f_equal (@length _)) in H. rewrite length_app in H. simpl in H. lia. }
  rewrite H, Hin, length_app. simpl. lia.
Qed.

Lemma srt_line_pending st line :
  srt_pending (srt_line st line)
  <= srt_pending st + (if is_sequence_line line then 1 else 0).
Proof.
  unfold srt_line, is_sequence_line.
  destruct (flush_pending st) as [Hin Hlen].
  destruct (is_empty (trim_cr (strip_bom line))); cbn [negb andb].
  - unfold srt_pending at 1. rewrite Hin. lia.
  - destruct (forallb isdigit (trim_cr (strip_bom line))).
    + unfold srt_pending at 1. cbn [srt_entries in_entry]. lia.
    + destruct (find (str "-->") (trim_cr (strip_bom line)));
        [unfold srt_pending; cbn [srt_entries in_entry]; lia|].
      destruct (in_entry st) eqn:Hi; unfold srt_pending;
        cbn [srt_entries in_entry]; rewrite ?Hi; lia.
Qed.

Lemma srt_lines_pending lines st :
  srt_pending (fold_left srt_line lines st)
  <= srt_pending st + length (filter is_sequence_line lines).
Proof.
  revert st. induction lines as [|line lines IH]; intros st; simpl; [lia|].
  specialize (IH (srt_line st line)).
  pose proof (srt_line_pending st line) as H.
  destruct (is_sequence_line line); simpl; lia.
Qed.

(** X5. [load_srt] stores at most one entry per sequence-number line of
    the file: text that no sequence number precedes is never stored, and a
    file without a line made of digits only gives no entry and the result
    [false]. *)
Theorem srt_one_entry_per_number (content : list ascii) (t : SubtitleTrack) :
  length (srt_parse content)
  <= length (filter is_sequence_line (getlines content))
  /\ (forallb (fun line => negb (is_sequence_line line)) (getlines content) = true ->
      load_srt (Some content) t = (false, mkTrack [])).
Proof.
  assert (Hle : length (srt_parse content)
                <= length (filter is_sequence_line (getlines content))).
  { unfold srt_parse.
    destruct (flush_pending (fold_left srt_line (getlines content) srt_init))
      as [_ H].
    pose proof (srt_lines_pending (getlines content) srt_init) as H'.
    unfold srt_pending at 2 in H'. simpl in H'. lia. }
  split; [exact Hle|]. intros Hnone.
  rewrite (filter_none _ _ Hnone) in Hle. unfold load_srt.
  destruct (srt_parse content); [reflexivity | simpl in Hle; lia].
Qed.

Lemma srt_one_entry_per_number_witness :
  load_srt (Some (str "00:00:01,000 --> 00:00:04,000" ++ [LF] ++ str "Hello"
                  ++ [LF])) track0
  = (false, mkTrack []).
Proof.
  apply (srt_one_entry_per_number
           (str "00:00:01,000 --> 00:00:04,000" ++ [LF] ++ str "Hello" ++ [LF])
           track0).
  reflexivity.
Defined.

Lemma ass_line_growth st line :
  length (ass_entries (ass_line st line))
  <= length (ass_entries st) + (if is_dialogue_line line then 1 else 0)
  /\ (in_events st = false -> is_events_header line = false ->
      ass_entries (ass_line st line) = ass_entries st
      /\ in_events (ass_line st line) = false).
Proof.
  unfold ass_line, is_dialogue_line, is_events_header.
  destruct (trim_cr line) as [|c0 r] eqn:Hline.
  - split; [lia | auto].
  - destruct (Ascii.eqb c0 ";" || Ascii.eqb c0 "!"); [split; [lia | auto]|].
    destruct (Ascii.eqb c0 "[").
    + cbn [ass_entries in_events]. split; [lia|]. intros _ ->. auto.
    + destruct (in_events st) eqn:Hev; cbn [negb].
      * split; [|discriminate].
        destruct (starts_with (str "Format:") (c0 :: r)); [cbn [ass_entries]; lia|].
        destruct (starts_with (str "Dialogue:") (c0 :: r)) eqn:Hd; cbn [negb];
          [|lia].
        destruct (ass_dialogue_entries st (c0 :: r)) as [-> | (e & _ & ->)];
          [lia | rewrite length_app; simpl; lia].
      * split; [lia | auto].
Qed.

Lemma ass_lines_growth lines st :
  length (ass_entries (fold_left ass_line lines st))
  <= length (ass_entries st) + length (filter is_dialogue_line lines).
Proof.
  revert st. induction lines as [|line lines IH]; intros st; simpl; [lia|].
  specialize (IH (ass_line st line)).
  destruct (ass_line_growth st line) as [H _].
  destruct (is_dialogue_line line); simpl; lia.
Qed.

Lemma ass_lines_gated lines st :
  in_events st = false ->
  forallb (fun line => negb (is_events_header line)) lines = true ->
  ass_entries (fold_left ass_line lines st) = ass_entries st.
Proof.
  revert st. induction lines as [|line lines IH]; intros st Hev Hnone; [reflexivity|].
  simpl in Hnone. apply andb_true_iff in Hnone. destruct Hnone as [Hl Hls].
  apply negb_true_iff in Hl.
  destruct (ass_line_growth st line) as [_ H]. destruct (H Hev Hl) as [He Hev'].
  simpl. rewrite (IH _ Hev' Hls). exact He.
Qed.

(** X6. [load_ass] stores at most one entry per line that starts with
    [Dialogue:], and none at all unless some line holds the [[Events]]
    header: dialogue lines outside the events section are ignored, and the
    load then returns [false] and leaves an empty track. *)
Theorem ass_entries_gated (content : list ascii) (t : SubtitleTrack) :
  length (ass_parse content)
  <= length (filter is_dialogue_line (getlines content))
  /\ (forallb (fun line => negb (is_events_header line)) (getlines content) = true ->
      load_ass (Some content) t = (false, mkTrack [])).
Proof.
  split.
  - unfold ass_parse.
    rewrite <- (Permutation_length (TrackMore.sort_by_start_perm (ass_scan content))).
    unfold ass_scan.
    pose proof (ass_lines_growth (getlines content) ass_init) as H. simpl in H.
    exact H.
  - intros Hnone. unfold load_ass, ass_parse, ass_scan.
    rewrite (ass_lines_gated (getlines content) ass_init eq_refl Hnone).
    reflexivity.
Qed.

Lemma ass_entries_gated_witness :
  load_ass (Some (unlines
     [str "[Script Info]";
      str "Dialogue: 0,0:00:01.00,0:00:03.50,Default,,0,0,0,,Hi"]))
     (mkTrack [mkEntry 1 2 (str "old")])
  = (false, mkTrack []).
Proof.
  apply (ass_entries_gated
           (unlines [str "[Script Info]";
                     str "Dialogue: 0,0:00:01.00,0:00:03.50,Default,,0,0,0,,Hi"])
           (mkTrack [mkEntry 1 2 (str "old")])).
  reflexivity.
Defined.

(** *** Lines *)

Lemma getlines_from_line cur l rest :
  no_LF l ->
  getlines_from cur (l ++ LF :: rest) = (rev cur ++ l) :: getlines_from [] rest.
Proof.
  intros Hl. revert cur. induction Hl as [|c l Hc _ IH]; intros cur.
  - cbn [app getlines_from]. rewrite Ascii.eqb_refl, app_nil_r. reflexivity.
  - cbn [app getlines_from]. rewrite Hc, IH. cbn [rev].
    rewrite <- app_assoc. reflexivity.
Qed.

Lemma getlines_unlines ls : Forall no_LF ls -> getlines (unlines ls) = ls.
Proof.
  unfold getlines, unlines. induction 1 as [|l ls Hl _ IH]; [reflexivity|].
  cbn [map concat]. rewrite <- app_assoc. cbn [app].
  rewrite (getlines_from_line [] l _ Hl), IH. reflexivity.
Qed.

Lemma getlines_from_no_LF s cur :
  no_LF cur -> Forall no_LF (getlines_from cur s).
Proof.
  revert cur. induction s as [|c r IH]; intros cur Hcur; cbn [getlines_from].
  - destruct cur; repeat constructor.
    apply Forall_rev in Hcur. exact Hcur.
  - destruct (Ascii.eqb c LF) eqn:Hc.
    + constructor; [apply Forall_rev, Hcur | apply IH; constructor].
    + apply IH. constructor; assumption.
Qed.

Lemma unlines_getlines_from s cur :
  exists tail, (tail = [] \/ tail = [LF])
               /\ unlines (getlines_from cur s) = rev cur ++ s ++ tail.
Proof.
  revert cur. induction s as [|c r IH]; intros cur; cbn [getlines_from].
  - destruct cur as [|x cur].
    + exists []. auto.
    + exists [LF]. split; [auto|]. unfold unlines. cbn [map concat].
      rewrite app_nil_r. reflexivity.
  - destruct (Ascii.eqb c LF) eqn:Hc.
    + apply Ascii.eqb_eq in Hc. subst c.
      destruct (IH []) as (tail & Htail & H). exists tail. split; [exact Htail|].
      unfold unlines in *. cbn [map concat]. rewrite H.
      rewrite <- app_assoc. reflexivity.
    + destruct (IH (c :: cur)) as (tail & Htail & H). exists tail.
      split; [exact Htail|]. rewrite H. cbn [rev].
      rewrite <- app_assoc. reflexivity.
Qed.

Lemma getlines_from_first s cur :
  s <> [] ->
  exists hd tl rest,
    getlines s = hd :: tl /\ s = hd ++ rest
    /\ getlines_from cur s = (rev cur ++ hd) :: tl.
Proof.
  unfold getlines. revert cur. induction s as [|c r IH]; intros cur Hs; [contradiction|].
  cbn [getlines_from]. destruct (Ascii.eqb c LF) eqn:Hc.
  - exists [], (getlines_from [] r), (c :: r). rewrite app_nil_r. auto.
  - destruct r as [|c' r'].
    + exists [c], [], []. cbn [getlines_from rev app]. auto.
    + destruct (IH [c] ltac:(discriminate)) as (hd & tl & rest & Hg & Hr & H1).
      destruct (IH (c :: cur) ltac:(discriminate)) as (hd' & tl' & rest' & Hg' & _ & H2).
      rewrite Hg in Hg'. injection Hg' as <- <-.
      exists (c :: hd), tl, rest. rewrite H1, H2, Hr. cbn [rev app].
      rewrite <- app_assoc. auto.
Qed.

(** X7. Splitting a text into lines, as [std::getline] does for the
    loaders and as [render_subtitle] does for the text it draws: no line
    holds a line feed; joining the lines, each followed by a line feed,
    gives the text back, with one line feed added when the text does not
    end with one; lines without line feed that are written out and read
    back are unchanged; a text that is not empty has at least one line. *)
Theorem getlines_roundtrip (s : list ascii) (ls : list (list ascii)) :
  Forall no_LF (getlines s)
  /\ (exists tail, (tail = [] \/ tail = [LF]) /\ unlines (getlines s) = s ++ tail)
  /\ (Forall no_LF ls -> getlines (unlines ls) = ls)
  /\ (s <> [] -> getlines s <> []).
Proof.
  split; [apply getlines_from_no_LF; constructor|].
  split; [apply (unlines_getlines_from s [])|].
  split; [apply getlines_unlines|].
  intros Hs. destruct (getlines_from_first s [] Hs) as (hd & tl & _ & -> & _).
  discriminate.
Qed.

Lemma getlines_roundtrip_witness :
  getlines (unlines [str "Hello"; []; str "there"]) = [str "Hello"; []; str "there"]
  /\ getlines (str "x") <> [].
Proof.
  destruct (getlines_roundtrip (str "x") [str "Hello"; []; str "there"])
    as (_ & _ & H & Hne).
  split; [apply H; repeat constructor | apply Hne; discriminate].
Defined.

(** *** Carriage returns and the byte order mark *)

Lemma trim_cr_app_cr l : trim_cr (l ++ [CR]) = l.
Proof.
  unfold trim_cr. rewrite rev_app_distr. cbn [rev app].
  rewrite Ascii.eqb_refl. apply rev_involutive.
Qed.

Lemma trim_cr_id l : ends_with_cr l = false -> trim_cr l = l.
Proof.
  unfold trim_cr, ends_with_cr. destruct (rev l) as [|c r]; [reflexivity|].
  intros ->. reflexivity.
Qed.

Lemma ends_with_cr_suffix pre l :
  l <> [] -> ends_with_cr (pre ++ l) = ends_with_cr l.
Proof.
  intros Hl. unfold ends_with_cr. rewrite rev_app_distr.
  destruct (rev l) as [|c r] eqn:Hr; [|reflexivity].
  apply (f_equal (@rev _)) in Hr. rewrite rev_involutive in Hr. contradiction.
Qed.

Lemma strip_bom_cases l :
  strip_bom l = l \/ exists r, l = bom ++ r /\ strip_bom l = r.
Proof.
  destruct l as [|a [|b [|c r]]]; auto. cbn [strip_bom].
  destruct (Ascii.eqb a "239") eqn:Ha; [|auto].
  destruct (Ascii.eqb b "187") eqn:Hb; [|auto].
  destruct (Ascii.eqb c "191") eqn:Hc; [|auto].
  apply Ascii.eqb_eq in Ha, Hb, Hc. subst. right. exists r. auto.
Qed.

Lemma strip_bom_app_cr l : strip_bom (l ++ [CR]) = strip_bom l ++ [CR].
Proof.
  destruct l as [|a [|b [|c r]]]; try reflexivity.
  - cbn [app strip_bom]. change (Ascii.eqb CR "191") with false.
    rewrite andb_false_r. reflexivity.
  - cbn [app strip_bom]. destruct (_ && _); reflexivity.
Qed.

Lemma ends_with_cr_strip_bom l :
  ends_with_cr l = false -> ends_with_cr (strip_bom l) = false.
Proof.
  intros H. destruct (strip_bom_cases l) as [-> | (r & -> & ->)]; [exact H|].
  destruct r as [|x r]; [reflexivity|].
  rewrite ends_with_cr_suffix in H by discriminate. exact H.
Qed.

Lemma srt_line_cr st l :
  ends_with_cr l = false -> srt_line st (l ++ [CR]) = srt_line st l.
Proof.
  intros H. unfold srt_line.
  rewrite strip_bom_app_cr, trim_cr_app_cr.
  rewrite (trim_cr_id _ (ends_with_cr_strip_bom l H)). reflexivity.
Qed.

Lemma ass_line_cr st l :
  ends_with_cr l = false -> ass_line st (l ++ [CR]) = ass_line st l.
Proof.
  intros H. unfold ass_line. rewrite trim_cr_app_cr, (trim_cr_id _ H).
  reflexivity.
Qed.

Lemma fold_left_cr {S : Type} (f : S -> list ascii -> S) ls :
  (forall st l, ends_with_cr l = false -> f st (l ++ [CR]) = f st l) ->
  Forall (fun l => ends_with_cr l = false) ls ->
  forall st, fold_left f (map (fun l => l ++ [CR]) ls) st = fold_left f ls st.
Proof.
  intros Hf. induction 1 as [|l ls Hl _ IH]; intros st; [reflexivity|].
  cbn [map fold_left]. rewrite (Hf st l Hl). apply IH.
Qed.

Lemma no_LF_app_cr l : no_LF l -> no_LF (l ++ [CR]).
Proof. intros H. apply Forall_app. split; [exact H | repeat constructor]. Qed.

(** X8. The loaders accept both line endings: a file whose lines end with
    carriage return and line feed loads, as SRT and as ASS, exactly as the
    same lines ended by a line feed alone (the lines themselves holding no
    line feed and not ending with a carriage return of their own). *)
Theorem loaders_accept_crlf (ls : list (list ascii)) :
  Forall no_LF ls ->
  Forall (fun l => ends_with_cr l = false) ls ->
  srt_parse (unlines (map (fun l => l ++ [CR]) ls)) = srt_parse (unlines ls)
  /\ ass_parse (unlines (map (fun l => l ++ [CR]) ls)) = ass_parse (unlines ls).
Proof.
  intros Hlf Hcr.
  assert (Hlf' : Forall no_LF (map (fun l => l ++ [CR]) ls)).
  { apply Forall_forall. intros x Hx. apply in_map_iff in Hx.
    destruct Hx as (l & <- & Hl). apply no_LF_app_cr.
    rewrite Forall_forall in Hlf. apply Hlf, Hl. }
  unfold srt_parse, ass_parse, ass_scan.
  rewrite (getlines_unlines _ Hlf'), (getlines_unlines _ Hlf).
  rewrite (fold_left_cr srt_line ls srt_line_cr Hcr).
  rewrite (fold_left_cr ass_line ls ass_line_cr Hcr).
  split; reflexivity.
Qed.

Lemma loaders_accept_crlf_witness :
  let ls := [str "1"; str "00:00:01,000 --> 00:00:04,000"; str "Hello"; []] in
  srt_parse (unlines (map (fun l => l ++ [CR]) ls))
  = [mkEntry 1 4 (str "Hello")].
Proof.
  intros ls.
  rewrite (proj1 (loaders_accept_crlf ls ltac:(repeat constructor)
                    ltac:(repeat constructor))).
  vm_compute. reflexivity.
Defined.

Lemma starts_with_app p l rest :
  starts_with p l = true -> starts_with p (l ++ rest) = true.
Proof.
  revert l. induction p as [|a p IH]; intros l; [reflexivity|].
  destruct l as [|b l]; [discriminate|]. cbn [starts_with app].
  intros H. apply andb_true_iff in H. destruct H as [-> H].
  rewrite (IH l H). reflexivity.
Qed.

Lemma strip_bom_id l : starts_with bom l = false -> strip_bom l = l.
Proof.
  intros H. destruct (strip_bom_cases l) as [-> | (r & -> & _)]; [reflexivity|].
  discriminate H.
Qed.

(** X9. [load_srt] ignores a byte order mark at the head of the file: the
    entries are those of the file without the mark (the file not starting
    with a second mark). *)
Theorem load_srt_ignores_bom (content : list ascii) (t : SubtitleTrack) :
  starts_with bom content = false ->
  load_srt (Some (bom ++ content)) t = load_srt (Some content) t.
Proof.
  intros Hb. unfold load_srt.
  assert (H : srt_parse (bom ++ content) = srt_parse content);
    [|rewrite H; reflexivity].
  destruct content as [|c0 r]; [reflexivity|].
  destruct (getlines_from_first (c0 :: r) (rev bom) ltac:(discriminate))
    as (hd & tl & rest & Hg & Hc & Hfrom).
  unfold srt_parse.
  change (getlines (bom ++ c0 :: r)) with (getlines_from (rev bom) (c0 :: r)).
  rewrite Hfrom, Hg, rev_involutive. cbn [fold_left].
  assert (Hhd : strip_bom hd = hd).
  { apply strip_bom_id. destruct (starts_with bom hd) eqn:Hs; [|reflexivity].
    rewrite Hc, (starts_with_app bom hd rest Hs) in Hb. discriminate. }
  assert (Hline : srt_line srt_init (bom ++ hd) = srt_line srt_init hd).
  { unfold srt_line. change (strip_bom (bom ++ hd)) with hd. rewrite Hhd.
    reflexivity. }
  rewrite Hline. reflexivity.
Qed.

Lemma load_srt_ignores_bom_witness :
  load_srt (Some (bom ++ str "1" ++ [LF] ++ str "00:00:01,000 --> 00:00:04,000"
                  ++ [LF] ++ str "Hello" ++ [LF])) track0
  = (true, mkTrack [mkEntry 1 4 (str "Hello")]).
Proof.
  rewrite (load_srt_ignores_bom
             (str "1" ++ [LF] ++ str "00:00:01,000 --> 00:00:04,000"
              ++ [LF] ++ str "Hello" ++ [LF]) track0 eq_refl).
  vm_compute. reflexivity.
Defined.

(** *** Columns of a dialogue line *)

Lemma find_char_split c s i :
  find_char c s = Some i ->
  s = firstn i s ++ c :: skipn (S i) s
  /\ find_char c (firstn i s) = None
  /\ i < length s.
Proof.
  revert i. induction s as [|d r IH]; intros i; cbn [find_char]; [discriminate|].
  destruct (Ascii.eqb d c) eqn:Hd.
  - intros [= <-]. apply Ascii.eqb_eq in Hd. subst d.
    cbn. repeat split; lia.
  - destruct (find_char c r) as [j|] eqn:Hj; [|discriminate].
    intros [= <-]. destruct (IH j eq_refl) as (H1 & H2 & H3).
    cbn [firstn skipn app find_char length]. rewrite Hd, H2.
    repeat split; [f_equal; exact H1 | lia].
Qed.

Lemma join_commas_cons f g rest :
  join_commas (f :: g :: rest) = f ++ "," :: join_commas (g :: rest).
Proof. reflexivity. Qed.

Lemma split_fields_shape data k :
  forall pos,
    pos <= length data ->
    join_commas (split_fields data k pos) = skipn pos data
    /\ 1 <= length (split_fields data k pos) <= S k
    /\ Forall (fun f => find_char "," f = None)
              (removelast (split_fields data k pos)).
Proof.
  induction k as [|k IH]; intros pos Hpos; cbn [split_fields].
  - unfold substr_from. cbn. repeat split; try lia. constructor.
  - unfold find_char_from, substr, substr_from.
    destruct (find_char "," (skipn pos data)) as [i|] eqn:Hfind; cbn [option_map].
    + destruct (find_char_split "," (skipn pos data) i Hfind) as (Hsplit & Hnone & Hi).
      rewrite length_skipn in Hi.
      destruct (IH (pos + i + 1) ltac:(lia)) as (Hjoin & Hlen & Hcols).
      replace (pos + i - pos) with i by lia.
      destruct (split_fields data k (pos + i + 1)) as [|g rest] eqn:Hrest;
        [simpl in Hlen; lia|].
      rewrite join_commas_cons, Hjoin.
      replace (skipn (pos + i + 1) data) with (skipn (S i) (skipn pos data))
        by (rewrite skipn_skipn; f_equal; lia).
      rewrite <- Hsplit. cbn [length removelast] in *.
      repeat split; try lia. constructor; assumption.
    + cbn. repeat split; try lia. constructor.
Qed.

(** X10. The column splitting of a dialogue line loses nothing: the
    fields, joined with commas, are the data again; there are between one
    and [text_col_idx + 1] of them, and only the last one can hold a
    comma. *)
Theorem split_fields_roundtrip (data : list ascii) (text_col : nat) :
  join_commas (split_fields data text_col 0) = data
  /\ 1 <= length (split_fields data text_col 0) <= S text_col
  /\ Forall (fun f => find_char "," f = None)
            (removelast (split_fields data text_col 0)).
Proof. apply (split_fields_shape data text_col 0). lia. Qed.

(** *** Timecodes *)

Lemma scan_digits_decimal ds rest acc :
  forallb isdigit ds = true -> no_digit_ahead rest = true ->
  scan_digits acc (ds ++ rest)
  = ((acc * 10 ^ Z.of_nat (length ds) + decimal ds)%Z, rest).
Proof.
  intros Hds Hrest. revert acc. induction ds as [|d ds IH]; intros acc.
  - cbn [app length decimal]. replace (acc * 10 ^ Z.of_nat 0 + 0)%Z with acc by lia.
    destruct rest as [|c r]; [reflexivity|]. cbn [scan_digits].
    cbn [no_digit_ahead] in Hrest. apply negb_true_iff in Hrest. rewrite Hrest.
    reflexivity.
  - cbn [forallb] in Hds. apply andb_true_iff in Hds. destruct Hds as [Hd Hds].
    cbn [app scan_digits]. rewrite Hd, (IH Hds). f_equal.
    cbn [decimal length]. rewrite Nat2Z.inj_succ, Z.pow_succ_r by lia. ring.
Qed.

Lemma decimal_nonneg ds : forallb isdigit ds = true -> (0 <= decimal ds)%Z.
Proof.
  induction ds as [|d ds IH]; cbn [forallb decimal]; [lia|].
  intros H. apply andb_true_iff in H. destruct H as [Hd Hds].
  specialize (IH Hds). unfold isdigit in Hd. apply andb_true_iff in Hd.
  destruct Hd as [Hd _]. apply Nat.leb_le in Hd.
  pose proof (Z.pow_nonneg 10 (Z.of_nat (length ds)) ltac:(lia)). nia.
Qed.

Lemma scan_int_field ds rest :
  is_time_field ds = true -> no_digit_ahead rest = true ->
  scan_int (ds ++ rest) = Some (decimal ds, rest).
Proof.
  unfold is_time_field. intros H Hrest.
  apply andb_true_iff in H. destruct H as [H Hmax].
  apply andb_true_iff in H. destruct H as [Hne Hds].
  destruct ds as [|d ds']; [discriminate|].
  pose proof Hds as Hds'. cbn [forallb] in Hds'. apply andb_true_iff in Hds'.
  destruct Hds' as [Hd _].
  assert (Hsp : isspace d = false).
  { destruct (isspace d) eqn:Hs; [|reflexivity]. exfalso.
    unfold isdigit in Hd. unfold isspace in Hs.
    apply andb_true_iff in Hd. destruct Hd as [Hd1 Hd2].
    apply Nat.leb_le in Hd1, Hd2. apply orb_true_iff in Hs.
    destruct Hs as [Hs | Hs]; [apply Nat.eqb_eq in Hs; lia|].
    apply andb_true_iff in Hs. destruct Hs as [_ Hs]. apply Nat.leb_le in Hs. lia. }
  assert (Hminus : Ascii.eqb d "-" = false).
  { destruct (Ascii.eqb d "-") eqn:He; [|reflexivity].
    apply Ascii.eqb_eq in He. subst d. discriminate Hd. }
  assert (Hplus : Ascii.eqb d "+" = false).
  { destruct (Ascii.eqb d "+") eqn:He; [|reflexivity].
    apply Ascii.eqb_eq in He. subst d. discriminate Hd. }
  unfold scan_int. cbn [app skip_space]. rewrite Hsp, Hminus, Hplus, Hd.
  change (d :: ds' ++ rest) with ((d :: ds') ++ rest).
  rewrite (scan_digits_decimal (d :: ds') rest 0 Hds Hrest).
  rewrite Z.mul_0_l, Z.add_0_l. f_equal. f_equal.
  apply IntFacts.wrap_small. apply Z.leb_le in Hmax.
  pose proof (decimal_nonneg (d :: ds') Hds).
  unfold Int.in_range, Int.INT_MIN, Int.INT_MAX in *. lia.
Qed.

Lemma sscanf4_fields a b c d1 d2 d3 d4 junk :
  isdigit a = false -> isdigit b = false -> isdigit c = false ->
  is_time_field d1 = true -> is_time_field d2 = true ->
  is_time_field d3 = true -> is_time_field d4 = true ->
  no_digit_ahead junk = true ->
  sscanf4 a b c (d1 ++ a :: d2 ++ b :: d3 ++ c :: d4 ++ junk)
  = (decimal d1, decimal d2, decimal d3, decimal d4).
Proof.
  intros Ha Hb Hc H1 H2 H3 H4 Hj. unfold sscanf4.
  rewrite (scan_int_field d1 _ H1) by (cbn; rewrite Ha; reflexivity).
  cbn [scan_lit]. rewrite Ascii.eqb_refl.
  rewrite (scan_int_field d2 _ H2) by (cbn; rewrite Hb; reflexivity).
  cbn [scan_lit]. rewrite Ascii.eqb_refl.
  rewrite (scan_int_field d3 _ H3) by (cbn; rewrite Hc; reflexivity).
  cbn [scan_lit]. rewrite Ascii.eqb_refl.
  rewrite (scan_int_field d4 _ H4 Hj). reflexivity.
Qed.

(** X11. The timecode parsers on the two grammars: for four digit fields
    (each a non-empty digit sequence with a value that fits an [int]) in
    the form [H:M:S,mmm], respectively [H:M:S.cc], followed by anything
    that does not go on with a digit, the result is
    [H * 3600 + M * 60 + S + mmm / 1000], respectively [... + cc / 100],
    computed in [double] in that order.  On a text that does not begin with
    a number both return [0.0]; no error is raised. *)
Theorem parse_time_fields (dh dm ds df junk ts : list ascii) :
  is_time_field dh = true -> is_time_field dm = true ->
  is_time_field ds = true -> is_time_field df = true ->
  no_digit_ahead junk = true ->
  parse_srt_time (dh ++ ":" :: dm ++ ":" :: ds ++ "," :: df ++ junk)
  = (of_int (decimal dh) * 3600 + of_int (decimal dm) * 60
     + of_int (decimal ds) + of_int (decimal df) / 1000)%float
  /\ parse_ass_time (dh ++ ":" :: dm ++ ":" :: ds ++ "." :: df ++ junk)
     = (of_int (decimal dh) * 3600 + of_int (decimal dm) * 60
        + of_int (decimal ds) + of_int (decimal df) / 100)%float
  /\ (scan_int ts = None ->
      parse_srt_time ts = 0%float /\ parse_ass_time ts = 0%float).
Proof.
  intros Hh Hm Hs Hf Hj. unfold parse_srt_time, parse_ass_time.
  rewrite !sscanf4_fields by (assumption || reflexivity).
  split; [reflexivity|]. split; [reflexivity|].
  intros H. unfold sscanf4. rewrite H. split; reflexivity.
Qed.

Lemma parse_time_fields_witness :
  parse_srt_time (str "01:02:03,500 X1:40") = 3723.5%float
  /\ parse_ass_time (str "1:02:03.50") = 3723.5%float
  /\ parse_srt_time (str "abc") = 0%float.
Proof.
  destruct (parse_time_fields (str "01") (str "02") (str "03") (str "500")
              (str " X1:40") (str "abc") eq_refl eq_refl eq_refl eq_refl eq_refl)
    as (H1 & _ & H3).
  destruct (parse_time_fields (str "1") (str "02") (str "03") (str "50")
              [] (str "abc") eq_refl eq_refl eq_refl eq_refl eq_refl)
    as (_ & H2 & _).
  split; [|split].
  - change (str "01:02:03,500 X1:40")
      with (str "01" ++ ":"%char :: str "02" ++ ":"%char :: str "03"
            ++ ","%char :: str "500" ++ str " X1:40").
    rewrite H1. reflexivity.
  - change (str "1:02:03.50")
      with (str "1" ++ ":"%char :: str "02" ++ ":"%char :: str "03"
            ++ "."%char :: str "50" ++ []).
    rewrite H2. reflexivity.
  - apply (H3 eq_refl).
Defined.

End LoaderMore.

(** ** More on the text cleaner *)

Module CleanMore.

Import Str Subtitle CleanFacts.
Local Open Scope char_scope.

Lemma drop_leading_head set s c r :
  drop_leading set s = c :: r -> char_in c set = false.
Proof.
  induction s as [|d s IH]; cbn [drop_leading]; [discriminate|].
  destruct (char_in d set) eqn:Hd; [exact IH|]. intros [= <- _]. exact Hd.
Qed.

Lemma drop_leading_suffix set s : exists pre, s = pre ++ drop_leading set s.
Proof.
  induction s as [|d s [pre IH]]; [exists []; reflexivity|]. cbn [drop_leading].
  destruct (char_in d set); [|exists []; reflexivity].
  exists (d :: pre). cbn [app]. rewrite <- IH. reflexivity.
Qed.

Lemma last_suffix {A : Type} (pre l : list A) d :
  l <> [] -> last (pre ++ l) d = last l d.
Proof.
  intros Hl. induction pre as [|a pre IH]; [reflexivity|].
  cbn [app]. destruct (pre ++ l) eqn:H.
  - apply app_eq_nil in H. destruct H. contradiction.
  - rewrite <- IH. reflexivity.
Qed.

Lemma drop_trailing_last set s d :
  drop_trailing set s <> [] ->
  char_in (last (drop_trailing set s) d) set = false.
Proof.
  induction s as [|c r IH]; cbn [drop_trailing]; [contradiction|].
  destruct (drop_trailing set r) as [|x r'] eqn:Hr.
  - destruct (char_in c set) eqn:Hc; [contradiction|]. intros _. exact Hc.
  - intros _. change (last (c :: x :: r') d) with (last (x :: r') d).
    apply IH. discriminate.
Qed.

Lemma drop_trailing_fixed set s d :
  s <> [] -> char_in (last s d) set = false -> drop_trailing set s = s.
Proof.
  induction s as [|c r IH]; [contradiction|]. intros _ Hlast.
  cbn [drop_trailing]. destruct r as [|x r'].
  - cbn in *. rewrite Hlast. reflexivity.
  - rewrite IH; [reflexivity | discriminate | exact Hlast].
Qed.

Lemma strip_loop_length opening closing depth s :
  length (strip_loop opening closing depth s) <= length s.
Proof.
  revert depth. induction s as [|c r IH]; intros depth; cbn [strip_loop length]; [lia|].
  destruct (Ascii.eqb c opening); [specialize (IH (depth + 1)%Z); lia|].
  destruct (Ascii.eqb c closing);
    [specialize (IH (if (0 <? depth)%Z then (depth - 1)%Z else depth)); lia|].
  specialize (IH depth). destruct (depth =? 0)%Z; cbn [length]; lia.
Qed.

Lemma unescape_length_pair r :
  length (unescape r) <= length r
  /\ forall c, length (unescape (c :: r)) <= S (length r).
Proof.
  induction r as [|d r [IH1 IH2]].
  - split; [cbn; lia | intros c; cbn; lia].
  - split; [apply IH2|]. intros c. rewrite unescape_cons.
    destruct (_ && _); cbn [length]; [lia | specialize (IH2 d); lia].
Qed.

Lemma drop_leading_length set s : length (drop_leading set s) <= length s.
Proof.
  induction s as [|c r IH]; cbn [drop_leading length]; [lia|].
  destruct (char_in c set); cbn [length]; lia.
Qed.

Lemma drop_trailing_length set s : length (drop_trailing set s) <= length s.
Proof.
  induction s as [|c r IH]; cbn [drop_trailing length]; [lia|].
  destruct (drop_trailing set r); [destruct (char_in c set)|]; cbn [length] in *; lia.
Qed.

(** X12. The text [clean_text] returns holds none of the brackets
    [<], [>], [{], [}], no backslash followed by [N] or [n], and neither
    starts nor ends with a blank, tab, carriage return or line feed; and a
    text of that form is returned as it is. *)
Theorem clean_text_normal_form (s : list ascii) :
  Forall (fun c => ~ In c ["<"; ">"; "{"; "}"]) (clean_text s)
  /\ no_escape (clean_text s) = true
  /\ (clean_text s <> [] ->
      char_in (hd " " (clean_text s)) blanks = false
      /\ char_in (last (clean_text s) " ") blanks = false)
  /\ (Forall (fun c => ~ In c ["<"; ">"; "{"; "}"]) s ->
      no_escape s = true ->
      (s <> [] -> char_in (hd " " s) blanks = false
                  /\ char_in (last s " ") blanks = false) ->
      clean_text s = s).
Proof.
  destruct (clean_text_shape s) as (Hhtml & Hass & Hesc).
  split; [|split; [exact Hesc|split]].
  - rewrite Forall_forall in *. intros c Hc Hin.
    specialize (Hhtml c Hc). specialize (Hass c Hc).
    destruct Hhtml as [H1 H2]. destruct Hass as [H3 H4].
    cbn [In] in Hin.
    destruct Hin as [<- | [<- | [<- | [<- | []]]]]; discriminate.
  - unfold clean_text. rewrite trim_drop. intros Hne.
    set (out := unescape (strip_ass_tags (strip_html_tags s))) in *.
    destruct (drop_leading_suffix blanks (drop_trailing blanks out)) as [pre Hpre].
    destruct (drop_leading blanks (drop_trailing blanks out)) as [|c r] eqn:Hd;
      [contradiction|].
    split; [exact (drop_leading_head _ _ _ _ Hd)|].
    rewrite <- (last_suffix pre (c :: r) " ") by discriminate.
    rewrite <- Hpre. apply drop_trailing_last.
    intros Hnil. rewrite Hnil in Hd. discriminate.
  - intros Hplain Hnoesc Hends.
    assert (Hh : Forall (fun c => Ascii.eqb c "<" = false /\ Ascii.eqb c ">" = false) s).
    { eapply Forall_impl; [|exact Hplain]. intros c Hc.
      split; apply Ascii.eqb_neq; intros ->; apply Hc; cbn; auto. }
    assert (Ha : Forall (fun c => Ascii.eqb c "{" = false /\ Ascii.eqb c "}" = false) s).
    { eapply Forall_impl; [|exact Hplain]. intros c Hc.
      split; apply Ascii.eqb_neq; intros ->; apply Hc; cbn; auto. }
    unfold clean_text, strip_ass_tags, strip_html_tags, strip_tags.
    rewrite (strip_loop_id "<" ">" _ Hh), (strip_loop_id "{" "}" _ Ha).
    rewrite (unescape_id _ Hnoesc), trim_drop.
    destruct s as [|c r]; [reflexivity|].
    destruct (Hends ltac:(discriminate)) as [Hhead Hlast].
    rewrite (drop_trailing_fixed blanks (c :: r) " " ltac:(discriminate) Hlast).
    cbn [drop_leading hd] in *. rewrite Hhead. reflexivity.
Qed.

Lemma clean_text_normal_form_witness :
  clean_text (str "Hello, world") = str "Hello, world".
Proof.
  apply (clean_text_normal_form (str "Hello, world")).
  - repeat constructor; cbn; intros H; repeat destruct H as [H | H];
      try discriminate H; exact H.
  - reflexivity.
  - intros _. split; reflexivity.
Defined.

(** X13. [clean_text] never lengthens a text, and every character of the
    result is a character of the input or a line feed. *)
Theorem clean_text_shrinks (s : list ascii) :
  length (clean_text s) <= length s
  /\ Forall (fun c => In c s \/ c = LF) (clean_text s).
Proof.
  split.
  - unfold clean_text, strip_ass_tags, strip_html_tags, strip_tags.
    rewrite trim_drop.
    pose proof (strip_loop_length "<" ">" 0 s) as H1.
    pose proof (strip_loop_length "{" "}" 0 (strip_loop "<" ">" 0 s)) as H2.
    pose proof (proj1 (unescape_length_pair
                         (strip_loop "{" "}" 0 (strip_loop "<" ">" 0 s)))) as H3.
    pose proof (drop_trailing_length blanks
                  (unescape (strip_loop "{" "}" 0 (strip_loop "<" ">" 0 s)))) as H4.
    pose proof (drop_leading_length blanks
                  (drop_trailing blanks
                     (unescape (strip_loop "{" "}" 0 (strip_loop "<" ">" 0 s))))) as H5.
    lia.
  - unfold clean_text, strip_ass_tags, strip_html_tags, strip_tags.
    apply trim_Forall, unescape_Forall; [right; reflexivity|].
    apply strip_loop_Forall, strip_loop_Forall.
    apply Forall_forall. intros c Hc. left. exact Hc.
Qed.

End CleanMore.

(** ** More on the players *)

Module PlayerMore.

Import Str Algo Subtitle Media Double DoubleFacts TrackFacts.
Local Open Scope float_scope.

(** *** VideoPlayer *)

(** X14. A position requested through [seek] is clamped at zero (a
    negative or NaN request becomes [0.0]) and is serviced by the decode
    loop exactly once: the position becomes the clamped request, which is
    a number that is not negative, the ended flag is cleared, the pause
    flag is kept, and servicing again changes nothing, as servicing does
    whenever no request is pending. *)
Theorem seek_serviced_once (secs : float) (p : VideoPlayer) :
  let p' := service_seek (seek secs p) in
  cur_pts_ p' = (if 0 <? secs then secs else 0)
  /\ (0 <=? cur_pts_ p') = true
  /\ ended_ p' = false
  /\ paused_ p' = paused_ p
  /\ service_seek p' = p'
  /\ service_seek (service_seek p) = service_seek p
  /\ ((0 <=? seek_target_ p) = false -> service_seek p = p).
Proof.
  cbv zeta.
  assert (Honce : forall q, service_seek (service_seek q) = service_seek q).
  { intros q. destruct (0 <=? seek_target_ q) eqn:Hq.
    - assert (E : (0 <=? seek_target_ (service_seek q)) = false)
        by (unfold service_seek; rewrite Hq; reflexivity).
      unfold service_seek at 1. rewrite E. reflexivity.
    - assert (E : service_seek q = q)
        by (unfold service_seek; rewrite Hq; reflexivity).
      rewrite !E. reflexivity. }
  pose proof (MediaFacts.seek_is_pending secs p) as Hpend.
  assert (Hsvc : service_seek (seek secs p)
                 = mkVideo (subtitle_ctx_ p) (subtitle_stream_idx_ p)
                     (if use_embedded_sub_ p then clear (subtitle_track_ p)
                      else subtitle_track_ p)
                     (use_embedded_sub_ p) (running_ p) (paused_ p) false
                     (-1) (if 0 <? secs then secs else 0) (raw_duration_ p)).
  { unfold service_seek. rewrite Hpend. reflexivity. }
  split; [rewrite Hsvc; reflexivity|].
  split; [rewrite Hsvc; exact Hpend|].
  split; [rewrite Hsvc; reflexivity|].
  split; [rewrite Hsvc; reflexivity|].
  split; [apply Honce|]. split; [apply Honce|].
  intros H. unfold service_seek. rewrite H. reflexivity.
Qed.

Lemma seek_serviced_once_witness :
  let p := mkVideo false (-1) track0 false true false true (-1) 12 0 in
  cur_pts_ (service_seek (seek (-5) p)) = 0
  /\ cur_pts_ (service_seek (seek nan p)) = 0
  /\ service_seek p = p.
Proof.
  intros p.
  destruct (seek_serviced_once (-5) p) as (H1 & _ & _ & _ & _ & _ & H3).
  destruct (seek_serviced_once nan p) as (H2 & _).
  split; [exact H1|]. split; [exact H2 | exact (H3 eq_refl)].
Defined.

Lemma add_ffmpeg_entry_keeps s e raw t :
  is_number s ->
  sorted_by_start (entries_ t) = true ->
  Forall has_text (entries_ t) ->
  sorted_by_start (entries_ (add_ffmpeg_entry s e raw t)) = true
  /\ Forall has_text (entries_ (add_ffmpeg_entry s e raw t)).
Proof.
  intros Hn Hs Ht. destruct t as [l]. cbn [entries_] in *.
  destruct (clean_text raw) as [|c r] eqn:Hc.
  - unfold add_ffmpeg_entry. rewrite Hc. cbn. auto.
  - assert (Hne : clean_text raw <> []) by (rewrite Hc; discriminate).
    rewrite (add_ffmpeg_entry_entries s e raw l Hne Hs). split.
    + apply (insert_at_sorted l (mkEntry s e (clean_text raw)) Hs Hn).
    + unfold insert_at. rewrite <- (firstn_skipn
        (prefix_len (fun x => start x <? s) l) l) in Ht.
      apply Forall_app in Ht. destruct Ht as [H1 H2].
      apply Forall_app. split; [exact H1|]. constructor; [exact Hne | exact H2].
Qed.

(** X15. The subtitle branch of the decode loop keeps what the lookup
    needs: on a track that is sorted by start and whose entries all carry
    text, a decoded packet with a start that is a number leaves the track
    sorted and its entries with text, whatever rectangles it holds; when
    the embedded stream is not the subtitle source the packet changes
    nothing. *)
Theorem subtitle_packet_keeps_sorted (s e : float)
  (rects : list (list ascii)) (p : VideoPlayer) :
  is_number s ->
  sorted_by_start (entries_ (subtitle_track_ p)) = true ->
  Forall has_text (entries_ (subtitle_track_ p)) ->
  sorted_by_start
    (entries_ (subtitle_track_ (on_subtitle_packet s e rects p))) = true
  /\ Forall has_text
       (entries_ (subtitle_track_ (on_subtitle_packet s e rects p)))
  /\ (use_embedded_sub_ p = false -> on_subtitle_packet s e rects p = p).
Proof.
  intros Hn Hs Ht.
  assert (Hfold : forall rs t,
             sorted_by_start (entries_ t) = true -> Forall has_text (entries_ t) ->
             let t' := fold_left
                         (fun t raw_text =>
                            if negb (is_empty raw_text)
                            then add_ffmpeg_entry s e raw_text t else t) rs t in
             sorted_by_start (entries_ t') = true /\ Forall has_text (entries_ t')).
  { induction rs as [|raw rs IH]; intros t Hs' Ht'; cbn [fold_left]; [auto|].
    apply IH; destruct (negb (is_empty raw)); auto;
      apply add_ffmpeg_entry_keeps; assumption. }
  unfold on_subtitle_packet.
  destruct (use_embedded_sub_ p); cbn [andb].
  - destruct (subtitle_ctx_ p).
    + cbn [set_track subtitle_track_].
      destruct (Hfold rects (subtitle_track_ p) Hs Ht) as [H1 H2].
      repeat split; [exact H1 | exact H2 | discriminate].
    + repeat split; assumption || discriminate.
  - repeat split; assumption.
Qed.

Lemma subtitle_packet_keeps_sorted_witness :
  let p := mkVideo true 2 (mkTrack [mkEntry 1 2 (str "a"); mkEntry 9 10 (str "z")])
             true true false false (-1) 0 0 in
  map text (entries_ (subtitle_track_
                        (on_subtitle_packet 5 8 [str "{\i1}x"; []; str "y"] p)))
  = [str "a"; str "y"; str "x"; str "z"]
  /\ sorted_by_start
       (entries_ (subtitle_track_
                    (on_subtitle_packet 5 8 [str "{\i1}x"; []; str "y"] p))) = true.
Proof.
  intros p. split; [vm_compute; reflexivity|].
  apply (subtitle_packet_keeps_sorted 5 8 [str "{\i1}x"; []; str "y"] p);
    [reflexivity | reflexivity | repeat constructor; discriminate].
Defined.

(** *** ImagePlayer *)

Local Open Scope Z_scope.

Lemma to_int_range x : Int.in_range (to_int x).
Proof.
  unfold to_int, Int.in_range, Int.INT_MIN, Int.INT_MAX.
  destruct (Prim2SF x) as [s|s| |s m e]; try lia.
  match goal with
  | |- context [if ?c then _ else _] => destruct c eqn:Hc
  end; [|lia].
  apply andb_true_iff in Hc. destruct Hc as [H1 H2].
  apply Z.leb_le in H1, H2. lia.
Qed.

Lemma frame_count_length p :
  Z.of_nat (length (anim_frames_ p)) <= Int.INT_MAX ->
  frame_count p = Z.of_nat (length (anim_frames_ p)).
Proof.
  intros H. unfold frame_count. apply IntFacts.wrap_small.
  unfold Int.in_range, Int.INT_MIN, Int.INT_MAX in *. lia.
Qed.

Lemma seek_scan_found p target n :
  forall i acc,
    (0 < n)%nat ->
    frame_count p = Z.of_nat (i + n) ->
    Z.of_nat (i + n) <= Int.INT_MAX ->
    exists j, seek_scan p target i n acc = Some j /\ (i <= j < i + n)%nat.
Proof.
  induction n as [|n IH]; intros i acc Hn Hcount Hmax; [lia|].
  cbn [seek_scan].
  destruct ((target <? Int.add acc (frame_delay p i))
            || (Z.of_nat i =? Int.add (frame_count p) (-1))) eqn:Hcond.
  - exists i. split; [reflexivity | lia].
  - apply orb_false_iff in Hcond. destruct Hcond as [_ Hlast].
    apply Z.eqb_neq in Hlast.
    assert (Hadd : Int.add (frame_count p) (-1) = frame_count p - 1).
    { unfold Int.add. apply IntFacts.wrap_small.
      unfold Int.in_range, Int.INT_MIN, Int.INT_MAX in *. lia. }
    rewrite Hadd, Hcount in Hlast.
    destruct n as [|n']; [lia|].
    destruct (IH (S i) (Int.add acc (frame_delay p i)) ltac:(lia)) as (j & Hj & Hr).
    + rewrite Hcount. f_equal. lia.
    + replace (S i + S n')%nat with (i + S (S n'))%nat by lia. exact Hmax.
    + exists j. split; [exact Hj | lia].
Qed.

Lemma image_seek_shape now secs p :
  is_animated_ p = true ->
  0 < anim_total_ms_ p <= Int.INT_MAX ->
  anim_frames_ p <> [] ->
  Z.of_nat (length (anim_frames_ p)) <= Int.INT_MAX ->
  exists j target,
    (j < length (anim_frames_ p))%nat
    /\ 0 <= target < anim_total_ms_ p
    /\ image_seek now secs p
       = mkImage (current_anim_ p) (anim_frames_ p) (is_animated_ p)
           (img_paused_ p) (img_ended_ p) (Z.of_nat j) target
           (anim_total_ms_ p) (display_sec_ p) (start_time_ p) now.
Proof.
  intros Hanim Htotal Hframes Hlen.
  assert (Hcount : frame_count p = Z.of_nat (length (anim_frames_ p)))
    by (apply frame_count_length, Hlen).
  assert (Hpos : (0 < length (anim_frames_ p))%nat)
    by (destruct (anim_frames_ p); [contradiction | simpl; lia]).
  set (raw := Int.rem (to_int (secs * 1000)%float) (anim_total_ms_ p)).
  set (target := if raw <? 0 then 0 else raw).
  assert (Hraw : - anim_total_ms_ p < raw < anim_total_ms_ p).
  { unfold raw, Int.rem.
    pose proof (Z.rem_bound_abs (to_int (secs * 1000)%float) (anim_total_ms_ p)
                  ltac:(lia)) as Hr.
    rewrite IntFacts.wrap_small;
      unfold Int.in_range, Int.INT_MIN, Int.INT_MAX in *; lia. }
  assert (Htarget : 0 <= target < anim_total_ms_ p).
  { unfold target. destruct (raw <? 0) eqn:Hneg; [lia|].
    apply Z.ltb_ge in Hneg. lia. }
  destruct (seek_scan_found p target (length (anim_frames_ p)) 0 0 Hpos)
    as (j & Hj & Hr); [exact Hcount | exact Hlen |].
  exists j, target. split; [lia|]. split; [exact Htarget|].
  unfold image_seek. rewrite Hanim.
  replace (anim_total_ms_ p <=? 0) with false
    by (symmetry; apply Z.leb_gt; lia).
  cbn [negb orb]. fold raw. fold target.
  rewrite Hcount, Nat2Z.id, Hj. reflexivity.
Qed.

(** X16. [ImagePlayer::seek] on an animated player with frames and a
    positive total duration, for every requested time: the frame index
    becomes a position of the frame list and the elapsed time lies in
    [[0, total)]; nothing but the index, the elapsed time and the frame
    timer changes.  On a player that is not animated or whose total
    duration is not positive the call changes nothing. *)
Theorem image_seek_in_range (now : time_point) (secs : float)
  (p q : ImagePlayer) :
  is_animated_ p = true ->
  0 < anim_total_ms_ p <= Int.INT_MAX ->
  anim_frames_ p <> [] ->
  Z.of_nat (length (anim_frames_ p)) <= Int.INT_MAX ->
  is_animated_ q = false \/ anim_total_ms_ q <= 0 ->
  frame_index_ok (image_seek now secs p)
  /\ 0 <= anim_elapsed_ms_ (image_seek now secs p) < anim_total_ms_ p
  /\ anim_frames_ (image_seek now secs p) = anim_frames_ p
  /\ current_anim_ (image_seek now secs p) = current_anim_ p
  /\ img_ended_ (image_seek now secs p) = img_ended_ p
  /\ img_paused_ (image_seek now secs p) = img_paused_ p
  /\ start_time_ (image_seek now secs p) = start_time_ p
  /\ image_seek now secs q = q.
Proof.
  intros Hanim Htotal Hframes Hlen Hq.
  destruct (image_seek_shape now secs p Hanim Htotal Hframes Hlen)
    as (j & target & Hj & Htarget & Hseek).
  rewrite Hseek. unfold frame_index_ok.
  cbn [anim_frame_idx_ anim_frames_ anim_elapsed_ms_ current_anim_ img_ended_
       img_paused_ start_time_].
  repeat split; try lia.
  unfold image_seek. destruct Hq as [-> | Hq]; [reflexivity|].
  replace (anim_total_ms_ q <=? 0) with true by (symmetry; apply Z.leb_le; lia).
  rewrite orb_true_r. reflexivity.
Qed.

Lemma image_seek_in_range_witness :
  let p := mkImage (Some [40; 0; 40; 40; 40]) [1; 2; 3; 4; 5]%nat true
                   false false 1 40 260 5%float 0 0 in
  anim_frame_idx_ (image_seek 7 0.125%float p) = 1
  /\ anim_elapsed_ms_ (image_seek 7 0.125%float p) = 125
  /\ frame_index_ok (image_seek 7 (-3)%float p)
  /\ frame_index_ok (image_seek 7 nan p).
Proof.
  intros p.
  assert (Hmax : Z.of_nat (length (anim_frames_ p)) <= Int.INT_MAX)
    by (apply Z.leb_le; reflexivity).
  assert (Htot : 0 < anim_total_ms_ p <= Int.INT_MAX)
    by (split; [apply Z.ltb_lt | apply Z.leb_le]; reflexivity).
  assert (Hfr : anim_frames_ p <> []) by discriminate.
  set (q := mkImage None [] false false false 0 0 0 5%float 0 0).
  destruct (image_seek_in_range 7 (-3)%float p q eq_refl Htot Hfr Hmax
              (or_introl eq_refl)) as (H1 & _).
  destruct (image_seek_in_range 7 nan p q eq_refl Htot Hfr Hmax
              (or_introl eq_refl)) as (H2 & _).
  split; [reflexivity|]. split; [reflexivity|]. split; assumption.
Defined.

Lemma next_frame_index idx count :
  0 <= idx < count -> count <= Int.INT_MAX ->
  Int.rem (Int.add idx 1) count = (idx + 1) mod count
  /\ 0 <= (idx + 1) mod count < count.
Proof.
  intros Hidx Hmax.
  assert (Hadd : Int.add idx 1 = idx + 1).
  { unfold Int.add. apply IntFacts.wrap_small.
    unfold Int.in_range, Int.INT_MIN, Int.INT_MAX in *. lia. }
  rewrite Hadd. unfold Int.rem. rewrite Z.rem_mod_nonneg by lia.
  pose proof (Z.mod_pos_bound (idx + 1) count ltac:(lia)) as Hb.
  split; [|exact Hb]. apply IntFacts.wrap_small.
  unfold Int.in_range, Int.INT_MIN, Int.INT_MAX in *. lia.
Qed.

(** X17. [ImagePlayer::update]: once ended the player stays ended and the
    call changes nothing; the result is [false] exactly when the player is
    ended afterwards; the frame list, the start time and the display time
    never change; a paused player keeps its frame and its frame timer; a
    display time that is NaN is never reached, so such a player does not
    end through [update]; and from an index within the frame list the new
    index is the old one or its successor modulo the frame count. *)
Theorem image_update_behaviour (now now' : time_point) (p : ImagePlayer) :
  let r := image_update now now' p in
  (img_ended_ p = true -> r = (false, p))
  /\ fst r = negb (img_ended_ (snd r))
  /\ anim_frames_ (snd r) = anim_frames_ p
  /\ start_time_ (snd r) = start_time_ p
  /\ display_sec_ (snd r) = display_sec_ p
  /\ (img_paused_ p = true ->
      anim_frame_idx_ (snd r) = anim_frame_idx_ p
      /\ last_frame_time_ (snd r) = last_frame_time_ p)
  /\ ((display_sec_ p =? display_sec_ p)%float = false ->
      img_ended_ (snd r) = img_ended_ p)
  /\ (frame_index_ok p ->
      Z.of_nat (length (anim_frames_ p)) <= Int.INT_MAX ->
      frame_index_ok (snd r)
      /\ (anim_frame_idx_ (snd r) = anim_frame_idx_ p
          \/ anim_frame_idx_ (snd r)
             = (anim_frame_idx_ p + 1) mod Z.of_nat (length (anim_frames_ p)))).
Proof.
  assert (Hsame : forall q : ImagePlayer,
             frame_index_ok q ->
             Z.of_nat (length (anim_frames_ q)) <= Int.INT_MAX ->
             frame_index_ok q
             /\ (anim_frame_idx_ q = anim_frame_idx_ q
                 \/ anim_frame_idx_ q
                    = (anim_frame_idx_ q + 1)
                      mod Z.of_nat (length (anim_frames_ q))))
    by (intros q Hq _; split; [exact Hq | left; reflexivity]).
  cbv zeta. unfold image_update.
  destruct (img_ended_ p) eqn:Hended.
  { cbn [fst snd]. rewrite Hended.
    repeat match goal with |- _ /\ _ => split end; auto. }
  destruct (display_sec_ p <=? image_get_position now p)%float eqn:Hdisp.
  { cbn [fst snd img_ended_ anim_frames_ start_time_ display_sec_
         anim_frame_idx_ last_frame_time_].
    repeat match goal with |- _ /\ _ => split end; auto; try discriminate.
    intros Hnan. apply le_number in Hdisp. destruct Hdisp as [Hn _].
    unfold is_number in Hn. rewrite Hn in Hnan. discriminate. }
  destruct (img_paused_ p) eqn:Hpaused.
  { cbn [fst snd]. rewrite Hended.
    repeat match goal with |- _ /\ _ => split end; auto; discriminate. }
  destruct (is_animated_ p && negb (is_empty (anim_frames_ p)));
    [|cbn [fst snd]; rewrite Hended;
      repeat match goal with |- _ /\ _ => split end; auto; discriminate].
  destruct (frame_delay p (Z.to_nat (anim_frame_idx_ p))
            <=? Int.wrap ((now' - last_frame_time_ p) ÷ 1000000));
    [|cbn [fst snd]; rewrite Hended;
      repeat match goal with |- _ /\ _ => split end; auto; discriminate].
  cbn [fst snd img_ended_ anim_frames_ start_time_ display_sec_
       anim_frame_idx_ last_frame_time_].
  split; [discriminate|]. split; [reflexivity|]. split; [reflexivity|].
  split; [reflexivity|]. split; [reflexivity|]. split; [discriminate|].
  split; [reflexivity|].
  intros Hok Hmax. unfold frame_index_ok in *.
  cbn [anim_frame_idx_ anim_frames_].
  rewrite (frame_count_length p Hmax).
  destruct (next_frame_index (anim_frame_idx_ p)
              (Z.of_nat (length (anim_frames_ p))) Hok Hmax) as [-> Hr].
  split; [exact Hr | right; reflexivity].
Qed.

Lemma image_update_behaviour_witness :
  let p := mkImage (Some [40; 40]) [1; 2]%nat true false false 1 0 80
                   5%float 0 0 in
  let paused := mkImage (Some [40; 40]) [1; 2]%nat true true false 1 0 80
                        5%float 0 0 in
  let forever := mkImage None [] false false false 0 0 0 nan 0 0 in
  anim_frame_idx_ (snd (image_update 50000000 50000000 p)) = 0
  /\ anim_frame_idx_ (snd (image_update 50000000 50000000 paused)) = 1
  /\ fst (image_update 6000000000 6000000000 p) = false
  /\ img_ended_ (snd (image_update 6000000000 6000000000 forever)) = false.
Proof.
  intros p paused forever.
  destruct (image_update_behaviour 50000000 50000000 paused)
    as (_ & _ & _ & _ & _ & Hp & _).
  destruct (image_update_behaviour 6000000000 6000000000 forever)
    as (_ & _ & _ & _ & _ & _ & Hn & _).
  split; [reflexivity|]. split; [exact (proj1 (Hp eq_refl))|].
  split; [reflexivity|]. exact (Hn eq_refl).
Defined.

Lemma keeps_refl p :
  (is_animated_ p = true -> anim_frames_ p <> [] -> frame_index_ok p) ->
  keeps p p.
Proof. intros H. unfold keeps. auto. Qed.

Lemma image_update_keeps now now' p :
  Z.of_nat (length (anim_frames_ p)) <= Int.INT_MAX ->
  (is_animated_ p = true -> anim_frames_ p <> [] -> frame_index_ok p) ->
  keeps p (snd (image_update now now' p)).
Proof.
  intros Hmax Hok. unfold image_update.
  destruct (img_ended_ p); [apply keeps_refl, Hok|].
  destruct (display_sec_ p <=? image_get_position now p)%float;
    [unfold keeps; cbn; auto|].
  destruct (img_paused_ p); [apply keeps_refl, Hok|].
  destruct (is_animated_ p && negb (is_empty (anim_frames_ p))) eqn:Hanim;
    [|apply keeps_refl, Hok].
  destruct (frame_delay p (Z.to_nat (anim_frame_idx_ p))
            <=? Int.wrap ((now' - last_frame_time_ p) ÷ 1000000));
    [|apply keeps_refl, Hok].
  unfold keeps, frame_index_ok.
  cbn [fst snd anim_frames_ is_animated_ current_anim_ anim_total_ms_
       anim_frame_idx_].
  repeat match goal with |- _ /\ _ => split end; try reflexivity.
  intros Ha Hf. rewrite (frame_count_length p Hmax).
  destruct (next_frame_index (anim_frame_idx_ p)
              (Z.of_nat (length (anim_frames_ p))) (Hok Ha Hf) Hmax) as [-> Hr].
  exact Hr.
Qed.

Lemma image_seek_keeps now secs p :
  Z.of_nat (length (anim_frames_ p)) <= Int.INT_MAX ->
  anim_total_ms_ p <= Int.INT_MAX ->
  (is_animated_ p = true -> anim_frames_ p <> [] -> frame_index_ok p) ->
  keeps p (image_seek now secs p).
Proof.
  intros Hmax Htotal Hok.
  assert (Hnoop : image_seek now secs p = p -> keeps p (image_seek now secs p))
    by (intros ->; apply keeps_refl, Hok).
  destruct (Bool.bool_dec (is_animated_ p) true) as [Hanim|Hanim];
    [|apply Hnoop; apply not_true_is_false in Hanim;
      unfold image_seek; rewrite Hanim; reflexivity].
  destruct (anim_total_ms_ p <=? 0) eqn:Hpos;
    [apply Hnoop; unfold image_seek; rewrite Hanim, Hpos; reflexivity|].
  apply Z.leb_gt in Hpos.
  destruct (list_eq_dec Nat.eq_dec (anim_frames_ p) []) as [Hf|Hne].
  - apply Hnoop. unfold image_seek, frame_count. rewrite Hf.
    destruct (negb (is_animated_ p) || (anim_total_ms_ p <=? 0));
      reflexivity.
  - destruct (image_seek_shape now secs p Hanim (conj Hpos Htotal) Hne Hmax)
      as (j & target & Hj & _ & ->).
    unfold keeps, frame_index_ok.
    cbn [anim_frames_ is_animated_ current_anim_ anim_total_ms_
         anim_frame_idx_].
    repeat match goal with |- _ /\ _ => split end; auto; lia.
Qed.

Lemma seek_frames_keeps now delta p :
  Z.of_nat (length (anim_frames_ p)) <= 2 ^ 30 ->
  (is_animated_ p = true -> anim_frames_ p <> [] -> frame_index_ok p) ->
  keeps p (seek_frames now delta p).
Proof.
  intros Hmax Hok. unfold seek_frames.
  destruct (negb (is_animated_ p) || is_empty (anim_frames_ p)) eqn:Hguard;
    [apply keeps_refl, Hok|].
  apply orb_false_iff in Hguard. destruct Hguard as [_ Hempty].
  assert (Hcount : 0 < Z.of_nat (length (anim_frames_ p)) <= 2 ^ 30).
  { destruct (anim_frames_ p); [discriminate | simpl length in *; lia]. }
  rewrite (IntFacts.wrap_small (Z.of_nat (length (anim_frames_ p))))
    by (unfold Int.in_range, Int.INT_MIN, Int.INT_MAX; lia).
  destruct (MediaFacts.frame_index_range
              (Int.add (anim_frame_idx_ p) delta)
              (Z.of_nat (length (anim_frames_ p)))
              (IntFacts.wrap_range _) Hcount) as (Heq & Hrange & _).
  unfold keeps, frame_index_ok.
  cbn [anim_frames_ is_animated_ current_anim_ anim_total_ms_
       anim_frame_idx_].
  repeat match goal with |- _ /\ _ => split end; try reflexivity.
  intros _ _. rewrite Heq. exact Hrange.
Qed.

Lemma image_call_keeps c p :
  Z.of_nat (length (anim_frames_ p)) <= 2 ^ 30 ->
  anim_total_ms_ p <= Int.INT_MAX ->
  (is_animated_ p = true -> anim_frames_ p <> [] -> frame_index_ok p) ->
  keeps p (image_call c p).
Proof.
  intros Hlen Htotal Hok.
  assert (Hmax : Z.of_nat (length (anim_frames_ p)) <= Int.INT_MAX)
    by (unfold Int.INT_MAX; lia).
  destruct c; cbn [image_call].
  - unfold keeps, image_play, frame_index_ok.
    cbn [anim_frames_ is_animated_ current_anim_ anim_total_ms_
         anim_frame_idx_].
    repeat match goal with |- _ /\ _ => split end; try reflexivity.
    intros _ Hf. destruct (anim_frames_ p); [contradiction | simpl; lia].
  - unfold keeps, image_stop, frame_index_ok.
    cbn [anim_frames_ is_animated_ current_anim_ anim_total_ms_
         anim_frame_idx_].
    repeat match goal with |- _ /\ _ => split end; auto.
  - apply image_update_keeps; assumption.
  - unfold keeps, image_toggle_pause, frame_index_ok.
    cbn [anim_frames_ is_animated_ current_anim_ anim_total_ms_
         anim_frame_idx_].
    repeat match goal with |- _ /\ _ => split end; auto.
  - apply image_seek_keeps; assumption.
  - apply seek_frames_keeps; assumption.
Qed.

Lemma image_calls_keeps cs : forall p,
  Z.of_nat (length (anim_frames_ p)) <= 2 ^ 30 ->
  anim_total_ms_ p <= Int.INT_MAX ->
  (is_animated_ p = true -> anim_frames_ p <> [] -> frame_index_ok p) ->
  keeps p (image_calls cs p).
Proof.
  induction cs as [|c cs IH]; intros p Hlen Htotal Hok.
  - apply keeps_refl, Hok.
  - change (image_calls (c :: cs) p) with (image_calls cs (image_call c p)).
    destruct (image_call_keeps c p Hlen Htotal Hok)
      as (Hf & Ha & Hc & Ht & Hi).
    destruct (IH (image_call c p)) as (Hf' & Ha' & Hc' & Ht' & Hi').
    + rewrite Hf. exact Hlen.
    + rewrite Ht. exact Htotal.
    + exact Hi.
    + unfold keeps. rewrite Hf', Ha', Hc', Ht'.
      repeat match goal with |- _ /\ _ => split end; try assumption.
      rewrite <- Hf', <- Ha'. exact Hi'.
Qed.

(** X18. Whatever sequence of [play], [stop], [update], [toggle_pause],
    [seek] and [seek_frames] calls is made on an image player whose frame
    index starts within the frame list (it is [0] after construction), the
    frame list and the animation flag stay as they were and [get_texture]
    never reads outside the frame list: on an animated player with frames
    it returns one of the frames, otherwise the still image. *)
Theorem get_texture_in_bounds (cs : list ImageCall) (p : ImagePlayer) :
  Z.of_nat (length (anim_frames_ p)) <= 2 ^ 30 ->
  anim_total_ms_ p <= Int.INT_MAX ->
  (is_animated_ p = true -> anim_frames_ p <> [] -> frame_index_ok p) ->
  let q := image_calls cs p in
  anim_frames_ q = anim_frames_ p
  /\ is_animated_ q = is_animated_ p
  /\ get_texture q <> OutOfBounds
  /\ (is_animated_ p = true -> anim_frames_ p <> [] ->
      frame_index_ok q
      /\ exists t, get_texture q = Frame t /\ In t (anim_frames_ p))
  /\ (is_animated_ p = false \/ anim_frames_ p = [] ->
      get_texture q = StillImage).
Proof.
  intros Hlen Htotal Hok q.
  destruct (image_calls_keeps cs p Hlen Htotal Hok) as (Hf & Ha & _ & _ & Hi).
  fold q in Hf, Ha, Hi.
  assert (Hframe : is_animated_ p = true -> anim_frames_ p <> [] ->
                   frame_index_ok q
                   /\ exists t, get_texture q = Frame t
                                /\ In t (anim_frames_ p)).
  { intros Hanim Hne.
    assert (Hq : frame_index_ok q)
      by (apply Hi; [rewrite Ha; exact Hanim | rewrite Hf; exact Hne]).
    split; [exact Hq|].
    unfold get_texture. rewrite Ha, Hf, Hanim.
    destruct (anim_frames_ p) as [|t0 r] eqn:Hfp; [contradiction|].
    cbn [is_empty negb andb]. unfold frame_index_ok in Hq.
    rewrite Hf in Hq.
    replace (anim_frame_idx_ q <? 0) with false
      by (symmetry; apply Z.ltb_ge; lia).
    destruct (nth_error (t0 :: r) (Z.to_nat (anim_frame_idx_ q))) as [t|] eqn:Hn.
    - exists t. split; [reflexivity | exact (nth_error_In _ _ Hn)].
    - apply nth_error_None in Hn. lia. }
  assert (Hstill : is_animated_ p = false \/ anim_frames_ p = [] ->
                   get_texture q = StillImage).
  { intros Hcase. unfold get_texture. rewrite Ha, Hf.
    destruct Hcase as [-> | ->]; [reflexivity|].
    rewrite andb_false_r. reflexivity. }
  split; [exact Hf|]. split; [exact Ha|]. split; [|split; assumption].
  destruct (is_animated_ p) eqn:Hanim.
  - destruct (anim_frames_ p) as [|t0 r] eqn:Hfp.
    + rewrite Hstill by (right; reflexivity). discriminate.
    + destruct Hframe as (_ & t & -> & _);
        [reflexivity | discriminate | discriminate].
  - rewrite Hstill by (left; reflexivity). discriminate.
Qed.

Lemma get_texture_in_bounds_witness :
  let p := mkImage (Some [40; 0; 40]) [7; 8; 9]%nat true false false 0 0 180
                   5%float 0 0 in
  let cs := [CallPlay 0; CallSeekFrames 1 (-1); CallUpdate 2 50000000;
             CallSeek 3 0.125%float; CallTogglePause; CallStop] in
  get_texture (image_calls cs p) = Frame 8%nat
  /\ get_texture (image_calls cs p) <> OutOfBounds.
Proof.
  intros p cs.
  assert (Hlen : Z.of_nat (length (anim_frames_ p)) <= 2 ^ 30)
    by (apply Z.leb_le; reflexivity).
  assert (Htotal : anim_total_ms_ p <= Int.INT_MAX)
    by (apply Z.leb_le; reflexivity).
  assert (Hok : is_animated_ p = true -> anim_frames_ p <> [] ->
                frame_index_ok p)
    by (intros _ _; split; [apply Z.leb_le | apply Z.ltb_lt]; reflexivity).
  split; [reflexivity|].
  exact (proj1 (proj2 (proj2 (get_texture_in_bounds cs p Hlen Htotal Hok)))).
Defined.

Lemma sum_delays_ext p q n : forall i acc,
  current_anim_ q = current_anim_ p ->
  sum_delays q i n acc = sum_delays p i n acc.
Proof.
  induction n as [|n IH]; intros i acc H; [reflexivity|].
  cbn [sum_delays].
  replace (frame_delay q i) with (frame_delay p i)
    by (unfold frame_delay; rewrite H; reflexivity).
  apply IH, H.
Qed.

Lemma seek_frames_index now delta p :
  is_animated_ p = true ->
  anim_frames_ p <> [] ->
  Z.of_nat (length (anim_frames_ p)) <= 2 ^ 30 ->
  Int.in_range (anim_frame_idx_ p + delta) ->
  let idx := (anim_frame_idx_ p + delta) mod Z.of_nat (length (anim_frames_ p)) in
  seek_frames now delta p
  = mkImage (current_anim_ p) (anim_frames_ p) (is_animated_ p)
      (img_paused_ p) (img_ended_ p) idx (sum_delays p 0 (Z.to_nat idx) 0)
      (anim_total_ms_ p) (display_sec_ p) (start_time_ p) now.
Proof.
  intros Hanim Hne Hlen Hsum idx.
  assert (Hcount : 0 < Z.of_nat (length (anim_frames_ p)) <= 2 ^ 30).
  { destruct (anim_frames_ p); [contradiction | simpl length in *; lia]. }
  unfold seek_frames. rewrite Hanim.
  destruct (anim_frames_ p) as [|t0 r] eqn:Hf; [contradiction|].
  cbn [negb orb is_empty].
  rewrite (IntFacts.wrap_small (Z.of_nat (length (t0 :: r))))
    by (unfold Int.in_range, Int.INT_MIN, Int.INT_MAX; lia).
  destruct (MediaFacts.frame_index_range
              (Int.add (anim_frame_idx_ p) delta)
              (Z.of_nat (length (t0 :: r)))
              (IntFacts.wrap_range _) Hcount) as (Heq & _ & Hmod).
  rewrite Heq, Hmod. unfold Int.add.
  rewrite (IntFacts.wrap_small _ Hsum). reflexivity.
Qed.

(** X19. Frame steps compose: on an animated player whose frame index is
    within a frame list of at most [2^30] frames, stepping by [a] and then
    by [b] (each at most [2^29] in size) leaves the player in the state a
    single step by [a + b] gives; stepping by [a] and back by [- a], or
    once around by the frame count, returns to the frame the player was
    on. *)
Theorem seek_frames_compose (now now' : time_point) (a b : Z)
  (p : ImagePlayer) :
  is_animated_ p = true ->
  frame_index_ok p ->
  Z.of_nat (length (anim_frames_ p)) <= 2 ^ 30 ->
  - 2 ^ 29 <= a <= 2 ^ 29 ->
  - 2 ^ 29 <= b <= 2 ^ 29 ->
  seek_frames now b (seek_frames now' a p) = seek_frames now (a + b) p
  /\ anim_frame_idx_ (seek_frames now (- a) (seek_frames now' a p))
     = anim_frame_idx_ p
  /\ anim_frame_idx_
       (seek_frames now (Z.of_nat (length (anim_frames_ p))) p)
     = anim_frame_idx_ p.
Proof.
  intros Hanim Hok Hlen Ha Hb.
  set (count := Z.of_nat (length (anim_frames_ p))) in *.
  assert (Hne : anim_frames_ p <> []).
  { unfold frame_index_ok in Hok. fold count in Hok. unfold count in Hok.
    destruct (anim_frames_ p); [simpl in Hok; lia | discriminate]. }
  unfold frame_index_ok in Hok. fold count in Hok.
  assert (Hin : forall d, - 2 ^ 31 <= d <= 2 ^ 30 ->
                          Int.in_range (anim_frame_idx_ p + d))
    by (intros d Hd; unfold Int.in_range, Int.INT_MIN, Int.INT_MAX; lia).
  assert (Hstep : forall t d, - 2 ^ 29 <= d <= 2 ^ 29 ->
            seek_frames t d (seek_frames now' a p)
            = seek_frames t (a + d) p).
  { intros t d Hd.
    rewrite (seek_frames_index now' a p Hanim Hne Hlen (Hin a ltac:(lia))).
    fold count.
    pose proof (Z.mod_pos_bound (anim_frame_idx_ p + a) count ltac:(lia)) as Hm.
    rewrite seek_frames_index; cbn [anim_frames_ is_animated_ anim_frame_idx_
      current_anim_ img_paused_ img_ended_ anim_total_ms_ display_sec_
      start_time_]; try assumption;
      [|unfold Int.in_range, Int.INT_MIN, Int.INT_MAX; fold count; lia].
    rewrite (seek_frames_index t (a + d) p Hanim Hne Hlen (Hin (a + d) ltac:(lia))).
    fold count.
    rewrite Z.add_mod_idemp_l by lia.
    rewrite Z.add_assoc.
    f_equal. apply sum_delays_ext. reflexivity. }
  split; [apply Hstep, Hb|]. split.
  - rewrite Hstep by lia.
    rewrite (seek_frames_index now (a + - a) p Hanim Hne Hlen
               (Hin (a + - a) ltac:(lia))).
    cbn [anim_frame_idx_]. fold count.
    rewrite Z.add_opp_diag_r, Z.add_0_r. apply Z.mod_small, Hok.
  - rewrite (seek_frames_index now count p Hanim Hne Hlen
               (Hin count ltac:(lia))).
    cbn [anim_frame_idx_]. fold count.
    rewrite <- (Z.mul_1_l count) at 1. rewrite Z.mod_add by lia.
    apply Z.mod_small, Hok.
Qed.

Lemma seek_frames_compose_witness :
  let p := mkImage (Some [40; 0; 40; 40; 40]) [1; 2; 3; 4; 5]%nat true
                   false false 1 40 220 5%float 0 0 in
  seek_frames 9 (-4) (seek_frames 8 7 p) = seek_frames 9 3 p
  /\ anim_frame_idx_ (seek_frames 9 3 p) = 4
  /\ anim_frame_idx_ (seek_frames 9 (-7) (seek_frames 8 7 p)) = 1.
Proof.
  intros p.
  assert (Hok : frame_index_ok p)
    by (split; [apply Z.leb_le | apply Z.ltb_lt]; reflexivity).
  assert (Hlen : Z.of_nat (length (anim_frames_ p)) <= 2 ^ 30)
    by (apply Z.leb_le; reflexivity).
  assert (Hb : forall z, (- 2 ^ 29 <=? z) && (z <=? 2 ^ 29) = true ->
                         - 2 ^ 29 <= z <= 2 ^ 29).
  { intros z H. apply andb_true_iff in H. destruct H as [H1 H2].
    apply Z.leb_le in H1, H2. split; assumption. }
  destruct (seek_frames_compose 9 8 7 (-4) p eq_refl Hok Hlen
              (Hb 7 eq_refl) (Hb (-4) eq_refl)) as (Hc & Hback & _).
  split; [exact Hc|]. split; [reflexivity | exact Hback].
Defined.

End PlayerMore.

(** ** The playlist position *)

Module PlaylistFacts.

Import Playlist.

Local Open Scope Z_scope.

Lemma step_index_mod current_idx n advance :
  0 < n < 2 ^ 62 -> 0 <= current_idx < n ->
  - n <= advance < 2 ^ 62 ->
  step_index current_idx n advance = (current_idx + advance) mod n.
Proof.
  intros Hn Hc Ha. unfold step_index, size_t.
  rewrite (Z.mod_small (current_idx + n)) by lia.
  rewrite Z.add_mod_idemp_r by lia.
  rewrite (Z.mod_small (current_idx + n + advance)) by lia.
  replace (current_idx + n + advance) with (current_idx + advance + 1 * n)
    by lia.
  apply Z.mod_add. lia.
Qed.

(** X20. The playlist position of the main loop, for a playlist of [n]
    entries and a position below [n]: a step by [advance] (the keys give
    [+1] and [-1]) yields [(current_idx + advance) mod n], again a position
    of the playlist; the step forward from the last entry is the first and
    the step back from the first is the last; a step forward and a step
    back cancel; and the automatic advance is the step by [+1]. *)
Theorem step_index_cyclic (current_idx n advance : Z) :
  0 < n < 2 ^ 62 -> 0 <= current_idx < n ->
  - n <= advance < 2 ^ 62 ->
  step_index current_idx n advance = (current_idx + advance) mod n
  /\ 0 <= step_index current_idx n advance < n
  /\ step_index (n - 1) n 1 = 0
  /\ step_index 0 n (-1) = n - 1
  /\ step_index (step_index current_idx n 1) n (-1) = current_idx
  /\ step_index (step_index current_idx n (-1)) n 1 = current_idx
  /\ next_index current_idx n = step_index current_idx n 1.
Proof.
  intros Hn Hc Ha.
  assert (Hb : forall z, 0 <= z mod n < n)
    by (intros z; apply Z.mod_pos_bound; lia).
  split; [apply step_index_mod; assumption|].
  split; [rewrite step_index_mod by assumption; apply Hb|].
  split.
  { rewrite step_index_mod by lia.
    replace (n - 1 + 1) with (0 + 1 * n) by lia.
    rewrite Z.mod_add by lia. apply Z.mod_small. lia. }
  split.
  { rewrite step_index_mod by lia.
    replace (0 + -1) with (n - 1 + -1 * n) by lia.
    rewrite Z.mod_add by lia. apply Z.mod_small. lia. }
  split.
  { rewrite (step_index_mod current_idx n 1) by lia.
    rewrite step_index_mod by (try apply Hb; lia).
    rewrite Z.add_mod_idemp_l by lia.
    replace (current_idx + 1 + -1) with current_idx by lia.
    apply Z.mod_small, Hc. }
  split.
  { rewrite (step_index_mod current_idx n (-1)) by lia.
    rewrite step_index_mod by (try apply Hb; lia).
    rewrite Z.add_mod_idemp_l by lia.
    replace (current_idx + -1 + 1) with current_idx by lia.
    apply Z.mod_small, Hc. }
  rewrite step_index_mod by lia. unfold next_index, size_t.
  rewrite (Z.mod_small (current_idx + 1)) by lia. reflexivity.
Qed.

Lemma step_index_cyclic_witness :
  step_index 0 3 (-1) = 2 /\ step_index 2 3 1 = 0 /\ next_index 2 3 = 0.
Proof.
  assert (Hn : 0 < 3 < 2 ^ 62) by (split; apply Z.ltb_lt; reflexivity).
  assert (H0 : 0 <= 0 < 3) by (split; [apply Z.leb_le | apply Z.ltb_lt]; reflexivity).
  assert (H2 : 0 <= 2 < 3) by (split; [apply Z.leb_le | apply Z.ltb_lt]; reflexivity).
  assert (Hm : - 3 <= -1 < 2 ^ 62) by (split; [apply Z.leb_le | apply Z.ltb_lt]; reflexivity).
  assert (Hp : - 3 <= 1 < 2 ^ 62) by (split; [apply Z.leb_le | apply Z.ltb_lt]; reflexivity).
  destruct (step_index_cyclic 0 3 (-1) Hn H0 Hm) as (E1 & _).
  destruct (step_index_cyclic 2 3 1 Hn H2 Hp) as (E2 & _ & _ & _ & _ & _ & E3).
  split; [rewrite E1; reflexivity|].
  split; [rewrite E2; reflexivity|].
  rewrite E3, E2. reflexivity.
Defined.

End PlaylistFacts.
